(** * Widget proxy: the dual-mode request pipeline and the cache-backed service

    A shallow embedding of [src/server.js] (the dependency-free server:
    [proxyRequest] and the route dispatch of the request handler), of the
    [ProxyService] class and of the proxy router built on it, followed by the
    properties of the specification stated over these definitions. *)

From Stdlib Require Import ZArith NArith Ascii List Lia.
From Stdlib Require Strings.Byte.
From stdpp Require Import base option list strings pretty gmap.

Set Default Proof Using "Type".
Open Scope list_scope.

(* ===================================================================== *)
(** * Part I. Definitions                                                 *)
(* ===================================================================== *)

(** ** JavaScript text

    A JavaScript string is a sequence of UTF-16 code units.  The rewrite
    rules of the widget loader are literal patterns, so the functions below
    are stated over any alphabet with decidable equality and used at code
    units. *)

Module JsText.

Section Words.
Context {A : Type} `{EqDecision A}.

(** [String.prototype.startsWith], on sequences. *)
Fixpoint startsWith (p s : list A) : bool :=
  match p, s with
  | [], _ => true
  | _ :: _, [] => false
  | a :: p', b :: s' => if decide (a = b) then startsWith p' s' else false
  end.

(** [text.replace(/p/g, r)] for a literal, non-empty pattern [p] and a
    replacement [r] without [$] references: scan from the left; where the
    pattern matches, emit the replacement and resume after the match,
    otherwise copy one unit.  [fuel] bounds the number of scan steps. *)
Fixpoint replaceAll_scan (p r : list A) (fuel : nat) (s : list A) : list A :=
  match fuel with
  | O => s
  | S n =>
      match s with
      | [] => []
      | c :: s' =>
          if startsWith p s
          then r ++ replaceAll_scan p r n (drop (length p) s)
          else c :: replaceAll_scan p r n s'
      end
  end.

Definition replaceAll (p r s : list A) : list A :=
  replaceAll_scan p r (length s) s.

(** [text.replace(p, r)] for a string pattern and a replacement without
    [$] references: the first occurrence only. *)
Fixpoint replaceFirst (p r s : list A) : list A :=
  if startsWith p s then r ++ drop (length p) s
  else match s with
       | [] => []
       | c :: s' => c :: replaceFirst p r s'
       end.

(** [s.includes(q)], computed. *)
Fixpoint includesb (q s : list A) : bool :=
  startsWith q s
  || match s with
     | [] => false
     | _ :: s' => includesb q s'
     end.

(** [s.split(sep).pop()]: what follows the last separator, the whole
    sequence when there is none. *)
Fixpoint lastSegment (sep : A) (acc s : list A) : list A :=
  match s with
  | [] => acc
  | c :: s' =>
      if decide (c = sep) then lastSegment sep [] s'
      else lastSegment sep (acc ++ [c]) s'
  end.

(** [s.includes(q)] as a proposition. *)
Definition Occurs (q s : list A) : Prop := ∃ a b, s = a ++ q ++ b.

(** The non-empty suffixes of a word, longest first. *)
Fixpoint suffixes (l : list A) : list (list A) :=
  match l with
  | [] => []
  | _ :: l' => l :: suffixes l'
  end.

(** Two words are comparable when one is a prefix of the other. *)
Definition comparable (x y : list A) : bool :=
  startsWith x y || startsWith y x.

(** No occurrence of [q] can start inside a block [w] or run into it from
    the left: no non-empty suffix of [q] is comparable with [w], and no
    non-empty suffix of [w] is comparable with [q]. *)
Definition runs_into (q w : list A) : bool :=
  existsb (fun q' => comparable q' w) (suffixes q).

Definition starts_inside (q w : list A) : bool :=
  existsb (fun w' => comparable w' q) (suffixes w).

Definition clash_free (q w : list A) : bool :=
  negb (runs_into q w) && negb (starts_inside q w).

(** A word is unbordered when no proper non-empty suffix of it is
    comparable with it (no two occurrences can overlap). *)
Definition unbordered (p : list A) : bool :=
  negb (existsb (fun p' => comparable p' p) (suffixes (tail p))).
End Words.

(** UTF-16 code units, and the code units of a literal whose characters
    are below U+0100. *)
Definition jschar := N.
Definition jsstring := list N.

Definition lit (s : string) : jsstring :=
  map N_of_ascii (String.list_ascii_of_string s).

(** [s.startsWith(p)] and [replaceFirst] on strings of characters below
    U+0100. *)
Definition str_startsWith (p s : string) : bool :=
  startsWith (String.list_ascii_of_string p) (String.list_ascii_of_string s).

Definition str_replace (p r s : string) : string :=
  String.string_of_list_ascii
    (replaceFirst (String.list_ascii_of_string p) (String.list_ascii_of_string r)
       (String.list_ascii_of_string s)).

Definition str_includes (q s : string) : bool :=
  includesb (String.list_ascii_of_string q) (String.list_ascii_of_string s).

(** [obj[name]] on a plain object, given as the list of its own properties
    in enumeration order (properties inherited from [Object.prototype] are
    not modelled). *)
Fixpoint prop {V : Type} (name : string) (o : list (string * V)) : option V :=
  match o with
  | [] => None
  | (k, v) :: o' => if String.eqb k name then Some v else prop name o'
  end.

(** [obj[name] = v]: an existing property keeps its place. *)
Fixpoint setProp {V : Type} (name : string) (v : V) (o : list (string * V))
    : list (string * V) :=
  match o with
  | [] => [(name, v)]
  | (k, w) :: o' =>
      if String.eqb k name then (k, v) :: o' else (k, w) :: setProp name v o'
  end.

(** [a || b] on strings and on numbers. *)
Definition orString (a : option string) (b : string) : string :=
  match a with
  | Some s => if String.eqb s "" then b else s
  | None => b
  end.

Definition orNumber (a : option Z) (b : Z) : Z :=
  match a with
  | Some n => if (n =? 0)%Z then b else n
  | None => b
  end.

(** The double quote, and a literal between double quotes. *)
Definition dquote : ascii := ascii_of_N 34.

Definition quoted (s : string) : jsstring := 34%N :: lit s ++ [34%N].

(** [Buffer.from(text, 'utf8')]: UTF-8 of a sequence of UTF-16 code units;
    a surrogate pair is one scalar value, a lone surrogate is encoded as
    U+FFFD. *)
Definition byte := Init.Byte.byte.

Definition byte_of (n : N) : byte :=
  default Init.Byte.x00 (Strings.Byte.of_N (n mod 256)).

Definition is_high (c : N) : bool := (55296 <=? c)%N && (c <=? 56319)%N.
Definition is_low (c : N) : bool := (56320 <=? c)%N && (c <=? 57343)%N.

Definition utf8_scalar (u : N) : list byte :=
  if (u <? 128)%N then [byte_of u]
  else if (u <? 2048)%N then
    [byte_of (192 + u / 64); byte_of (128 + u mod 64)]
  else if (u <? 65536)%N then
    [byte_of (224 + u / 4096); byte_of (128 + (u / 64) mod 64);
     byte_of (128 + u mod 64)]
  else
    [byte_of (240 + u / 262144); byte_of (128 + (u / 4096) mod 64);
     byte_of (128 + (u / 64) mod 64); byte_of (128 + u mod 64)].

Fixpoint utf8_encode (s : jsstring) : list byte :=
  match s with
  | [] => []
  | c :: r =>
      if is_high c then
        match r with
        | d :: r' =>
            if is_low d
            then utf8_scalar (65536 + (c - 55296) * 1024 + (d - 56320))
                   ++ utf8_encode r'
            else utf8_scalar 65533 ++ utf8_encode r
        | [] => utf8_scalar 65533
        end
      else if is_low c then utf8_scalar 65533 ++ utf8_encode r
      else utf8_scalar c ++ utf8_encode r
  end.

End JsText.

(** ** JSON text

    [JSON.stringify] on the values the two servers serialise: strings,
    arrays and objects (an object is the list of its own properties in
    enumeration order).  Strings are sequences of characters below U+0100. *)

Module Json.

#[warnings="-register-all"]
Inductive json :=
  | JStr (s : string)
  | JArr (items : list json)
  | JObj (fields : list (string * json)).

Definition hex_digit (n : N) : ascii :=
  if (n <? 10)%N then ascii_of_N (48 + n) else ascii_of_N (87 + n).

(** The escape of one character inside a JSON string. *)
Definition escape (c : ascii) : list ascii :=
  let n := N_of_ascii c in
  if (n =? 34)%N then ["\"%char; JsText.dquote]
  else if (n =? 92)%N then ["\"%char; "\"%char]
  else if (n =? 8)%N then ["\"%char; "b"%char]
  else if (n =? 9)%N then ["\"%char; "t"%char]
  else if (n =? 10)%N then ["\"%char; "n"%char]
  else if (n =? 12)%N then ["\"%char; "f"%char]
  else if (n =? 13)%N then ["\"%char; "r"%char]
  else if (n <? 32)%N then
    ["\"%char; "u"%char; "0"%char; "0"%char; hex_digit (n / 16); hex_digit (n mod 16)]
  else [c].

Definition quote_chars (s : list ascii) : list ascii :=
  JsText.dquote :: concat (map escape s) ++ [JsText.dquote].

Definition quote (s : string) : string :=
  String.string_of_list_ascii (quote_chars (String.list_ascii_of_string s)).

(** The members of an array or object, separated by commas. *)
Fixpoint join_comma (l : list (list ascii)) : list ascii :=
  match l with
  | [] => []
  | x :: l' =>
      match l' with
      | [] => x
      | _ :: _ => x ++ ","%char :: join_comma l'
      end
  end.

Fixpoint serialize (j : json) : list ascii :=
  match j with
  | JStr s => quote_chars (String.list_ascii_of_string s)
  | JArr items => "["%char :: join_comma (map serialize items) ++ ["]"%char]
  | JObj fields =>
      "{"%char ::
        join_comma
          (map (fun kv => quote_chars (String.list_ascii_of_string (fst kv))
                            ++ ":"%char :: serialize (snd kv)) fields)
        ++ ["}"%char]
  end.

Definition stringify (j : json) : string := String.string_of_list_ascii (serialize j).

(** One member of an object, as [serialize] writes it. *)
Definition member (kv : string * json) : list ascii :=
  quote_chars (String.list_ascii_of_string (fst kv)) ++ ":"%char :: serialize (snd kv).

(** Reading back one escaped character: the inverse of [escape], undefined
    at the closing quote. *)
Definition hex_value (c : ascii) : N :=
  let n := N_of_ascii c in
  if (n <? 58)%N then (n - 48)%N else (n - 87)%N.

Definition unescape (l : list ascii) : option (ascii * list ascii) :=
  match l with
  | [] => None
  | c :: r =>
      if Ascii.eqb c JsText.dquote then None
      else if Ascii.eqb c "\" then
        match r with
        | x :: r' =>
            if Ascii.eqb x JsText.dquote then Some (JsText.dquote, r')
            else if Ascii.eqb x "\" then Some ("\"%char, r')
            else if Ascii.eqb x "b" then Some (ascii_of_N 8, r')
            else if Ascii.eqb x "t" then Some (ascii_of_N 9, r')
            else if Ascii.eqb x "n" then Some (ascii_of_N 10, r')
            else if Ascii.eqb x "f" then Some (ascii_of_N 12, r')
            else if Ascii.eqb x "r" then Some (ascii_of_N 13, r')
            else
              match r' with
              | _ :: _ :: h1 :: h2 :: r'' =>
                  Some (ascii_of_N (16 * hex_value h1 + hex_value h2), r'')
              | _ => None
              end
        | [] => None
        end
      else Some (c, r)
  end.

End Json.

(** ** HTTP headers

    Node keeps the headers of a response under their lower-cased names; a
    value is a string or, for repeated headers, a list of strings.  The
    headers of an upstream response are the own properties of
    [proxyRes.headers], in enumeration order. *)

Module Http.

Inductive hvalue :=
  | HUndefined
  | HStr (s : string)
  | HList (l : list string).

Global Instance hvalue_eq_dec : EqDecision hvalue.
Proof. solve_decision. Defined.

(** JavaScript truthiness of a header value. *)
Definition truthy (v : option hvalue) : bool :=
  match v with
  | None | Some HUndefined => false
  | Some (HStr s) => negb (String.eqb s "")
  | Some (HList _) => true
  end.

Definition lower_ascii (c : ascii) : ascii :=
  let n := N_of_ascii c in
  if (65 <=? n)%N && (n <=? 90)%N then ascii_of_N (n + 32) else c.

Fixpoint toLowerCase (s : string) : string :=
  match s with
  | EmptyString => EmptyString
  | String c s' => String (lower_ascii c) (toLowerCase s')
  end.

Definition headers := gmap string hvalue.

(** [res.setHeader(name, value)]. *)
Definition setHeader (name : string) (value : hvalue) (h : headers) : headers :=
  <[toLowerCase name := value]> h.

(** [res.getHeader(name)]. *)
Definition getHeader (name : string) (h : headers) : option hvalue :=
  h !! toLowerCase name.

End Http.

(** ** The dependency-free server ([src/server.js]) *)

Module Server.
Import JsText Http.

(** The functions of the Node runtime the server calls.  The three [zlib]
    functions throw on malformed input ([None]); [Buffer.prototype.toString]
    decodes UTF-8; [res.setHeader] throws on a name or value that Node
    refuses ([headerAccepted] is false); the file functions read the static
    pages. *)
Inductive StaticFile :=
  | DemoHtml | ThemeCssDocker | ThemeCssLocal | PreviewDocker | PreviewLocal.

Record NodeRuntime := {
  gunzipSync : list byte → option (list byte);
  brotliDecompressSync : list byte → option (list byte);
  inflateSync : list byte → option (list byte);
  bufferToString : list byte → jsstring;
  headerAccepted : string → hvalue → bool;
  existsSync : StaticFile → bool;
  readFileSync : StaticFile → option (list byte)
}.

(** Environment configuration, read once at start-up. *)
Record ProcessEnv := {
  env_PORT : option string;
  env_NODE_ENV : option string;
  env_LOG_LEVEL : option string
}.

Definition PORT (e : ProcessEnv) : string := orString (env_PORT e) "3001".
Definition NODE_ENV (e : ProcessEnv) : string := orString (env_NODE_ENV e) "development".
Definition LOG_LEVEL (e : ProcessEnv) : string := orString (env_LOG_LEVEL e) "info".

(** [Logger]: a message is printed when its level is at most the configured
    one; an unknown configured level prints nothing. *)
Definition Logger_levels (level : string) : option nat :=
  if String.eqb level "error" then Some 0
  else if String.eqb level "warn" then Some 1
  else if String.eqb level "info" then Some 2
  else if String.eqb level "debug" then Some 3
  else None.

Definition Logger_log (e : ProcessEnv) (level message : string) : list string :=
  match Logger_levels level, Logger_levels (LOG_LEVEL e) with
  | Some l, Some m => if l <=? m then [message] else []
  | _, _ => []
  end.

Definition corsHeaders : list (string * string) :=
  [ ("Access-Control-Allow-Origin", "*");
    ("Access-Control-Allow-Methods", "GET, POST, OPTIONS");
    ("Access-Control-Allow-Headers", "Content-Type, Authorization, X-Requested-With");
    ("X-Frame-Options", "SAMEORIGIN");
    ("X-Content-Type-Options", "nosniff");
    ("X-XSS-Protection", "1; mode=block");
    ("Referrer-Policy", "strict-origin-when-cross-origin") ].

Definition config_baseUrl : string := "https://widgets.sir-sportradar.com".
Definition config_widgetId : string := "984c87dccac74331a2261fd032f80dbf".
Definition config_userAgent : string :=
  "Mozilla/5.0 (Macintosh; Intel Mac OS X 10_15_7) AppleWebKit/537.36 (KHTML, like Gecko) Chrome/140.0.0.0 Safari/537.36".
Definition config_referer : string := "https://www.tipx10.com/".

(** The inbound request, as the handler reads it: the method, the pathname
    and the search part of the parsed URL, and the [matchId] of the query. *)
Record IncomingRequest := {
  req_method : string;
  req_pathname : string;
  req_search : option string;
  req_matchId : option string;
  req_userAgent : option string
}.

(** The outbound request of [proxyRequest]. *)
Record ClientRequest := {
  out_target : string;
  out_method : string;
  out_headers : list (string * string)
}.

(** The upstream response: status, headers and the chunks of the body in
    the order of their [data] events. *)
Record IncomingMessage := {
  statusCode : Z;
  msg_headers : list (string * hvalue);
  msg_chunks : list (list byte)
}.

Inductive Upstream :=
  | UpstreamError (message : string)
  | UpstreamResponse (proxyRes : IncomingMessage).

(** What is written to the client: status, headers, and the chunks of the
    body in the order they are written. *)
Record ServerResponse := {
  res_status : Z;
  res_headers : headers;
  res_chunks : list (list byte)
}.

Definition res_body (r : ServerResponse) : list byte := concat (res_chunks r).

(** [Object.entries(corsHeaders).forEach(([key, value]) => res.setHeader(key, value))]. *)
Definition setCorsHeaders (h : headers) : headers :=
  foldl (fun acc kv => setHeader (fst kv) (HStr (snd kv)) acc) h corsHeaders.

(** Stream mode, one upstream header:
    [try { if (value !== undefined) res.setHeader(key, value); } catch {}]. *)
Definition forwardHeader (rt : NodeRuntime) (acc : headers) (kv : string * hvalue) : headers :=
  match snd kv with
  | HUndefined => acc
  | value =>
      if headerAccepted rt (fst kv) value
      then setHeader (fst kv) value acc
      else acc
  end.

Definition forwardHeaders (rt : NodeRuntime) (upstreamHeaders : list (string * hvalue))
    (h : headers) : headers :=
  foldl (forwardHeader rt) h upstreamHeaders.

(** Transform mode, decompression:
    [try { if (contentEncoding === 'gzip') ... } catch (err) { finalData = data; }]. *)
Definition tryDecompress (rt : NodeRuntime) (contentEncoding : option hvalue)
    (data : list byte) : option (list byte) :=
  if decide (contentEncoding = Some (HStr "gzip")) then gunzipSync rt data
  else if decide (contentEncoding = Some (HStr "br")) then brotliDecompressSync rt data
  else if decide (contentEncoding = Some (HStr "deflate")) then inflateSync rt data
  else Some data.

Definition decompress (rt : NodeRuntime) (contentEncoding : option hvalue)
    (data : list byte) : list byte :=
  match tryDecompress rt contentEncoding data with
  | Some finalData => finalData
  | None => data
  end.

(** Transform mode, the four replacements in source order. *)
Definition ltHost : jsstring := lit "https://lt-fn.sir-sportradar.com".
Definition wsHost : jsstring := lit "https://ws-fn.sir-sportradar.com".
Definition ltLocal : jsstring := lit "http://localhost:3001/api/lt-fn".
Definition wsLocal : jsstring := lit "http://localhost:3001/api/ws-fn".

Definition lmtField (url : jsstring) : jsstring :=
  quoted "lmtFishnetFeedsUrl" ++ lit ":" ++ [34%N] ++ url ++ [34%N].
Definition cardsField (url : jsstring) : jsstring :=
  quoted "cardsFishnetFeedsUrl" ++ lit ":" ++ [34%N] ++ url ++ [34%N].

Definition rewriteRules : list (jsstring * jsstring) :=
  [ (lmtField ltHost, lmtField ltLocal);
    (cardsField wsHost, cardsField wsLocal);
    (ltHost, ltLocal);
    (wsHost, wsLocal) ].

Definition applyRules (rules : list (jsstring * jsstring)) (text : jsstring) : jsstring :=
  foldl (fun t rule => replaceAll (fst rule) (snd rule) t) text rules.

Definition rewriteWidgetScript (responseText : jsstring) : jsstring :=
  applyRules rewriteRules responseText.

(** [x || fallback] on a header value. *)
Definition orValue (v : option hvalue) (fallback : hvalue) : hvalue :=
  match v with
  | Some x => if truthy v then x else fallback
  | None => fallback
  end.

(** The response callback of [proxyRequest]. *)
Definition onResponse (rt : NodeRuntime) (rewrite : bool) (proxyRes : IncomingMessage)
    : ServerResponse :=
  let h0 := setCorsHeaders ∅ in
  let upstreamHeaders := msg_headers proxyRes in
  if negb rewrite then
    (* stream mode *)
    {| res_status := statusCode proxyRes;
       res_headers := forwardHeaders rt upstreamHeaders h0;
       res_chunks := msg_chunks proxyRes |}
  else
    (* transform mode *)
    let contentEncoding := prop "content-encoding" upstreamHeaders in
    let data := concat (msg_chunks proxyRes) in
    let finalData := decompress rt contentEncoding data in
    let responseText := rewriteWidgetScript (bufferToString rt finalData) in
    let h1 := setHeader "Content-Type"
                (orValue (prop "content-type" upstreamHeaders) (HStr "application/javascript")) h0 in
    let h2 := match prop "cache-control" upstreamHeaders with
              | Some cc => if truthy (Some cc) then setHeader "Cache-Control" cc h1 else h1
              | None => h1
              end in
    let buf := utf8_encode responseText in
    let h3 := setHeader "Content-Length" (HStr (pretty (length buf))) h2 in
    {| res_status := statusCode proxyRes;
       res_headers := h3;
       res_chunks := [buf] |}.

(** The [error] callback of [proxyRequest]:
    [res.writeHead(500, corsHeaders)] and the JSON error body. *)
Definition onError (message : string) : ServerResponse :=
  {| res_status := 500;
     res_headers := setCorsHeaders ∅;
     res_chunks :=
       [utf8_encode (lit (Json.stringify
          (Json.JObj [("error", Json.JStr "Proxy Error"); ("message", Json.JStr message)])))] |}.

Definition clientRequest (targetUrl : string) (req : IncomingRequest) : ClientRequest :=
  {| out_target := targetUrl;
     out_method := req_method req;
     out_headers :=
       [ ("User-Agent", config_userAgent); ("Accept", "*/*");
         ("Accept-Encoding", "gzip, deflate, br"); ("Referer", config_referer) ] |}.

(** [proxyRequest(targetUrl, req, res, opts)]: the lines it logs and the
    response it writes, given the upstream's answer to the outbound request. *)
Definition proxyRequest (rt : NodeRuntime) (e : ProcessEnv)
    (network : ClientRequest → Upstream)
    (targetUrl : string) (req : IncomingRequest) (rewriteWidgetScript : bool)
    : list string * ServerResponse :=
  let log1 := Logger_log e "info" "Proxy request initiated" in
  match network (clientRequest targetUrl req) with
  | UpstreamResponse proxyRes =>
      (log1 ++ Logger_log e "info" "Proxy response received",
       onResponse rt rewriteWidgetScript proxyRes)
  | UpstreamError message => (log1, onError message)
  end.

(** *** Route dispatch of the request handler

    Each step is one [if (...) { ...; return; }] of the handler, in source
    order; a step that does not apply, or whose file read fails, lets the
    request fall through to the next one. *)
Inductive Route :=
  | RPreflight
  | RHealth
  | RDemo (content : list byte)
  | RThemeCss (css : list byte)
  | RPreview (html : list byte) (matchId : string)
  | RApi
  | RWidget (targetUrl : string)
  | RLicensing (targetUrl : string)
  | RTranslations (targetUrl : string)
  | RFeed (targetUrl : string)
  | RProxyAsset (assetPath : string)
  | RDirectAsset (targetUrl : string)
  | RNotFound.

Definition queryString (req : IncomingRequest) : string :=
  orString (req_search req) "".

Definition step_preflight (rt : NodeRuntime) (req : IncomingRequest) : option Route :=
  if String.eqb (req_method req) "OPTIONS" then Some RPreflight else None.

Definition step_health (rt : NodeRuntime) (req : IncomingRequest) : option Route :=
  if String.eqb (req_pathname req) "/health" then Some RHealth else None.

Definition step_demo (rt : NodeRuntime) (req : IncomingRequest) : option Route :=
  if String.eqb (req_pathname req) "/" || String.eqb (req_pathname req) "/demo"
  then RDemo <$> readFileSync rt DemoHtml
  else None.

Definition step_theme (rt : NodeRuntime) (req : IncomingRequest) : option Route :=
  if String.eqb (req_pathname req) "/loader/theme.css"
  then RThemeCss <$>
         readFileSync rt (if existsSync rt ThemeCssDocker then ThemeCssDocker else ThemeCssLocal)
  else None.

Definition step_preview (rt : NodeRuntime) (req : IncomingRequest) : option Route :=
  if String.eqb (req_pathname req) "/loader/preview.html"
     || String.eqb (req_pathname req) "/loader/preview"
  then (fun html => RPreview html (orString (req_matchId req) "61939220")) <$>
         readFileSync rt (if existsSync rt PreviewDocker then PreviewDocker else PreviewLocal)
  else None.

Definition step_api (rt : NodeRuntime) (req : IncomingRequest) : option Route :=
  if String.eqb (req_pathname req) "/api" then Some RApi else None.

Definition step_widget (rt : NodeRuntime) (req : IncomingRequest) : option Route :=
  if str_startsWith "/proxy/sportradar/match." (req_pathname req)
  then Some (RWidget (config_baseUrl +:+ "/" +:+ config_widgetId +:+ "/widgetloader"
                        +:+ queryString req))
  else None.

Definition step_licensing (rt : NodeRuntime) (req : IncomingRequest) : option Route :=
  if String.eqb (req_pathname req) ("/" +:+ config_widgetId +:+ "/licensing")
  then Some (RLicensing (config_baseUrl +:+ req_pathname req))
  else None.

Definition step_translations (rt : NodeRuntime) (req : IncomingRequest) : option Route :=
  if str_startsWith "/translations/" (req_pathname req)
  then Some (RTranslations (config_baseUrl +:+ req_pathname req))
  else None.

Definition step_feed (rt : NodeRuntime) (req : IncomingRequest) : option Route :=
  if str_startsWith "/api/ws-fn/" (req_pathname req)
     || str_startsWith "/api/lt-fn/" (req_pathname req)
  then
    let apiType := if str_startsWith "/api/ws-fn/" (req_pathname req) then "ws-fn" else "lt-fn" in
    let apiPath := str_replace ("/api/" +:+ apiType +:+ "/") "" (req_pathname req) in
    Some (RFeed ("https://" +:+ apiType +:+ ".sir-sportradar.com/" +:+ apiPath
                   +:+ queryString req))
  else None.

(** The branch whose target is [`${SPORTRADAR_BASE}${assetPath}`]. *)
Definition step_proxy_asset (rt : NodeRuntime) (req : IncomingRequest) : option Route :=
  if str_startsWith "/proxy/sportradar/" (req_pathname req)
  then Some (RProxyAsset (str_replace "/proxy/sportradar" "" (req_pathname req)))
  else None.

Definition step_direct_asset (rt : NodeRuntime) (req : IncomingRequest) : option Route :=
  if str_startsWith "/assets/" (req_pathname req)
     || str_startsWith "/js/" (req_pathname req)
     || str_startsWith "/css/" (req_pathname req)
  then Some (RDirectAsset (config_baseUrl +:+ req_pathname req))
  else None.

Definition steps : list (NodeRuntime → IncomingRequest → option Route) :=
  [ step_preflight; step_health; step_demo; step_theme; step_preview; step_api;
    step_widget; step_licensing; step_translations; step_feed;
    step_proxy_asset; step_direct_asset ].

Fixpoint firstMatch (l : list (NodeRuntime → IncomingRequest → option Route))
    (rt : NodeRuntime) (req : IncomingRequest) : Route :=
  match l with
  | [] => RNotFound
  | step :: l' =>
      match step rt req with
      | Some r => r
      | None => firstMatch l' rt req
      end
  end.

Definition dispatch (rt : NodeRuntime) (req : IncomingRequest) : Route :=
  firstMatch steps rt req.

(** The request handler: a proxied route runs [proxyRequest]; the branch of
    [step_proxy_asset] evaluates the identifier [SPORTRADAR_BASE], which no
    declaration of the module binds, and throws; the remaining routes are
    answered locally. *)
Inductive Outcome :=
  | Proxied (log : list string) (r : ServerResponse)
  | Local (route : Route)
  | Thrown (error : string).

Definition handleRequest (rt : NodeRuntime) (e : ProcessEnv)
    (network : ClientRequest → Upstream) (req : IncomingRequest) : Outcome :=
  match dispatch rt req with
  | RWidget targetUrl =>
      let '(log, r) := proxyRequest rt e network targetUrl req true in
      Proxied (Logger_log e "info" "Widget proxy request" ++ log) r
  | RLicensing targetUrl =>
      let '(log, r) := proxyRequest rt e network targetUrl req false in
      Proxied (Logger_log e "debug" "Licensing request" ++ log) r
  | RTranslations targetUrl =>
      let '(log, r) := proxyRequest rt e network targetUrl req false in
      Proxied (Logger_log e "debug" "Translation request" ++ log) r
  | RFeed targetUrl =>
      let '(log, r) := proxyRequest rt e network targetUrl req false in
      Proxied log r
  | RProxyAsset _ => Thrown "ReferenceError: SPORTRADAR_BASE is not defined"
  | RDirectAsset targetUrl =>
      let '(log, r) := proxyRequest rt e network targetUrl req false in
      Proxied (Logger_log e "debug" "Direct asset request" ++ log) r
  | route => Local route
  end.

End Server.

(** ** The Cache Store *)

Module CacheStore.

Section Store.
Context {V : Type}.

(** Modelled from the spec: the Cache Store is the [node-cache] package,
    which is not among the sources.  An entry holds a value, its insertion
    timestamp (milliseconds) and its TTL (seconds); it is never returned
    once [now - insertion > TTL]; [set] replaces the entry of its key as a
    whole and, for a new key once the maximum key count is reached, first
    evicts the entry inserted earliest; expired entries are removed by the
    periodic sweep; [flush] empties the store. *)
Record Entry := {
  entry_value : V;
  entry_inserted : Z;
  entry_ttl : Z
}.

(** Modelled from the spec: the validity rule of an entry of the absent
    [node-cache] store, [now - insertion > TTL]. *)
Definition expired (now : Z) (e : Entry) : bool :=
  (entry_ttl e * 1000 <? now - entry_inserted e)%Z.

(** Modelled from the spec: [get(key)] of the absent [node-cache] store,
    the stored value or a miss; an expired entry is a miss. *)
Definition get (now : Z) (key : string) (m : gmap string Entry) : option V :=
  match m !! key with
  | Some e => if expired now e then None else Some (entry_value e)
  | None => None
  end.

(** Modelled from the spec: the eviction policy of the absent [node-cache]
    store, oldest insertion first. *)
Fixpoint oldest (l : list (string * Entry)) : option (string * Entry) :=
  match l with
  | [] => None
  | (k, e) :: l' =>
      match oldest l' with
      | Some (k', e') =>
          if (entry_inserted e <=? entry_inserted e')%Z then Some (k, e) else Some (k', e')
      | None => Some (k, e)
      end
  end.

Definition evict (m : gmap string Entry) : gmap string Entry :=
  match oldest (map_to_list m) with
  | Some (k, _) => delete k m
  | None => m
  end.

(** Modelled from the spec: [set(key, value, ttlSeconds)] of the absent
    [node-cache] store. *)
Definition set (maxKeys : nat) (now : Z) (key : string) (value : V) (ttl : Z)
    (m : gmap string Entry) : gmap string Entry :=
  let room :=
    match m !! key with
    | Some _ => m
    | None => if maxKeys <=? size m then evict m else m
    end in
  <[key := {| entry_value := value; entry_inserted := now; entry_ttl := ttl |}]> room.

(** Modelled from the spec: the periodic sweep and [flush()] of the absent
    [node-cache] store. *)
Definition sweep (now : Z) (m : gmap string Entry) : gmap string Entry :=
  filter (fun kv => expired now (snd kv) = false) m.

Definition flush (m : gmap string Entry) : gmap string Entry := ∅.

Definition count (m : gmap string Entry) : nat := size m.
End Store.

Global Arguments Entry : clear implicits.

End CacheStore.

(** ** The configuration-driven service ([ProxyService]) *)

Module ProxyService.
Import JsText Json.

Record WidgetType := {
  wt_path : string;
  wt_assets : list string
}.

Record ProviderCache := {
  scripts : option Z;
  assets : option Z;
  chunks : option Z
}.

Record Provider := {
  p_name : string;
  baseUrl : string;
  widgetId : option string;
  widgetTypes : list (string * WidgetType);
  p_headers : list (string * string);
  p_cache : option ProviderCache
}.

Record CacheOptions := {
  defaultTtl : Z;
  maxKeys : nat;
  checkPeriod : option Z
}.

Record Config := {
  providers : list (string * Provider);
  cacheOptions : CacheOptions
}.

(** [getDefaultConfig()]. *)
Definition defaultConfig : Config :=
  {| providers :=
       [ ("sportradar",
          {| p_name := "SportRadar";
             baseUrl := "https://widgets.sir-sportradar.com";
             widgetId := None;
             widgetTypes :=
               [ ("match.lmtPlus",
                  {| wt_path := "/{widgetId}/widgetloader"; wt_assets := ["/assets/**/*"] |});
                 ("match.preview",
                  {| wt_path := "/{widgetId}/widgetloader"; wt_assets := ["/assets/**/*"] |}) ];
             p_headers :=
               [ ("User-Agent", "KakBet-Widget-Proxy/1.0"); ("Accept", "*/*");
                 ("Accept-Encoding", "gzip, deflate, br") ];
             p_cache := Some {| scripts := Some 300%Z; assets := Some 3600%Z; chunks := None |} |}) ];
     cacheOptions := {| defaultTtl := 300; maxKeys := 1000; checkPeriod := None |} |}.

(** The body of an upstream answer: text, or an array buffer. *)
Inductive Payload :=
  | Text (t : string)
  | ArrayBuffer (bytes : list byte).

Record ProxyResult := {
  status : Z;
  data : Payload;
  contentType : string;
  headers : list (string * string)
}.

(** A thrown [Error]: its message and its [status] property. *)
Record JsError := {
  message : string;
  error_status : option Z
}.

(** [new Error(message)]. *)
Definition Error (message : string) : JsError :=
  {| message := message; error_status := None |}.

Inductive Completion (A : Type) :=
  | Returned (a : A)
  | Threw (e : JsError).
Global Arguments Returned {A} a.
Global Arguments Threw {A} e.

(** The headers the router reads from the inbound request. *)
Record RequestHeaders := {
  userAgent : option string;
  referer : option string;
  acceptEncoding : option string
}.

(** One upstream request of the HTTP client, and the upstream's answer. *)
Record FetchRequest := {
  fetch_url : string;
  fetch_headers : list (string * option string);
  fetch_params : list (string * json);
  fetch_responseType : string
}.

Record AxiosResponse := {
  response_status : Z;
  response_headers : list (string * string);
  response_data : Payload
}.

Inductive NetReply :=
  | NetFailure (message : string)
  | NetAnswer (response : AxiosResponse).

(** The upstream as seen from the service: what it answers to a request
    issued at a given time, and how long the answer takes (milliseconds). *)
Record Exchange := {
  elapsed : Z;
  reply : NetReply
}.

Definition Network := Z → FetchRequest → Exchange.

(** [validateStatus: (status) => status < 500]. *)
Definition validateStatus (status : Z) : bool := (status <? 500)%Z.

(** [this.httpClient.get(url, options)]: rejects on a transport failure and
    on a status that [validateStatus] refuses. *)
Definition httpClient_get (r : NetReply) : AxiosResponse + JsError :=
  match r with
  | NetFailure message => inr (Error message)
  | NetAnswer response =>
      if validateStatus (response_status response) then inl response
      else inr {| message := "Request failed with status code " +:+ pretty (response_status response);
                  error_status := None |}
  end.

(** The service's state: the cache and the upstream requests made so far. *)
Record State := {
  cache : gmap string (CacheStore.Entry ProxyResult);
  fetched : list FetchRequest
}.

Definition truthyString (v : option string) : bool :=
  match v with
  | Some s => negb (String.eqb s "")
  | None => false
  end.

(** [buildResponseHeaders(originalHeaders, resourceType)]. *)
Definition buildResponseHeaders (originalHeaders : list (string * string))
    (resourceType : string) : list (string * string) :=
  let headers :=
    [ ("Access-Control-Allow-Origin", "*");
      ("Access-Control-Allow-Methods", "GET, POST, OPTIONS");
      ("Access-Control-Allow-Headers", "Content-Type, Authorization, X-Requested-With");
      ("X-Frame-Options", "SAMEORIGIN");
      ("X-Content-Type-Options", "nosniff") ] in
  let headers :=
    if truthyString (prop "content-type" originalHeaders)
    then setProp "Content-Type" (orString (prop "content-type" originalHeaders) "") headers
    else headers in
  let headers :=
    if truthyString (prop "content-encoding" originalHeaders)
    then setProp "Content-Encoding" (orString (prop "content-encoding" originalHeaders) "") headers
    else headers in
  if truthyString (prop "cache-control" originalHeaders)
  then setProp "Cache-Control" (orString (prop "cache-control" originalHeaders) "") headers
  else setProp "Cache-Control"
         (if String.eqb resourceType "script" then "public, max-age=300"
          else "public, max-age=3600") headers.

(** [assetPath.split('.').pop()?.toLowerCase()]. *)
Definition extension (assetPath : string) : string :=
  Http.toLowerCase
    (String.string_of_list_ascii
       (lastSegment "."%char [] (String.list_ascii_of_string assetPath))).

Definition isOneOf (x : string) (l : list string) : bool :=
  existsb (String.eqb x) l.

(** [getResponseType(assetPath)]. *)
Definition getResponseType (assetPath : string) : string :=
  let ext := extension assetPath in
  if isOneOf ext ["js"; "css"; "html"; "xml"; "json"] then "text"
  else if isOneOf ext ["png"; "jpg"; "jpeg"; "gif"; "webp"; "ico"] then "arraybuffer"
  else "text".

(** [getContentType(assetPath)]. *)
Definition contentTypes : list (string * string) :=
  [ ("js", "application/javascript"); ("css", "text/css"); ("html", "text/html");
    ("json", "application/json"); ("png", "image/png"); ("jpg", "image/jpeg");
    ("jpeg", "image/jpeg"); ("gif", "image/gif"); ("webp", "image/webp");
    ("ico", "image/x-icon"); ("svg", "image/svg+xml") ].

Definition getContentType (assetPath : string) : string :=
  orString (prop (extension assetPath) contentTypes) "application/octet-stream".

(** [getAssetCacheTtl(providerConfig, assetPath)]. *)
Definition getAssetCacheTtl (providerConfig : Provider) (assetPath : string) : Z :=
  let ext := extension assetPath in
  if String.eqb ext "js" then
    if str_includes "chunk." assetPath
    then orNumber (p_cache providerConfig ≫= chunks) 1800
    else orNumber (p_cache providerConfig ≫= assets) 3600
  else if String.eqb ext "css" then
    orNumber (p_cache providerConfig ≫= assets) 3600
  else orNumber (p_cache providerConfig ≫= assets) 3600.

(** The request headers both proxy methods prepare. *)
Definition prepareHeaders (providerConfig : Provider) (requestHeaders : RequestHeaders)
    : list (string * option string) :=
  let spread := map (fun kv => (fst kv, Some (snd kv))) (p_headers providerConfig) in
  let ua :=
    if truthyString (userAgent requestHeaders) then userAgent requestHeaders
    else prop "User-Agent" (p_headers providerConfig) in
  let headers := setProp "User-Agent" ua spread in
  let headers :=
    setProp "Referer" (Some (orString (referer requestHeaders) "https://kakbet.com")) headers in
  if truthyString (acceptEncoding requestHeaders)
  then setProp "Accept-Encoding" (acceptEncoding requestHeaders) headers
  else headers.

Definition widgetCacheKey (provider widgetType : string) (queryParams : list (string * json))
    : string :=
  "widget:" +:+ provider +:+ ":" +:+ widgetType +:+ ":" +:+ stringify (JObj queryParams).

Definition assetCacheKey (provider assetPath : string) : string :=
  "asset:" +:+ provider +:+ ":" +:+ assetPath.

(** [config.cache.*] of the service: the store is created with [maxKeys]. *)
Definition cacheSet (cfg : Config) (now : Z) (key : string) (result : ProxyResult) (ttl : Z)
    (st : State) : State :=
  {| cache := CacheStore.set (maxKeys (cacheOptions cfg)) now key result ttl (cache st);
     fetched := fetched st |}.

Definition recordFetch (request : FetchRequest) (st : State) : State :=
  {| cache := cache st; fetched := fetched st ++ [request] |}.

(** [proxyWidget(provider, widgetType, queryParams, requestHeaders)], called
    at time [now]. *)
Definition proxyWidget (cfg : Config) (network : Network) (now : Z)
    (provider widgetType : string) (queryParams : list (string * json))
    (requestHeaders : RequestHeaders) (st : State) : Completion ProxyResult * State :=
  match prop provider (providers cfg) with
  | None => (Threw (Error ("Provider '" +:+ provider +:+ "' not found")), st)
  | Some providerConfig =>
      match prop widgetType (widgetTypes providerConfig) with
      | None =>
          (Threw (Error ("Widget type '" +:+ widgetType +:+ "' not found for provider '"
                           +:+ provider +:+ "'")), st)
      | Some widgetConfig =>
          let widgetPath :=
            str_replace "{widgetId}" (default "undefined" (widgetId providerConfig))
              (wt_path widgetConfig) in
          let targetUrl := baseUrl providerConfig +:+ widgetPath in
          let cacheKey := widgetCacheKey provider widgetType queryParams in
          match CacheStore.get now cacheKey (cache st) with
          | Some cached => (Returned cached, st)
          | None =>
              let request :=
                {| fetch_url := targetUrl;
                   fetch_headers := prepareHeaders providerConfig requestHeaders;
                   fetch_params := queryParams;
                   fetch_responseType := "text" |} in
              let answer := network now request in
              let st1 := recordFetch request st in
              match httpClient_get (reply answer) with
              | inl response =>
                  let result :=
                    {| status := response_status response;
                       data := response_data response;
                       contentType :=
                         orString (prop "content-type" (response_headers response))
                           "application/javascript";
                       headers := buildResponseHeaders (response_headers response) "script" |} in
                  let cacheTtl :=
                    orNumber (p_cache providerConfig ≫= scripts) (defaultTtl (cacheOptions cfg)) in
                  (Returned result,
                   cacheSet cfg (now + elapsed answer) cacheKey result cacheTtl st1)
              | inr error =>
                  (Threw (Error ("Failed to fetch widget: " +:+ message error)), st1)
              end
          end
      end
  end.

(** [proxyAsset(provider, assetPath, requestHeaders)], called at time [now]. *)
Definition proxyAsset (cfg : Config) (network : Network) (now : Z)
    (provider assetPath : string) (requestHeaders : RequestHeaders) (st : State)
    : Completion ProxyResult * State :=
  match prop provider (providers cfg) with
  | None => (Threw (Error ("Provider '" +:+ provider +:+ "' not found")), st)
  | Some providerConfig =>
      let targetUrl := baseUrl providerConfig +:+ assetPath in
      let cacheKey := assetCacheKey provider assetPath in
      match CacheStore.get now cacheKey (cache st) with
      | Some cached => (Returned cached, st)
      | None =>
          let request :=
            {| fetch_url := targetUrl;
               fetch_headers := prepareHeaders providerConfig requestHeaders;
               fetch_params := [];
               fetch_responseType := getResponseType assetPath |} in
          let answer := network now request in
          let st1 := recordFetch request st in
          match httpClient_get (reply answer) with
          | inl response =>
              let result :=
                {| status := response_status response;
                   data := response_data response;
                   contentType :=
                     orString (prop "content-type" (response_headers response))
                       (getContentType assetPath);
                   headers := buildResponseHeaders (response_headers response) "asset" |} in
              let cacheTtl := getAssetCacheTtl providerConfig assetPath in
              (Returned result,
               cacheSet cfg (now + elapsed answer) cacheKey result cacheTtl st1)
          | inr error =>
              (Threw (Error ("Failed to fetch asset: " +:+ message error)), st1)
          end
      end
  end.

(** The ways a call completes: it throws before the lookup, it is served
    from the cache, its fetch fails, or its fetch succeeds and the result
    is stored. *)
Inductive Completes (network : Network) (now : Z) (key : string) (st : State)
    : Completion ProxyResult → State → Prop :=
  | Rejected e :
      Completes network now key st (Threw e) st
  | Hit cached :
      CacheStore.get now key (cache st) = Some cached →
      Completes network now key st (Returned cached) st
  | FetchFailed request err e :
      CacheStore.get now key (cache st) = None →
      httpClient_get (reply (network now request)) = inr err →
      Completes network now key st (Threw e) (recordFetch request st)
  | Fetched cfg request response result ttl :
      CacheStore.get now key (cache st) = None →
      httpClient_get (reply (network now request)) = inl response →
      status result = response_status response →
      data result = response_data response →
      Completes network now key st (Returned result)
        (cacheSet cfg (now + elapsed (network now request)) key result ttl
           (recordFetch request st)).

(** [getCacheStats()], the key count. *)
Definition getCacheStats (st : State) : nat := CacheStore.count (cache st).

(** [clearCache()]. *)
Definition clearCache (st : State) : State :=
  {| cache := CacheStore.flush (cache st); fetched := fetched st |}.

End ProxyService.

(** ** The proxy router ([createProxyRouter]) *)

Module ProxyRouter.
Import JsText Json ProxyService.

Inductive Body :=
  | Sent (data : Payload)
  | JsonBody (j : json)
  | ProviderInfo (provider name baseUrl : string) (widgetTypes : list string)
      (cache : option ProviderCache).

(** What a handler writes: the status, the headers given to [res.set], the
    type given to [res.type], and the body. *)
Record Reply := {
  reply_status : Z;
  reply_headers : list (string * string);
  reply_type : option string;
  reply_body : Body
}.

Definition sendResult (result : ProxyResult) : Reply :=
  {| reply_status := status result;
     reply_headers := headers result;
     reply_type := if String.eqb (contentType result) "" then None
                   else Some (contentType result);
     reply_body := Sent (data result) |}.

(** [res.status(error.status || 500).json({ error, message, ...})]. *)
Definition sendError (label : string) (error : JsError) (echo : list (string * json)) : Reply :=
  {| reply_status := orNumber (error_status error) 500;
     reply_headers := [];
     reply_type := None;
     reply_body :=
       JsonBody (JObj ([("error", JStr label); ("message", JStr (message error))] ++ echo)) |}.

(** [router.get('/:provider/:widgetType', ...)]. *)
Definition widgetHandler (cfg : Config) (network : Network) (now : Z)
    (provider widgetType : string) (query : list (string * json))
    (requestHeaders : RequestHeaders) (st : State) : Reply * State :=
  match proxyWidget cfg network now provider widgetType query requestHeaders st with
  | (Returned result, st') => (sendResult result, st')
  | (Threw error, st') =>
      (sendError "Proxy Error" error
         [("provider", JStr provider); ("widgetType", JStr widgetType)], st')
  end.

(** [router.get('/:provider/assets/*', ...)]; the query of the request is
    not read. *)
Definition assetHandler (cfg : Config) (network : Network) (now : Z)
    (provider rest : string) (query : list (string * json))
    (requestHeaders : RequestHeaders) (st : State) : Reply * State :=
  match proxyAsset cfg network now provider ("/assets/" +:+ rest) requestHeaders st with
  | (Returned result, st') => (sendResult result, st')
  | (Threw error, st') =>
      (sendError "Asset Proxy Error" error
         [("provider", JStr provider); ("assetPath", JStr rest)], st')
  end.


(** [router.get('/:provider', ...)]: provider information. *)
Definition providerInfo (cfg : Config) (provider : string) : Reply :=
  match prop provider (providers cfg) with
  | None =>
      {| reply_status := 404;
         reply_headers := [];
         reply_type := None;
         reply_body :=
           JsonBody (JObj [ ("error", JStr "Provider Not Found");
                            ("message", JStr ("Provider '" +:+ provider +:+ "' is not configured"));
                            ("availableProviders",
                             JArr (map (fun kv => JStr (fst kv)) (providers cfg))) ]) |}
  | Some providerConfig =>
      {| reply_status := 200;
         reply_headers := [];
         reply_type := None;
         reply_body :=
           ProviderInfo provider (p_name providerConfig) (baseUrl providerConfig)
             (map fst (widgetTypes providerConfig)) (p_cache providerConfig) |}
  end.

End ProxyRouter.

(** ** Routes, as relations

    The static paths of the handler, the choice between the container and
    the working-tree location of a static file, and the relation between a
    request and the route that answers it. *)

Module Routing.
Import JsText Http Server.

(** The paths the handler compares with [===] before the proxied routes. *)
Definition staticPaths : list string :=
  ["/health"; "/"; "/demo"; "/loader/theme.css"; "/loader/preview.html";
   "/loader/preview"; "/api"].

Definition themeFile (rt : NodeRuntime) : StaticFile :=
  if existsSync rt ThemeCssDocker then ThemeCssDocker else ThemeCssLocal.

Definition previewFile (rt : NodeRuntime) : StaticFile :=
  if existsSync rt PreviewDocker then PreviewDocker else PreviewLocal.

(** The route of a request, with the test of the handler that selects it. *)
Inductive Dispatches (rt : NodeRuntime) (req : IncomingRequest) : Route → Prop :=
  | D_preflight :
      String.eqb (req_method req) "OPTIONS" = true →
      Dispatches rt req RPreflight
  | D_health :
      req_pathname req = "/health" →
      Dispatches rt req RHealth
  | D_demo content :
      req_pathname req = "/" ∨ req_pathname req = "/demo" →
      readFileSync rt DemoHtml = Some content →
      Dispatches rt req (RDemo content)
  | D_theme css :
      req_pathname req = "/loader/theme.css" →
      readFileSync rt (themeFile rt) = Some css →
      Dispatches rt req (RThemeCss css)
  | D_preview html :
      req_pathname req = "/loader/preview.html" ∨ req_pathname req = "/loader/preview" →
      readFileSync rt (previewFile rt) = Some html →
      Dispatches rt req (RPreview html (orString (req_matchId req) "61939220"))
  | D_api :
      req_pathname req = "/api" →
      Dispatches rt req RApi
  | D_widget :
      str_startsWith "/proxy/sportradar/match." (req_pathname req) = true →
      Dispatches rt req
        (RWidget (config_baseUrl +:+ "/" +:+ config_widgetId +:+ "/widgetloader"
                    +:+ queryString req))
  | D_licensing :
      req_pathname req = "/" +:+ config_widgetId +:+ "/licensing" →
      Dispatches rt req (RLicensing (config_baseUrl +:+ req_pathname req))
  | D_translations :
      str_startsWith "/translations/" (req_pathname req) = true →
      Dispatches rt req (RTranslations (config_baseUrl +:+ req_pathname req))
  | D_feed apiType :
      str_startsWith ("/api/" +:+ apiType +:+ "/") (req_pathname req) = true →
      apiType = "ws-fn" ∨ apiType = "lt-fn" →
      Dispatches rt req
        (RFeed ("https://" +:+ apiType +:+ ".sir-sportradar.com/"
                  +:+ str_replace ("/api/" +:+ apiType +:+ "/") "" (req_pathname req)
                  +:+ queryString req))
  | D_proxy_asset :
      str_startsWith "/proxy/sportradar/" (req_pathname req) = true →
      Dispatches rt req (RProxyAsset (str_replace "/proxy/sportradar" "" (req_pathname req)))
  | D_direct_asset :
      str_startsWith "/assets/" (req_pathname req) = true
      ∨ str_startsWith "/js/" (req_pathname req) = true
      ∨ str_startsWith "/css/" (req_pathname req) = true →
      Dispatches rt req (RDirectAsset (config_baseUrl +:+ req_pathname req))
  | D_not_found :
      (req_pathname req = "/" ∨ req_pathname req = "/demo" → readFileSync rt DemoHtml = None) →
      (req_pathname req = "/loader/theme.css" → readFileSync rt (themeFile rt) = None) →
      (req_pathname req = "/loader/preview.html" ∨ req_pathname req = "/loader/preview" →
       readFileSync rt (previewFile rt) = None) →
      Forall (fun c => req_pathname req ≠ c)
        ["/health"; "/api"; "/" +:+ config_widgetId +:+ "/licensing"] →
      Forall (fun a => str_startsWith a (req_pathname req) = false)
        ["/proxy/sportradar/"; "/translations/"; "/api/ws-fn/"; "/api/lt-fn/";
         "/assets/"; "/js/"; "/css/"] →
      Dispatches rt req RNotFound.

End Routing.

(** ** Sequences of calls to the service *)

Module Session.
Import JsText Json ProxyService ProxyRouter.


(** The calls a client of the service makes, in the order it makes them. *)
Inductive Call :=
  | CallWidget (now : Z) (provider widgetType : string) (queryParams : list (string * json))
      (requestHeaders : RequestHeaders)
  | CallAsset (now : Z) (provider assetPath : string) (requestHeaders : RequestHeaders)
  | CallClear.

Definition step (cfg : Config) (network : Network) (st : State) (c : Call) : State :=
  match c with
  | CallWidget now provider widgetType queryParams requestHeaders =>
      snd (proxyWidget cfg network now provider widgetType queryParams requestHeaders st)
  | CallAsset now provider assetPath requestHeaders =>
      snd (proxyAsset cfg network now provider assetPath requestHeaders st)
  | CallClear => clearCache st
  end.

Definition run (cfg : Config) (network : Network) (calls : list Call) : State :=
  foldl (step cfg network) {| cache := ∅; fetched := [] |} calls.



End Session.

(** ** The pages the server answers itself

    The preview page is rewritten with two regular expressions before it is
    served; the other local routes write fixed bodies. *)

Module Pages.
Import JsText Http Server Routing.

(** [GetSubstitution] for an expression without capture groups: in the
    replacement, [$$] stands for a dollar sign, [$&] for the matched text,
    [$`] for the text before the match and [$'] for the text after it;
    any other [$] stands for itself. *)
Fixpoint getSubstitution (matched before after replacement : jsstring) : jsstring :=
  match replacement with
  | [] => []
  | c :: r =>
      if (c =? 36)%N then
        match r with
        | d :: r' =>
            if (d =? 36)%N then 36%N :: getSubstitution matched before after r'
            else if (d =? 38)%N then matched ++ getSubstitution matched before after r'
            else if (d =? 96)%N then before ++ getSubstitution matched before after r'
            else if (d =? 39)%N then after ++ getSubstitution matched before after r'
            else c :: getSubstitution matched before after r
        | [] => [c]
        end
      else c :: getSubstitution matched before after r
  end.

(** [text.replace(/re/g, replacement)] for an expression that matches no
    empty text, given by the length of its match at the head of a text:
    scan from the left; where the expression matches, emit the
    substitution and resume after the match, otherwise copy one unit.
    [before] is the text already scanned, [fuel] bounds the number of scan
    steps. *)
Fixpoint regexReplace_scan (matchAt : jsstring → option nat) (replacement : jsstring)
    (fuel : nat) (before s : jsstring) : jsstring :=
  match fuel with
  | O => s
  | S n =>
      match s with
      | [] => []
      | c :: s' =>
          match matchAt s with
          | Some (S len) =>
              getSubstitution (take (S len) s) before (drop (S len) s) replacement
                ++ regexReplace_scan matchAt replacement n (before ++ take (S len) s)
                     (drop (S len) s)
          | _ => c :: regexReplace_scan matchAt replacement n (before ++ [c]) s'
          end
      end
  end.

(** The scan with fuel enough for the whole text. *)
Definition scanFrom (matchAt : jsstring → option nat) (replacement before s : jsstring)
    : jsstring :=
  regexReplace_scan matchAt replacement (length s) before s.

Definition regexReplace (matchAt : jsstring → option nat) (replacement s : jsstring)
    : jsstring :=
  scanFrom matchAt replacement [] s.

(** The length of the longest prefix whose units satisfy [P]. *)
Fixpoint span (P : N → bool) (s : jsstring) : nat :=
  match s with
  | c :: s' => if P c then S (span P s') else 0
  | [] => 0
  end.

(** [\s] and [\d]. *)
Definition isSpace (c : N) : bool :=
  ((9 <=? c) && (c <=? 13) || (c =? 32) || (c =? 160) || (c =? 5760)
   || (8192 <=? c) && (c <=? 8202) || (c =? 8232) || (c =? 8233) || (c =? 8239)
   || (c =? 8287) || (c =? 12288) || (c =? 65279))%N.

Definition isDigit (c : N) : bool := ((48 <=? c) && (c <=? 57))%N.

(** [/https:\/\/widgets\.sir\.sportradar\.com\/[^/]+\/widgetloader/]: the
    run of units other than [/] is the longest one, since the unit after
    it has to be a [/]. *)
Definition loaderPrefix : jsstring := lit "https://widgets.sir.sportradar.com/".
Definition loaderSuffix : jsstring := lit "/widgetloader".

Definition matchLoader (s : jsstring) : option nat :=
  if startsWith loaderPrefix s then
    let rest := drop (length loaderPrefix) s in
    let run := span (fun c => negb (c =? 47)%N) rest in
    if (0 <? run) && startsWith loaderSuffix (drop run rest)
    then Some (length loaderPrefix + run + length loaderSuffix)
    else None
  else None.

(** [/matchId\s*:\s*\d+/]: each run is the longest one, since the unit
    after a run of spaces has to be a colon or a digit. *)
Definition matchMatchId (s : jsstring) : option nat :=
  match s with
  | c :: s0 =>
      if (c =? 109)%N && startsWith (lit "atchId") s0 then
        let r1 := drop 6 s0 in
        let w1 := span isSpace r1 in
        match drop w1 r1 with
        | colon :: r2 =>
            if (colon =? 58)%N then
              let w2 := span isSpace r2 in
              let d := span isDigit (drop w2 r2) in
              if 0 <? d then Some (7 + w1 + 1 + w2 + d) else None
            else None
        | [] => None
        end
      else None
  | [] => None
  end.

(** The preview page as it is served: the loader address and the match id
    of the page are replaced, in this order. *)
Definition loaderAddress (matchId : string) : jsstring :=
  lit "http://localhost:3001/proxy/sportradar/match.lmtPlus?matchId=" ++ lit matchId.

Definition matchIdField (matchId : string) : jsstring :=
  lit "matchId:" ++ lit matchId.

Definition previewBody (matchId : string) (html : jsstring) : jsstring :=
  regexReplace matchMatchId (matchIdField matchId)
    (regexReplace matchLoader (loaderAddress matchId) html).

(** [res.writeHead(status, headers); res.end(body)]. *)
Definition writeHead (status : Z) (hs : list (string * string)) (body : list byte)
    : ServerResponse :=
  {| res_status := status;
     res_headers := foldl (fun acc kv => setHeader (fst kv) (HStr (snd kv)) acc) ∅ hs;
     res_chunks := [body] |}.

Definition jsonBody (j : Json.json) : list byte :=
  utf8_encode (lit (Json.stringify j)).

(** The routes the handler answers itself; [timestamp] is
    [new Date().toISOString()]. *)
Definition respondLocal (rt : NodeRuntime) (timestamp : string) (req : IncomingRequest)
    (route : Route) : option ServerResponse :=
  match route with
  | RPreflight =>
      Some {| res_status := 200;
              res_headers := foldl (fun acc kv => setHeader (fst kv) (HStr (snd kv)) acc)
                               ∅ corsHeaders;
              res_chunks := [] |}
  | RHealth =>
      Some (writeHead 200 (("Content-Type", "application/json") :: corsHeaders)
              (jsonBody (Json.JObj [ ("status", Json.JStr "healthy");
                                     ("timestamp", Json.JStr timestamp);
                                     ("cache", Json.JStr "disabled") ])))
  | RDemo content =>
      Some (writeHead 200 (("Content-Type", "text/html") :: corsHeaders)
              (utf8_encode (bufferToString rt content)))
  | RThemeCss css =>
      Some (writeHead 200
              (("Content-Type", "text/css") :: corsHeaders
               ++ [("Content-Length", pretty (length css))]) css)
  | RPreview html matchId =>
      Some (writeHead 200 (("Content-Type", "text/html") :: corsHeaders)
              (utf8_encode (previewBody matchId (bufferToString rt html))))
  | RApi =>
      Some (writeHead 200 (("Content-Type", "application/json") :: corsHeaders)
              (jsonBody (Json.JObj
                 [ ("name", Json.JStr "Widget Proxy");
                   ("version", Json.JStr "1.0.0");
                   ("status", Json.JStr "running");
                   ("endpoints",
                    Json.JObj [ ("demo", Json.JStr "/");
                                ("widget", Json.JStr "/proxy/sportradar/match.lmtPlus?matchId=123");
                                ("assets", Json.JStr "/proxy/sportradar/assets/js/chunk.123.js");
                                ("health", Json.JStr "/health") ]) ])))
  | RNotFound =>
      Some (writeHead 404 (("Content-Type", "application/json") :: corsHeaders)
              (jsonBody (Json.JObj
                 [ ("error", Json.JStr "Not Found");
                   ("message",
                    Json.JStr ("Route " +:+ req_method req +:+ " " +:+ req_pathname req
                                 +:+ " not found"));
                   ("timestamp", Json.JStr timestamp) ])))
  | _ => None
  end.

(** What the server writes for a request: the response of the proxied
    route or of the local one; nothing when the handler throws. *)
Definition serve (rt : NodeRuntime) (e : ProcessEnv) (network : ClientRequest → Upstream)
    (timestamp : string) (req : IncomingRequest) : option ServerResponse :=
  match handleRequest rt e network req with
  | Proxied _ r => Some r
  | Local route => respondLocal rt timestamp req route
  | Thrown _ => None
  end.

(** Every match of the match id expression in [out] is the field. *)
Definition settled (field out : jsstring) : Prop :=
  ∀ a b n, out = a ++ b → matchMatchId b = Some n → take n b = field.

(** The response carries the fixed headers with their fixed values. *)
Definition fixedHeaders (resp : ServerResponse) : Prop :=
  ∀ k v, (k, v) ∈ corsHeaders → getHeader k (res_headers resp) = Some (HStr v).

End Pages.

(** ** Fixtures

    A runtime double for the examples: [gunzipSync] and [inflateSync] reject
    every input, [brotliDecompressSync] is the identity, bytes below 0x80
    decode to themselves, every header is accepted and no static file
    exists. *)

Module Fixture.
Import JsText Http Server.

Definition runtime : NodeRuntime :=
  {| gunzipSync := fun _ => None;
     brotliDecompressSync := fun data => Some data;
     inflateSync := fun _ => None;
     bufferToString := map Strings.Byte.to_N;
     headerAccepted := fun _ _ => true;
     existsSync := fun _ => false;
     readFileSync := fun _ => None |}.

Definition env : ProcessEnv :=
  {| env_PORT := Some "8001"; env_NODE_ENV := None; env_LOG_LEVEL := None |}.

Definition ascii_bytes (s : string) : list byte :=
  map byte_of (lit s).

Definition get (pathname : string) : IncomingRequest :=
  {| req_method := "GET"; req_pathname := pathname; req_search := None;
     req_matchId := None; req_userAgent := None |}.

(** An upstream answer labelled gzip whose body is not gzip data. *)
Definition mislabelled : IncomingMessage :=
  {| statusCode := 200;
     msg_headers :=
       [ ("content-type", HStr "application/javascript");
         ("content-encoding", HStr "gzip");
         ("content-length", HStr "41");
         ("cache-control", HStr "max-age=60");
         ("access-control-allow-origin", HStr "https://widgets.example") ];
     msg_chunks := [ascii_bytes "var u='https://lt-fn."; ascii_bytes "sir-sportradar.com';"] |}.

(** An upstream that answers every request after 40 ms with the same
    script, one that is unreachable, and one that fails from a given time
    on. *)
Definition script : ProxyService.AxiosResponse :=
  {| ProxyService.response_status := 200;
     ProxyService.response_headers := [("content-type", "application/javascript")];
     ProxyService.response_data := ProxyService.Text "SIR('addWidget')" |}.

Definition upstream_ok : ProxyService.Network :=
  fun _ _ => {| ProxyService.elapsed := 40;
                ProxyService.reply := ProxyService.NetAnswer script |}.

Definition upstream_down : ProxyService.Network :=
  fun _ _ => {| ProxyService.elapsed := 30000;
                ProxyService.reply := ProxyService.NetFailure "connect ECONNREFUSED" |}.

Definition noHeaders : ProxyService.RequestHeaders :=
  {| ProxyService.userAgent := None; ProxyService.referer := None;
     ProxyService.acceptEncoding := None |}.

Definition cold : ProxyService.State :=
  {| ProxyService.cache := ∅; ProxyService.fetched := [] |}.

Definition matchQuery : list (string * Json.json) := [("matchId", Json.JStr "123")].

End Fixture.

(** Further doubles: an upstream answer with a header whose value is
    undefined, an upstream that answers 404, and one that answers 503. *)

Module Scenario.
Import JsText Http Server.

Definition sparse : IncomingMessage :=
  {| statusCode := 200;
     msg_headers := [ ("content-type", HStr "text/css"); ("x-frame-options", HUndefined) ];
     msg_chunks := [Fixture.ascii_bytes "a{}"] |}.

Definition answering (status : Z) : ProxyService.Network :=
  fun _ _ =>
    {| ProxyService.elapsed := 40;
       ProxyService.reply :=
         ProxyService.NetAnswer
           {| ProxyService.response_status := status;
              ProxyService.response_headers := [];
              ProxyService.response_data := ProxyService.Text "" |} |}.

(** A runtime whose working tree holds the theme and the preview page. *)
Definition pages : NodeRuntime :=
  {| gunzipSync := fun _ => None;
     brotliDecompressSync := fun data => Some data;
     inflateSync := fun _ => None;
     bufferToString := map Strings.Byte.to_N;
     headerAccepted := fun _ _ => true;
     existsSync := fun _ => false;
     readFileSync := fun file =>
       match file with
       | ThemeCssLocal => Some (Fixture.ascii_bytes "a{}")
       | PreviewLocal => Some (Fixture.ascii_bytes "SIR('addWidget',{matchId : 7})")
       | _ => None
       end |}.

End Scenario.

(* ===================================================================== *)
(** * Part II. Properties                                                 *)
(* ===================================================================== *)

Section WordFacts.
Import JsText.
Context {A : Type} `{EqDecision A}.
Implicit Types p q r s w a b k l x y u v : list A.

Lemma startsWith_prefix p s : startsWith p s = true ↔ p `prefix_of` s.
Proof.
  revert s. induction p as [|x p IH]; intros s; simpl.
  - split; [intros _; apply prefix_nil | done].
  - destruct s as [|y s].
    + split; [done | intros [k Hk]; discriminate].
    + destruct (decide (x = y)) as [->|Hne].
      * rewrite IH. split.
        -- by apply prefix_cons.
        -- by intros ?%prefix_cons_inv_2.
      * split; [done | intros ?%prefix_cons_inv_1; done].
Qed.

Lemma startsWith_app p k : startsWith p (p ++ k) = true.
Proof. apply startsWith_prefix. by exists k. Qed.

Lemma startsWith_false p s : startsWith p s = false ↔ ¬ p `prefix_of` s.
Proof. rewrite <- startsWith_prefix. by destruct (startsWith p s). Qed.

Lemma replaceAll_scan_fuel p r :
  p ≠ [] → ∀ n m s, length s ≤ n → length s ≤ m →
  replaceAll_scan p r n s = replaceAll_scan p r m s.
Proof.
  intros Hp. induction n as [|n IH]; intros m s Hn Hm.
  - destruct s; [|simpl in Hn; lia]. by destruct m.
  - destruct m as [|m].
    + destruct s; [done | simpl in Hm; lia].
    + destruct s as [|c s]; [done|]. simpl.
      destruct (startsWith p (c :: s)).
      * f_equal. apply IH; rewrite length_drop; simpl in *;
          destruct p; simpl in *; try done; lia.
      * f_equal. apply IH; simpl in *; lia.
Qed.

Lemma replaceAll_nil p r : replaceAll p r [] = [].
Proof. done. Qed.

Lemma replaceAll_match p r k :
  p ≠ [] → replaceAll p r (p ++ k) = r ++ replaceAll p r k.
Proof.
  intros Hp. unfold replaceAll.
  destruct p as [|x p]; [done|]. simpl length. cbn [replaceAll_scan app].
  change (x :: p ++ k) with ((x :: p) ++ k).
  rewrite startsWith_app. f_equal.
  rewrite drop_app_length.
  apply replaceAll_scan_fuel; [done | rewrite length_app; lia | lia].
Qed.

Lemma replaceAll_skip p r c s :
  startsWith p (c :: s) = false →
  replaceAll p r (c :: s) = c :: replaceAll p r s.
Proof. intros Hs. unfold replaceAll. simpl length. cbn [replaceAll_scan]. by rewrite Hs. Qed.

(** Induction along the scan. *)
Lemma scan_ind p (Hp : p ≠ []) (P : list A → Prop) :
  P [] →
  (∀ k, P k → P (p ++ k)) →
  (∀ c s, startsWith p (c :: s) = false → P s → P (c :: s)) →
  ∀ s, P s.
Proof.
  intros Hnil Hmatch Hskip s.
  remember (length s) as n eqn:Hn. revert s Hn.
  induction n as [n IH] using lt_wf_ind. intros s ->.
  destruct s as [|c s]; [done|].
  destruct (startsWith p (c :: s)) eqn:Hs.
  - apply startsWith_prefix in Hs as [k Hk]. rewrite Hk.
    apply Hmatch. eapply IH; [|done].
    rewrite Hk, length_app. destruct p; [done | simpl; lia].
  - apply Hskip; [done|]. eapply IH; [|done]. simpl; lia.
Qed.

Lemma snoc_app a (c : A) s : a ++ c :: s = (a ++ [c]) ++ s.
Proof. by rewrite <- (assoc_L (++)). Qed.

(** *** Occurrences *)

Lemma Occurs_here q b : Occurs q (q ++ b).
Proof. by exists [], b. Qed.

Lemma Occurs_app_l q a b : Occurs q a → Occurs q (a ++ b).
Proof. intros (x & y & ->). exists x, (y ++ b). by rewrite <- !(assoc_L (++)). Qed.

Lemma Occurs_app_r q a b : Occurs q b → Occurs q (a ++ b).
Proof. intros (x & y & ->). exists (a ++ x), y. by rewrite <- !(assoc_L (++)). Qed.

Lemma Occurs_trans q p s : Occurs q p → Occurs p s → Occurs q s.
Proof. intros Hq (x & y & ->). by apply Occurs_app_r, Occurs_app_l. Qed.

(** Without an occurrence of the pattern the scan copies its input. *)
Lemma replaceAll_absent p r s :
  p ≠ [] → ¬ Occurs p s → replaceAll p r s = s.
Proof.
  intros Hp. induction s as [|k IH|c s Hs IH] using (scan_ind p Hp); try done.
  - intros []. apply Occurs_here.
  - intros Hno. rewrite replaceAll_skip by done. f_equal. apply IH.
    intros Ho. apply Hno. by apply (Occurs_app_r _ [c]).
Qed.

Lemma suffixes_elem l k x : l = k ++ x → x ≠ [] → In x (suffixes l).
Proof.
  revert l. induction k as [|c k IH]; intros l -> Hx; simpl.
  - destruct x; [done | by left].
  - right. by apply IH.
Qed.

Lemma comparable_common x y u v : x ++ u = y ++ v → comparable x y = true.
Proof.
  intros Heq. unfold comparable. apply orb_true_iff.
  rewrite !startsWith_prefix.
  apply (prefix_weak_total _ _ (x ++ u)); [by exists u | rewrite Heq; by exists v].
Qed.

Lemma runs_into_spec q w k q' u v :
  runs_into q w = false → q = k ++ q' → q' ≠ [] → q' ++ u ≠ w ++ v.
Proof.
  intros Hr Hq Hq' Heq. unfold runs_into in Hr.
  apply not_true_iff_false in Hr. apply Hr, existsb_exists.
  exists q'. split; [by eapply suffixes_elem | by eapply comparable_common].
Qed.

Lemma starts_inside_spec q w k w' u v :
  starts_inside q w = false → w = k ++ w' → w' ≠ [] → w' ++ u ≠ q ++ v.
Proof.
  intros Hr Hw Hw' Heq. unfold starts_inside in Hr.
  apply not_true_iff_false in Hr. apply Hr, existsb_exists.
  exists w'. split; [by eapply suffixes_elem | by eapply comparable_common].
Qed.

Lemma clash_free_spec q w :
  clash_free q w = true → runs_into q w = false ∧ starts_inside q w = false.
Proof.
  unfold clash_free. rewrite andb_true_iff, !negb_true_iff. done.
Qed.

(** An occurrence of [q] in [a ++ w ++ b] lies in [a] or in [b] when [q]
    and the block [w] cannot overlap. *)
Lemma Occurs_around q w a b :
  clash_free q w = true →
  Occurs q (a ++ w ++ b) → Occurs q a ∨ Occurs q b.
Proof.
  intros [Hrun Hin]%clash_free_spec (x & y & Heq).
  apply app_eq_inv in Heq as [(k & Ha & Hk)|(k & Hx & Hk)].
  - (* the occurrence starts in [a] *)
    symmetry in Hk. apply app_eq_inv in Hk as [(k' & Hk1 & Hk')|(k' & Hk1 & Hk')].
    + left. exists x, k'. by rewrite Ha, Hk1.
    + destruct k' as [|c k'].
      * left. exists x, []. rewrite Ha, Hk1. by rewrite !(right_id_L [] (++)).
      * exfalso. by eapply (runs_into_spec q w k (c :: k') y b).
  - (* the occurrence starts at or after the start of the block *)
    apply app_eq_inv in Hk as [(k' & Hk1 & Hk')|(k' & Hk1 & Hk')].
    + destruct k' as [|c k'].
      * right. exists [], y. simpl in Hk'. by rewrite <- Hk'.
      * exfalso. by eapply (starts_inside_spec q w k (c :: k') b y).
    + right. by exists k', y.
Qed.

(** *** What a scan leaves behind *)

(** The output of a scan holds no occurrence of the pattern, provided the
    pattern cannot overlap the replacement.  The statement is generalised
    to a context [a] already emitted, in which no match starts. *)
Lemma replaceAll_removes_ctx p r :
  p ≠ [] → clash_free p r = true →
  ∀ s a,
    (∀ x y, a = x ++ y → y ≠ [] → startsWith p (y ++ s) = false) →
    ¬ Occurs p (a ++ replaceAll p r s).
Proof.
  intros Hp Hfree s.
  induction s as [|k IH|c s Hs IH] using (scan_ind p Hp); intros a Hstart.
  - rewrite replaceAll_nil, (right_id_L [] (++)). intros (x & y & ->).
    specialize (Hstart x (p ++ y) eq_refl).
    rewrite <- (assoc_L (++)), startsWith_app in Hstart.
    destruct p; [done|]. by specialize (Hstart ltac:(done)).
  - rewrite replaceAll_match by done.
    intros [(x & y & ->)|Ho]%Occurs_around; [| |done].
    + specialize (Hstart x (p ++ y) eq_refl).
      rewrite <- (assoc_L (++)), startsWith_app in Hstart.
      destruct p; [done|]. by specialize (Hstart ltac:(done)).
    + apply (IH []); [|done]. intros x y Hxy Hy.
      symmetry in Hxy. apply app_eq_nil in Hxy as [_ ->]. done.
  - rewrite replaceAll_skip by done.
    rewrite (cons_middle c a), (assoc_L (++)). apply IH.
    intros x y Hxy Hy.
    destruct (decide (y = [])) as [->|Hne]; [done|].
    destruct (exists_last Hne) as (y' & c' & ->).
    rewrite (assoc_L (++)) in Hxy. apply app_inj_tail in Hxy as [-> <-].
    rewrite <- (assoc_L (++)). simpl.
    destruct y' as [|d y']; [done|].
    by apply (Hstart x (d :: y')).
Qed.

Lemma replaceAll_removes p r s :
  p ≠ [] → clash_free p r = true → ¬ Occurs p (replaceAll p r s).
Proof.
  intros Hp Hfree. apply (replaceAll_removes_ctx p r Hp Hfree s []).
  intros x y Hxy Hy. symmetry in Hxy. by apply app_eq_nil in Hxy as [_ ->].
Qed.

(** A word absent from the input stays absent from the output, provided it
    cannot overlap the replacement. *)
Lemma replaceAll_keeps_absent_ctx p r q :
  p ≠ [] → clash_free q r = true →
  ∀ s a, ¬ Occurs q (a ++ s) → ¬ Occurs q (a ++ replaceAll p r s).
Proof.
  intros Hp Hfree s.
  induction s as [|k IH|c s Hs IH] using (scan_ind p Hp); intros a Hno.
  - done.
  - rewrite replaceAll_match by done.
    intros [Ho|Ho]%Occurs_around; [| |done].
    + by apply Hno, Occurs_app_l.
    + apply (IH []); [|done]. intros Hk. by apply Hno, Occurs_app_r, Occurs_app_r.
  - rewrite replaceAll_skip by done.
    rewrite (cons_middle c a), (assoc_L (++)). apply IH.
    by rewrite <- (assoc_L (++)).
Qed.

Lemma replaceAll_keeps_absent p r q s :
  p ≠ [] → clash_free q r = true →
  ¬ Occurs q s → ¬ Occurs q (replaceAll p r s).
Proof. intros Hp Hfree. apply (replaceAll_keeps_absent_ctx p r q Hp Hfree s []). Qed.

(** *** The scan distributes over blocks it cannot match into *)

Lemma replaceAll_block p r w b :
  starts_inside p w = false →
  replaceAll p r (w ++ b) = w ++ replaceAll p r b.
Proof.
  intros Hin.
  enough (∀ w' k, w = k ++ w' → replaceAll p r (w' ++ b) = w' ++ replaceAll p r b)
    as Hgen by apply (Hgen w []), eq_refl.
  induction w' as [|c w' IH]; intros k Hk; [done|].
  simpl. rewrite replaceAll_skip.
  - f_equal. apply (IH (k ++ [c])). by rewrite <- (assoc_L (++)).
  - apply startsWith_false. intros [v Hv].
    by eapply (starts_inside_spec p w k (c :: w') b v).
Qed.

Lemma replaceAll_around p r w a b :
  p ≠ [] → clash_free p w = true →
  replaceAll p r (a ++ w ++ b) = replaceAll p r a ++ w ++ replaceAll p r b.
Proof.
  intros Hp [Hrun Hin]%clash_free_spec.
  induction a as [|k IH|c s Hs IH] using (scan_ind p Hp).
  - rewrite replaceAll_nil. cbn [app]. by apply replaceAll_block.
  - rewrite <- (assoc_L (++)), !replaceAll_match by done.
    by rewrite IH, <- (assoc_L (++)).
  - simpl. rewrite !replaceAll_skip; [by rewrite IH | done |].
    apply startsWith_false. intros [v Hv].
    change (c :: s ++ w ++ b) with ((c :: s) ++ w ++ b) in Hv.
    apply app_eq_inv in Hv as [(k & Hk & Hk')|(k & Hk & Hk')].
    + apply startsWith_false in Hs. apply Hs. by exists k.
    + destruct k as [|d k].
      * rewrite (right_id_L [] (++)) in Hk.
        apply startsWith_false in Hs. apply Hs. by rewrite Hk.
      * by apply (runs_into_spec p w (c :: s) (d :: k) v b Hrun Hk).
Qed.

Lemma replaceAll_at_match p r a b :
  p ≠ [] → unbordered p = true →
  replaceAll p r (a ++ p ++ b) = replaceAll p r a ++ r ++ replaceAll p r b.
Proof.
  intros Hp Hub.
  induction a as [|k IH|c s Hs IH] using (scan_ind p Hp).
  - rewrite replaceAll_nil. cbn [app]. by apply replaceAll_match.
  - rewrite <- (assoc_L (++)), !replaceAll_match by done.
    by rewrite IH, <- (assoc_L (++)).
  - simpl. rewrite !replaceAll_skip; [by rewrite IH | done |].
    apply startsWith_false. intros [v Hv].
    change (c :: s ++ p ++ b) with ((c :: s) ++ p ++ b) in Hv.
    apply app_eq_inv in Hv as [(k & Hk & Hk')|(k & Hk & Hk')].
    + apply startsWith_false in Hs. apply Hs. by exists k.
    + destruct k as [|d k].
      * rewrite (right_id_L [] (++)) in Hk.
        apply startsWith_false in Hs. apply Hs. by rewrite Hk.
      * unfold unbordered in Hub. apply negb_true_iff, not_true_iff_false in Hub.
        apply Hub, existsb_exists. exists (d :: k). split.
        -- rewrite Hk. simpl. by apply (suffixes_elem _ s).
        -- by apply (comparable_common _ _ v b).
Qed.

(** *** A field rule followed by the bare rule

    Replacing [x ++ p ++ y] by [x ++ r ++ y] and then [p] by [r] is the
    same as replacing [p] by [r]. *)
Lemma replaceAll_field_then_bare p r x y :
  p ≠ [] → clash_free p r = true → unbordered p = true →
  ∀ s a,
    replaceAll p r (a ++ replaceAll (x ++ p ++ y) (x ++ r ++ y) s)
    = replaceAll p r (a ++ s).
Proof.
  intros Hp Hfree Hub.
  assert (Hxpy : x ++ p ++ y ≠ []).
  { intros [_ [? _]%app_eq_nil]%app_eq_nil. done. }
  intros s.
  induction s as [|k IH|c s Hs IH] using (scan_ind (x ++ p ++ y) Hxpy); intros a.
  - done.
  - rewrite replaceAll_match by done.
    replace (a ++ (x ++ r ++ y) ++ replaceAll (x ++ p ++ y) (x ++ r ++ y) k)
      with ((a ++ x) ++ r ++ (y ++ replaceAll (x ++ p ++ y) (x ++ r ++ y) k))
      by (by rewrite <- !(assoc_L (++))).
    replace (a ++ (x ++ p ++ y) ++ k) with ((a ++ x) ++ p ++ (y ++ k))
      by (by rewrite <- !(assoc_L (++))).
    rewrite replaceAll_around, replaceAll_at_match by done.
    by rewrite IH.
  - rewrite replaceAll_skip by done.
    rewrite (snoc_app a c s), (snoc_app a c (replaceAll _ _ s)).
    apply IH.
Qed.

(** The same below a second bare rule [p' ↦ r'] that is applied first. *)
Lemma replaceAll_field_then_two p r p' r' x y :
  p ≠ [] → p' ≠ [] →
  clash_free p r = true → unbordered p = true →
  clash_free p' r = true → clash_free p' p = true →
  ∀ s a,
    replaceAll p r (replaceAll p' r' (a ++ replaceAll (x ++ p ++ y) (x ++ r ++ y) s))
    = replaceAll p r (replaceAll p' r' (a ++ s)).
Proof.
  intros Hp Hp' Hfree Hub Hfree' Hpp.
  assert (Hxpy : x ++ p ++ y ≠ []).
  { intros [_ [? _]%app_eq_nil]%app_eq_nil. done. }
  intros s.
  induction s as [|k IH|c s Hs IH] using (scan_ind (x ++ p ++ y) Hxpy); intros a.
  - done.
  - rewrite replaceAll_match by done.
    replace (a ++ (x ++ r ++ y) ++ replaceAll (x ++ p ++ y) (x ++ r ++ y) k)
      with ((a ++ x) ++ r ++ (y ++ replaceAll (x ++ p ++ y) (x ++ r ++ y) k))
      by (by rewrite <- !(assoc_L (++))).
    replace (a ++ (x ++ p ++ y) ++ k) with ((a ++ x) ++ p ++ (y ++ k))
      by (by rewrite <- !(assoc_L (++))).
    rewrite !(replaceAll_around p') by done.
    rewrite replaceAll_around, replaceAll_at_match by done.
    by rewrite IH.
  - rewrite replaceAll_skip by done.
    rewrite (snoc_app a c s), (snoc_app a c (replaceAll _ _ s)).
    apply IH.
Qed.
End WordFacts.

(** ** The rewrite rules of the widget loader *)

Section RewriteFacts.
Import JsText Server.
Implicit Types t a b : jsstring.

Lemma ltHost_ne : ltHost ≠ []. Proof. done. Qed.
Lemma wsHost_ne : wsHost ≠ []. Proof. done. Qed.

Lemma rewriteWidgetScript_unfold t :
  rewriteWidgetScript t
  = replaceAll wsHost wsLocal
      (replaceAll ltHost ltLocal
         (replaceAll (cardsField wsHost) (cardsField wsLocal)
            (replaceAll (lmtField ltHost) (lmtField ltLocal) t))).
Proof. reflexivity. Qed.

(** The two field rules change nothing that the two host rules would not:
    the rewrite is the [lt-fn] rule followed by the [ws-fn] rule. *)
Lemma lmtField_shape u :
  lmtField u = (quoted "lmtFishnetFeedsUrl" ++ lit ":" ++ [34%N]) ++ u ++ [34%N].
Proof. unfold lmtField. by rewrite <- !(assoc_L (++)). Qed.

Lemma cardsField_shape u :
  cardsField u = (quoted "cardsFishnetFeedsUrl" ++ lit ":" ++ [34%N]) ++ u ++ [34%N].
Proof. unfold cardsField. by rewrite <- !(assoc_L (++)). Qed.

Lemma rewriteWidgetScript_hosts t :
  rewriteWidgetScript t = replaceAll wsHost wsLocal (replaceAll ltHost ltLocal t).
Proof.
  rewrite rewriteWidgetScript_unfold, !lmtField_shape, !cardsField_shape.
  etrans.
  { exact (replaceAll_field_then_two wsHost wsLocal ltHost ltLocal _ [34%N]
             wsHost_ne ltHost_ne eq_refl eq_refl eq_refl eq_refl _ []). }
  f_equal.
  exact (replaceAll_field_then_bare ltHost ltLocal _ [34%N]
           ltHost_ne eq_refl eq_refl t []).
Qed.

Lemma rewriteWidgetScript_no_lt t : ¬ Occurs ltHost (rewriteWidgetScript t).
Proof.
  rewrite rewriteWidgetScript_hosts.
  apply replaceAll_keeps_absent; [done | done |].
  by apply replaceAll_removes.
Qed.

Lemma rewriteWidgetScript_no_ws t : ¬ Occurs wsHost (rewriteWidgetScript t).
Proof. rewrite rewriteWidgetScript_hosts. by apply replaceAll_removes. Qed.

Lemma rewriteWidgetScript_absent t :
  ¬ Occurs ltHost t → ¬ Occurs wsHost t → rewriteWidgetScript t = t.
Proof.
  intros Hlt Hws. rewrite rewriteWidgetScript_hosts.
  rewrite (replaceAll_absent ltHost) by done.
  by rewrite (replaceAll_absent wsHost).
Qed.

Lemma rewriteWidgetScript_lt a b :
  rewriteWidgetScript (a ++ ltHost ++ b)
  = rewriteWidgetScript a ++ ltLocal ++ rewriteWidgetScript b.
Proof.
  rewrite !rewriteWidgetScript_hosts.
  rewrite replaceAll_at_match by done.
  by rewrite replaceAll_around.
Qed.

Lemma rewriteWidgetScript_ws a b :
  rewriteWidgetScript (a ++ wsHost ++ b)
  = rewriteWidgetScript a ++ wsLocal ++ rewriteWidgetScript b.
Proof.
  rewrite !rewriteWidgetScript_hosts.
  rewrite replaceAll_around by done.
  by rewrite replaceAll_at_match.
Qed.
End RewriteFacts.

(** ** Response headers *)

Section HeaderFacts.
Import Http Server.
Implicit Types h : headers.

Lemma getHeader_setHeader_eq n m v h :
  toLowerCase n = toLowerCase m → getHeader m (setHeader n v h) = Some v.
Proof. intros Hnm. unfold getHeader, setHeader. rewrite Hnm. apply lookup_insert_eq. Qed.

Lemma getHeader_setHeader_ne n m v h :
  toLowerCase n ≠ toLowerCase m → getHeader m (setHeader n v h) = getHeader m h.
Proof. intros Hnm. unfold getHeader, setHeader. by apply lookup_insert_ne. Qed.

Lemma forwardHeader_other rt h kv m :
  toLowerCase (fst kv) ≠ toLowerCase m →
  getHeader m (forwardHeader rt h kv) = getHeader m h.
Proof.
  intros Hne. unfold forwardHeader.
  destruct (snd kv); [done | |];
    (destruct (headerAccepted rt _ _); [by apply getHeader_setHeader_ne | done]).
Qed.

Lemma forwardHeaders_other rt up h m :
  toLowerCase m ∉ map (fun kv => toLowerCase (fst kv)) up →
  getHeader m (forwardHeaders rt up h) = getHeader m h.
Proof.
  revert h. induction up as [|kv up IH]; intros h Hm; [done|].
  unfold forwardHeaders in *. simpl in *.
  apply not_elem_of_cons in Hm as [Hne Hm].
  rewrite IH by done. apply forwardHeader_other. congruence.
Qed.

Lemma forwardHeader_this rt h k v :
  v ≠ HUndefined → headerAccepted rt k v = true →
  getHeader k (forwardHeader rt h (k, v)) = Some v.
Proof.
  intros Hv Hok. unfold forwardHeader. simpl.
  destruct v; [done | |]; rewrite Hok; by apply getHeader_setHeader_eq.
Qed.

Lemma forwardHeaders_lookup rt up h k v :
  NoDup (map (fun kv => toLowerCase (fst kv)) up) →
  (k, v) ∈ up → v ≠ HUndefined → headerAccepted rt k v = true →
  getHeader k (forwardHeaders rt up h) = Some v.
Proof.
  revert h. induction up as [|kv up IH]; intros h Hnd Hin Hv Hok.
  - by apply elem_of_nil in Hin.
  - simpl in Hnd. apply NoDup_cons in Hnd as [Hfresh Hnd].
    unfold forwardHeaders in *. simpl.
    apply elem_of_cons in Hin as [<-|Hin].
    + fold (forwardHeaders rt up (forwardHeader rt h (k, v))).
      rewrite forwardHeaders_other by done.
      by apply forwardHeader_this.
    + by apply IH.
Qed.

Lemma cors_no_content_encoding :
  getHeader "content-encoding" (setCorsHeaders ∅) = None.
Proof. reflexivity. Qed.
End HeaderFacts.

(** ** The dual-mode pipeline of [proxyRequest] *)

Section PipelineProperties.
Import JsText Http Server.

Lemma proxyRequest_response rt e network targetUrl req rewrite proxyRes :
  network (clientRequest targetUrl req) = UpstreamResponse proxyRes →
  snd (proxyRequest rt e network targetUrl req rewrite) = onResponse rt rewrite proxyRes.
Proof. intros Hnet. unfold proxyRequest. by rewrite Hnet. Qed.

Lemma onResponse_transform_headers rt proxyRes m :
  toLowerCase m ≠ "content-type" → toLowerCase m ≠ "cache-control" →
  toLowerCase m ≠ "content-length" →
  getHeader m (res_headers (onResponse rt true proxyRes)) = getHeader m (setCorsHeaders ∅).
Proof.
  intros Hct Hcc Hcl. unfold onResponse. cbn [negb res_headers].
  rewrite getHeader_setHeader_ne by done.
  destruct (prop "cache-control" (msg_headers proxyRes)) as [cc|];
    [destruct (truthy (Some cc))|];
    rewrite ?(getHeader_setHeader_ne "Cache-Control") by done;
    by rewrite getHeader_setHeader_ne.
Qed.

Lemma onResponse_transform_body rt proxyRes :
  res_body (onResponse rt true proxyRes)
  = utf8_encode (rewriteWidgetScript (bufferToString rt
      (decompress rt (prop "content-encoding" (msg_headers proxyRes))
         (concat (msg_chunks proxyRes))))).
Proof.
  unfold onResponse, res_body. cbn [negb res_chunks concat].
  by rewrite (right_id_L [] (++)).
Qed.

Lemma onResponse_transform_length rt proxyRes :
  getHeader "content-length" (res_headers (onResponse rt true proxyRes))
  = Some (HStr (pretty (length (res_body (onResponse rt true proxyRes))))).
Proof.
  unfold onResponse, res_body. cbn [negb res_headers res_chunks concat].
  rewrite (right_id_L [] (++)). by apply getHeader_setHeader_eq.
Qed.

(** C2. In transform mode the response carries no [content-encoding]
    header, whether the upstream answered or not; when it answered, the
    [content-length] header is the decimal byte length of the body sent,
    which is the UTF-8 encoding of the rewritten text. *)
Theorem transform_headers rt e network targetUrl req :
  let r := snd (proxyRequest rt e network targetUrl req true) in
  getHeader "content-encoding" (res_headers r) = None
  ∧ ∀ proxyRes,
      network (clientRequest targetUrl req) = UpstreamResponse proxyRes →
      getHeader "content-length" (res_headers r) = Some (HStr (pretty (length (res_body r))))
      ∧ res_body r
        = utf8_encode (rewriteWidgetScript (bufferToString rt
            (decompress rt (prop "content-encoding" (msg_headers proxyRes))
               (concat (msg_chunks proxyRes))))).
Proof.
  intros r. subst r. unfold proxyRequest.
  destruct (network (clientRequest targetUrl req)) as [message|proxyRes'] eqn:Hnet;
    cbn [snd].
  - split; [apply cors_no_content_encoding | intros proxyRes [=]].
  - split.
    + by rewrite onResponse_transform_headers.
    + intros proxyRes [= <-]. split.
      * apply onResponse_transform_length.
      * apply onResponse_transform_body.
Qed.

Lemma transform_headers_witness :
  let r := snd (proxyRequest Fixture.runtime Fixture.env
                  (fun _ => UpstreamResponse Fixture.mislabelled)
                  "https://widgets.sir-sportradar.com/w/widgetloader"
                  (Fixture.get "/proxy/sportradar/match.lmtPlus") true) in
  getHeader "content-encoding" (res_headers r) = None
  ∧ getHeader "content-length" (res_headers r) = Some (HStr "40")
  ∧ length (res_body r) = 40.
Proof.
  intros r.
  destruct (transform_headers Fixture.runtime Fixture.env
              (fun _ => UpstreamResponse Fixture.mislabelled)
              "https://widgets.sir-sportradar.com/w/widgetloader"
              (Fixture.get "/proxy/sportradar/match.lmtPlus")) as [Henc Hlen].
  destruct (Hlen Fixture.mislabelled eq_refl) as [Hcl Hbody].
  fold r in Henc, Hcl, Hbody.
  split; [exact Henc|]. split; [|rewrite Hbody; reflexivity].
  rewrite Hcl, Hbody. reflexivity.
Defined.

(** C3. In stream mode the status and the body chunks are the upstream's,
    every upstream header that is defined and that the response accepts is
    forwarded with its upstream value, also where its name is one of the
    fixed security/CORS headers, and a fixed header is kept where no
    upstream header has its name.  The upstream headers are the properties
    of one object: no two of them share a name. *)
Theorem stream_forwards rt e network targetUrl req proxyRes :
  network (clientRequest targetUrl req) = UpstreamResponse proxyRes →
  NoDup (map (fun kv => toLowerCase (fst kv)) (msg_headers proxyRes)) →
  let r := snd (proxyRequest rt e network targetUrl req false) in
  res_status r = statusCode proxyRes
  ∧ res_chunks r = msg_chunks proxyRes
  ∧ res_body r = concat (msg_chunks proxyRes)
  ∧ (∀ k v, (k, v) ∈ msg_headers proxyRes → v ≠ HUndefined →
            headerAccepted rt k v = true →
            getHeader k (res_headers r) = Some v)
  ∧ (∀ k, toLowerCase k ∉ map (fun kv => toLowerCase (fst kv)) (msg_headers proxyRes) →
          getHeader k (res_headers r) = getHeader k (setCorsHeaders ∅)).
Proof.
  intros Hnet Hnd r. subst r. rewrite (proxyRequest_response _ _ _ _ _ _ _ Hnet).
  unfold onResponse, res_body. cbn [negb res_status res_chunks res_headers].
  repeat split.
  - intros k v Hin Hv Hok. by apply forwardHeaders_lookup.
  - intros k Hk. by apply forwardHeaders_other.
Qed.

Lemma stream_forwards_witness :
  let r := snd (proxyRequest Fixture.runtime Fixture.env
                  (fun _ => UpstreamResponse Fixture.mislabelled)
                  "https://widgets.sir-sportradar.com/assets/js/a.js"
                  (Fixture.get "/assets/js/a.js") false) in
  res_body r = concat (msg_chunks Fixture.mislabelled)
  ∧ getHeader "content-length" (res_headers r) = Some (HStr "41")
  ∧ getHeader "content-encoding" (res_headers r) = Some (HStr "gzip")
  ∧ getHeader "cache-control" (res_headers r) = Some (HStr "max-age=60")
  ∧ getHeader "Access-Control-Allow-Origin" (res_headers r)
    = Some (HStr "https://widgets.example")
  ∧ getHeader "X-Frame-Options" (res_headers r) = Some (HStr "SAMEORIGIN").
Proof.
  intros r.
  destruct (stream_forwards Fixture.runtime Fixture.env
              (fun _ => UpstreamResponse Fixture.mislabelled)
              "https://widgets.sir-sportradar.com/assets/js/a.js"
              (Fixture.get "/assets/js/a.js") Fixture.mislabelled eq_refl)
    as (_ & _ & Hbody & Hup & Hcors).
  { apply (bool_decide_unpack _). vm_compute. exact I. }
  fold r in Hbody, Hup, Hcors.
  split; [exact Hbody|].
  split; [apply Hup; [apply (bool_decide_unpack _); vm_compute; exact I | done | done]|].
  split; [apply Hup; [apply (bool_decide_unpack _); vm_compute; exact I | done | done]|].
  split; [apply Hup; [apply (bool_decide_unpack _); vm_compute; exact I | done | done]|].
  split.
  - change (getHeader "Access-Control-Allow-Origin" (res_headers r))
      with (getHeader "access-control-allow-origin" (res_headers r)).
    apply Hup; [apply (bool_decide_unpack _); vm_compute; exact I | done | done].
  - rewrite Hcors; [reflexivity|].
    apply (bool_decide_unpack _). vm_compute. exact I.
Defined.

(** C7. In transform mode, when the upstream body is labelled gzip,
    Brotli or deflate and the decompressor throws, the request is still
    answered with the upstream status (not with the error response), and
    the body sent is the rewrite of the raw upstream bytes. *)
Theorem decompression_fallback rt e network targetUrl req proxyRes :
  network (clientRequest targetUrl req) = UpstreamResponse proxyRes →
  let data := concat (msg_chunks proxyRes) in
  let contentEncoding := prop "content-encoding" (msg_headers proxyRes) in
  (contentEncoding = Some (HStr "gzip") ∧ gunzipSync rt data = None)
  ∨ (contentEncoding = Some (HStr "br") ∧ brotliDecompressSync rt data = None)
  ∨ (contentEncoding = Some (HStr "deflate") ∧ inflateSync rt data = None) →
  let r := snd (proxyRequest rt e network targetUrl req true) in
  res_status r = statusCode proxyRes
  ∧ res_body r = utf8_encode (rewriteWidgetScript (bufferToString rt data))
  ∧ getHeader "content-length" (res_headers r) = Some (HStr (pretty (length (res_body r))))
  ∧ getHeader "content-encoding" (res_headers r) = None.
Proof.
  intros Hnet data contentEncoding Hfail r.
  subst r. rewrite (proxyRequest_response _ _ _ _ _ _ _ Hnet).
  assert (decompress rt contentEncoding data = data) as Hraw.
  { unfold decompress, tryDecompress.
    destruct Hfail as [[-> ->]|[[-> ->]|[-> ->]]]; by repeat case_decide. }
  split; [done|]. split; [|split].
  - rewrite onResponse_transform_body. fold data contentEncoding. by rewrite Hraw.
  - apply onResponse_transform_length.
  - by rewrite onResponse_transform_headers.
Qed.

Lemma decompression_fallback_witness :
  let r := snd (proxyRequest Fixture.runtime Fixture.env
                  (fun _ => UpstreamResponse Fixture.mislabelled)
                  "https://widgets.sir-sportradar.com/w/widgetloader"
                  (Fixture.get "/proxy/sportradar/match.lmtPlus") true) in
  res_status r = 200%Z
  ∧ res_body r
    = utf8_encode (rewriteWidgetScript (bufferToString Fixture.runtime
                     (concat (msg_chunks Fixture.mislabelled))))
  ∧ getHeader "content-length" (res_headers r) = Some (HStr (pretty (length (res_body r))))
  ∧ getHeader "content-encoding" (res_headers r) = None.
Proof.
  apply (decompression_fallback Fixture.runtime Fixture.env
           (fun _ => UpstreamResponse Fixture.mislabelled)
           "https://widgets.sir-sportradar.com/w/widgetloader"
           (Fixture.get "/proxy/sportradar/match.lmtPlus") Fixture.mislabelled eq_refl).
  left. split; reflexivity.
Defined.

(** C4. The rewrite is idempotent: applying the ordered rule set to a text
    already rewritten changes nothing. *)
Theorem rewrite_idempotent (text : jsstring) :
  applyRules rewriteRules (applyRules rewriteRules text) = applyRules rewriteRules text.
Proof.
  change (applyRules rewriteRules) with rewriteWidgetScript.
  apply rewriteWidgetScript_absent;
    [apply rewriteWidgetScript_no_lt | apply rewriteWidgetScript_no_ws].
Qed.

(** C10. The body sent in transform mode is the same for every process
    environment (so for every [PORT]), target URL and inbound request: it
    is a function of the upstream answer alone.  The rewrite replaces each
    occurrence of either feed host by the constant under
    [http://localhost:3001], leaves no occurrence behind, and rewrites the
    text around an occurrence independently of it. *)
Theorem rewrite_targets_fixed rt (e e' : ProcessEnv) (targetUrl targetUrl' : string)
    (req req' : IncomingRequest) (proxyRes : IncomingMessage) (a b : jsstring) :
  res_body (snd (proxyRequest rt e (fun _ => UpstreamResponse proxyRes) targetUrl req true))
  = res_body (snd (proxyRequest rt e' (fun _ => UpstreamResponse proxyRes) targetUrl' req' true))
  ∧ rewriteWidgetScript (a ++ lit "https://lt-fn.sir-sportradar.com" ++ b)
    = rewriteWidgetScript a ++ lit "http://localhost:3001/api/lt-fn" ++ rewriteWidgetScript b
  ∧ rewriteWidgetScript (a ++ lit "https://ws-fn.sir-sportradar.com" ++ b)
    = rewriteWidgetScript a ++ lit "http://localhost:3001/api/ws-fn" ++ rewriteWidgetScript b
  ∧ ¬ Occurs (lit "https://lt-fn.sir-sportradar.com") (rewriteWidgetScript a)
  ∧ ¬ Occurs (lit "https://ws-fn.sir-sportradar.com") (rewriteWidgetScript a).
Proof.
  split; [reflexivity|].
  split; [apply rewriteWidgetScript_lt|].
  split; [apply rewriteWidgetScript_ws|].
  split; [apply rewriteWidgetScript_no_lt | apply rewriteWidgetScript_no_ws].
Qed.
End PipelineProperties.

(** ** Route dispatch of the dependency-free server *)

Section DispatchProperties.
Import JsText Http Server.

Lemma str_startsWith_comparable a b p :
  str_startsWith a p = true → str_startsWith b p = true →
  comparable (String.list_ascii_of_string a) (String.list_ascii_of_string b) = true.
Proof.
  unfold str_startsWith. rewrite !startsWith_prefix. intros [u Hu] [v Hv].
  apply (comparable_common _ _ u v). congruence.
Qed.

(** Two literal prefixes that are not comparable cannot both start [p]. *)
Local Ltac clash H1 H2 :=
  let H := fresh in
  pose proof (str_startsWith_comparable _ _ _ H1 H2) as H;
  vm_compute in H; discriminate H.

Local Ltac other_route :=
  split; [intros [? ?]; done | intros (_ & ? & _); done].

(** C9, as the code has it.  The branch that builds its target from
    [SPORTRADAR_BASE] is reachable: a request is dispatched to it exactly
    when its method is not [OPTIONS] and its path starts with
    [/proxy/sportradar/] but not with [/proxy/sportradar/match.]. *)
Theorem proxy_asset_branch_reached_iff rt req :
  (∃ assetPath, dispatch rt req = RProxyAsset assetPath)
  ↔ String.eqb (req_method req) "OPTIONS" = false
    ∧ str_startsWith "/proxy/sportradar/" (req_pathname req) = true
    ∧ str_startsWith "/proxy/sportradar/match." (req_pathname req) = false.
Proof.
  unfold dispatch, steps, firstMatch.
  unfold step_preflight, step_health, step_demo, step_theme, step_preview, step_api,
    step_widget, step_licensing, step_translations, step_feed, step_proxy_asset,
    step_direct_asset.
  destruct req as [m p sr mid ua]. cbn [req_method req_pathname].
  destruct (String.eqb m "OPTIONS") eqn:Hm.
  { split; [intros [? ?]; done | intros (? & _); done]. }
  destruct (String.eqb p "/health") eqn:H1.
  { apply String.eqb_eq in H1 as ->. other_route. }
  destruct (String.eqb p "/" || String.eqb p "/demo") eqn:H2.
  { apply orb_true_iff in H2 as [->%String.eqb_eq| ->%String.eqb_eq];
      (destruct (readFileSync rt DemoHtml); cbn; other_route). }
  cbn [fmap option_fmap option_map].
  destruct (String.eqb p "/loader/theme.css") eqn:H3.
  { apply String.eqb_eq in H3 as ->.
    destruct (readFileSync rt _); cbn; other_route. }
  destruct (String.eqb p "/loader/preview.html" || String.eqb p "/loader/preview") eqn:H4.
  { apply orb_true_iff in H4 as [->%String.eqb_eq| ->%String.eqb_eq];
      (destruct (readFileSync rt _); cbn; other_route). }
  destruct (String.eqb p "/api") eqn:H5.
  { apply String.eqb_eq in H5 as ->. other_route. }
  destruct (str_startsWith "/proxy/sportradar/match." p) eqn:H6.
  { split; [intros [? ?]; done | intros (_ & _ & ?); done]. }
  destruct (String.eqb p ("/" +:+ config_widgetId +:+ "/licensing")) eqn:H7.
  { apply String.eqb_eq in H7 as ->. other_route. }
  destruct (str_startsWith "/translations/" p) eqn:H8.
  { split; [intros [? ?]; done | intros (_ & H & _); clash H H8]. }
  destruct (str_startsWith "/api/ws-fn/" p) eqn:H9.
  { split; [intros [? ?]; done | intros (_ & H & _); clash H H9]. }
  destruct (str_startsWith "/api/lt-fn/" p) eqn:H10.
  { split; [intros [? ?]; done | intros (_ & H & _); clash H H10]. }
  cbn [orb].
  destruct (str_startsWith "/proxy/sportradar/" p) eqn:H11.
  { split.
    - intros _. split; [reflexivity|]. split; reflexivity.
    - intros _. eexists. reflexivity. }
  split; [|intros (_ & ? & _); done].
  intros [q Hq].
  by destruct (str_startsWith "/assets/" p || str_startsWith "/js/" p
               || str_startsWith "/css/" p).
Qed.

Lemma proxy_asset_branch_reached_iff_witness :
  ∃ assetPath,
    dispatch Fixture.runtime (Fixture.get "/proxy/sportradar/js/chunk.123.js")
    = RProxyAsset assetPath.
Proof.
  apply (proj2 (proxy_asset_branch_reached_iff Fixture.runtime
                  (Fixture.get "/proxy/sportradar/js/chunk.123.js"))).
  split; [reflexivity|]. split; reflexivity.
Defined.

(** C9, as stated, fails: the asset path that the [/api] endpoint itself
    advertises is dispatched to the branch, and the handler throws. *)
Lemma proxy_asset_branch_reached :
  dispatch Fixture.runtime (Fixture.get "/proxy/sportradar/assets/js/chunk.123.js")
  = RProxyAsset "/assets/js/chunk.123.js"
  ∧ handleRequest Fixture.runtime Fixture.env (fun _ => UpstreamError "unreachable")
      (Fixture.get "/proxy/sportradar/assets/js/chunk.123.js")
    = Thrown "ReferenceError: SPORTRADAR_BASE is not defined".
Proof. split; reflexivity. Qed.
End DispatchProperties.

(** ** JSON text is a prefix code *)

Section JsonFacts.
Import JsText Json.
Implicit Types (s : list ascii) (j : json).

Lemma unescape_escape c r : unescape (escape c ++ r) = Some (c, r).
Proof. destruct c as [[] [] [] [] [] [] [] []]; reflexivity. Qed.

Lemma unescape_dquote r : unescape (dquote :: r) = None.
Proof. reflexivity. Qed.

Lemma escaped_inj s1 : ∀ s2 r1 r2,
  concat (map escape s1) ++ dquote :: r1 = concat (map escape s2) ++ dquote :: r2 →
  s1 = s2 ∧ r1 = r2.
Proof.
  induction s1 as [|c1 s1 IH]; intros [|c2 s2] r1 r2; cbn [map concat app].
  - by intros [= ->].
  - rewrite <- (assoc_L (++)). intros Heq%(f_equal unescape).
    by rewrite unescape_dquote, unescape_escape in Heq.
  - rewrite <- (assoc_L (++)). intros Heq%(f_equal unescape).
    by rewrite unescape_dquote, unescape_escape in Heq.
  - rewrite <- !(assoc_L (++)). intros Heq%(f_equal unescape).
    rewrite !unescape_escape in Heq. injection Heq as -> Heq.
    by destruct (IH _ _ _ Heq) as [-> ->].
Qed.

Lemma quote_chars_inj s1 s2 r1 r2 :
  quote_chars s1 ++ r1 = quote_chars s2 ++ r2 → s1 = s2 ∧ r1 = r2.
Proof.
  unfold quote_chars. cbn [app]. rewrite <- !(assoc_L (++)). cbn [app].
  intros [= Heq]. by apply escaped_inj.
Qed.

Lemma chars_inj (a b : string) :
  String.list_ascii_of_string a = String.list_ascii_of_string b → a = b.
Proof.
  intros Heq%(f_equal String.string_of_list_ascii).
  by rewrite !String.string_of_list_ascii_of_string in Heq.
Qed.

(** Induction on JSON values, with the hypothesis for every member. *)
Lemma json_nested_ind (P : json → Prop) :
  (∀ str : string, P (JStr str)) →
  (∀ items, Forall P items → P (JArr items)) →
  (∀ fields, Forall (fun kv => P (snd kv)) fields → P (JObj fields)) →
  ∀ j, P j.
Proof.
  intros Hstr Harr Hobj.
  fix IH 1. intros [s|items|fields].
  - apply Hstr.
  - apply Harr. induction items as [|j items IHitems]; constructor; [apply IH | apply IHitems].
  - apply Hobj. induction fields as [|[k j] fields IHfields]; constructor;
      [apply IH | apply IHfields].
Qed.

Lemma join_comma_cons (x : list ascii) l t :
  join_comma (x :: l) ++ t
  = x ++ match l with [] => t | _ :: _ => ","%char :: join_comma l ++ t end.
Proof. destruct l; [done|]. cbn [join_comma]. by rewrite <- (assoc_L (++)). Qed.

(** A comma-separated sequence closed by [close] determines its members
    when each member determines itself and none starts with [close]. *)
Lemma members_inj {X} (f : X → list ascii) (close : ascii) (l1 : list X) :
  close ≠ ","%char →
  (∀ x t, ∃ c t', f x ++ t = c :: t' ∧ c ≠ close) →
  Forall (fun x => ∀ y r1 r2, f x ++ r1 = f y ++ r2 → x = y ∧ r1 = r2) l1 →
  ∀ l2 r1 r2,
    join_comma (map f l1) ++ close :: r1 = join_comma (map f l2) ++ close :: r2 →
    l1 = l2 ∧ r1 = r2.
Proof.
  intros Hclose Hhead Hall. induction Hall as [|x1 l1 Hx1 Hall IH]; intros [|x2 l2] r1 r2.
  - by intros [= ->].
  - cbn [map]. rewrite join_comma_cons. cbn [join_comma app].
    destruct (Hhead x2 (match map f l2 with [] => close :: r2
                        | _ :: _ => ","%char :: join_comma (map f l2) ++ close :: r2 end))
      as (c & t' & -> & Hc). by intros [= <-].
  - cbn [map]. rewrite join_comma_cons. cbn [join_comma app].
    destruct (Hhead x1 (match map f l1 with [] => close :: r1
                        | _ :: _ => ","%char :: join_comma (map f l1) ++ close :: r1 end))
      as (c & t' & -> & Hc). by intros [= ->].
  - cbn [map]. rewrite !join_comma_cons. intros [-> Htail]%Hx1.
    destruct l1 as [|y1 l1], l2 as [|y2 l2]; cbn [map] in Htail.
    + by injection Htail as ->.
    + injection Htail as Hc. done.
    + injection Htail as Hc. done.
    + injection Htail as Htail. by destruct (IH (y2 :: l2) r1 r2 Htail) as [-> ->].
Qed.

Lemma serialize_head j t :
  ∃ c t', serialize j ++ t = c :: t' ∧ c ≠ "]"%char ∧ c ≠ "}"%char.
Proof. destruct j; cbn; eexists _, _; (split; [reflexivity | done]). Qed.

Lemma serialize_arr items r :
  serialize (JArr items) ++ r = "["%char :: join_comma (map serialize items) ++ "]"%char :: r.
Proof. cbn [serialize app]. by rewrite <- (assoc_L (++)). Qed.

Lemma serialize_obj fields r :
  serialize (JObj fields) ++ r = "{"%char :: join_comma (map member fields) ++ "}"%char :: r.
Proof. cbn [serialize app]. by rewrite <- (assoc_L (++)). Qed.

Lemma serialize_str str r :
  serialize (JStr str) ++ r = quote_chars (String.list_ascii_of_string str) ++ r.
Proof. done. Qed.

Lemma member_inj k1 v1 :
  (∀ j2 r1 r2, serialize v1 ++ r1 = serialize j2 ++ r2 → v1 = j2 ∧ r1 = r2) →
  ∀ kv2 r1 r2, member (k1, v1) ++ r1 = member kv2 ++ r2 → (k1, v1) = kv2 ∧ r1 = r2.
Proof.
  intros Hv [k2 v2] r1 r2. unfold member. cbn [fst snd].
  rewrite <- !(assoc_L (++)).
  intros [->%chars_inj Hrest]%quote_chars_inj.
  injection Hrest as Hrest. by destruct (Hv _ _ _ Hrest) as [-> ->].
Qed.

(** [serialize] is a prefix code: a value is determined by any text that
    starts with its serialisation, and so is the rest of the text. *)
Lemma serialize_inj_app j1 : ∀ j2 r1 r2,
  serialize j1 ++ r1 = serialize j2 ++ r2 → j1 = j2 ∧ r1 = r2.
Proof.
  induction j1 as [s1|items1 IH|fields1 IH] using json_nested_ind; intros j2 r1 r2.
  - destruct j2 as [s2|items2|fields2];
      rewrite ?serialize_str, ?serialize_arr, ?serialize_obj; [|by intros [=]..].
    by intros [->%chars_inj ->]%quote_chars_inj.
  - destruct j2 as [s2|items2|fields2];
      rewrite ?serialize_str, ?serialize_arr, ?serialize_obj;
      [by intros [=] | |by intros [=]].
    intros [= Heq].
    apply (members_inj serialize "]") in Heq as [-> ->]; [done | done | | done].
    intros x t. destruct (serialize_head x t) as (c & t' & ? & ? & _). by exists c, t'.
  - destruct j2 as [s2|items2|fields2];
      rewrite ?serialize_str, ?serialize_arr, ?serialize_obj; [by intros [=].. |].
    intros [= Heq].
    apply (members_inj member "}") in Heq as [-> ->]; [done | done | |].
    + intros [k v] t. cbn. eexists _, _. split; [reflexivity | done].
    + eapply Forall_impl; [exact IH|]. intros [k1 v1] Hv. by apply member_inj.
Qed.

Lemma stringify_inj j1 j2 : stringify j1 = stringify j2 → j1 = j2.
Proof.
  unfold stringify. intros Heq%(f_equal String.list_ascii_of_string).
  rewrite !String.list_ascii_of_string_of_list_ascii in Heq.
  destruct (serialize_inj_app j1 j2 [] []) as [-> _]; [|done].
  by rewrite !(right_id_L [] (++)).
Qed.
End JsonFacts.

(** ** The Cache Store *)

Section CacheFacts.
Context {V : Type}.
Implicit Types m : gmap string (CacheStore.Entry V).

Lemma get_set_same maxKeys now key (v : V) ttl m :
  CacheStore.set maxKeys now key v ttl m !! key
  = Some {| CacheStore.entry_value := v; CacheStore.entry_inserted := now;
            CacheStore.entry_ttl := ttl |}.
Proof. unfold CacheStore.set. apply lookup_insert_eq. Qed.

Lemma get_live now key m e :
  m !! key = Some e → CacheStore.expired now e = false →
  CacheStore.get now key m = Some (CacheStore.entry_value e).
Proof. intros Hm He. unfold CacheStore.get. by rewrite Hm, He. Qed.

Lemma get_expired now key m e :
  m !! key = Some e → CacheStore.expired now e = true →
  CacheStore.get now key m = None.
Proof. intros Hm He. unfold CacheStore.get. by rewrite Hm, He. Qed.

(** An entry is live exactly up to its TTL after its insertion. *)
Lemma expired_iff now (e : CacheStore.Entry V) :
  CacheStore.expired now e = true
  ↔ (CacheStore.entry_inserted e + 1000 * CacheStore.entry_ttl e < now)%Z.
Proof. unfold CacheStore.expired. rewrite Z.ltb_lt. lia. Qed.
End CacheFacts.

(** ** The cache-backed service *)

Section ServiceProperties.
Import JsText Json ProxyService ProxyRouter.
Implicit Types (cfg : Config) (network : Network) (st : State).

(** *** Unknown providers and widget types *)

Lemma proxyWidget_unknown_provider cfg network now provider widgetType query rh st :
  prop provider (providers cfg) = None →
  proxyWidget cfg network now provider widgetType query rh st
  = (Threw (Error ("Provider '" +:+ provider +:+ "' not found")), st).
Proof. intros Hp. unfold proxyWidget. by rewrite Hp. Qed.

Lemma proxyWidget_unknown_widget cfg network now provider pc widgetType query rh st :
  prop provider (providers cfg) = Some pc →
  prop widgetType (widgetTypes pc) = None →
  proxyWidget cfg network now provider widgetType query rh st
  = (Threw (Error ("Widget type '" +:+ widgetType +:+ "' not found for provider '"
                     +:+ provider +:+ "'")), st).
Proof. intros Hp Hw. unfold proxyWidget. by rewrite Hp, Hw. Qed.

(** Whatever is missing, the handler answers 500 with the generic error
    body and leaves the state (cache and upstream log) as it was. *)
Lemma widgetHandler_unknown cfg network now provider widgetType query rh st :
  prop provider (providers cfg) = None
  ∨ (∃ pc, prop provider (providers cfg) = Some pc ∧ prop widgetType (widgetTypes pc) = None) →
  ∃ msg,
    widgetHandler cfg network now provider widgetType query rh st
    = ({| reply_status := 500; reply_headers := []; reply_type := None;
          reply_body :=
            JsonBody (JObj [ ("error", JStr "Proxy Error"); ("message", JStr msg);
                             ("provider", JStr provider);
                             ("widgetType", JStr widgetType) ]) |}, st).
Proof.
  intros [Hp|(pc & Hp & Hw)]; eexists; unfold widgetHandler.
  - by rewrite proxyWidget_unknown_provider.
  - by erewrite proxyWidget_unknown_widget.
Qed.

(** C1, at a failing input.  With the default configuration, a widget
    request for the provider [acme] is answered 500, not 404; the body
    names no configured provider; no upstream request is made.  The
    provider information endpoint answers the same provider name with 404
    and the list of configured providers. *)
Theorem unknown_provider_is_500 network now st :
  widgetHandler defaultConfig network now "acme" "match.lmtPlus" Fixture.matchQuery
    Fixture.noHeaders st
  = ({| reply_status := 500; reply_headers := []; reply_type := None;
        reply_body :=
          JsonBody (JObj [ ("error", JStr "Proxy Error");
                           ("message", JStr "Provider 'acme' not found");
                           ("provider", JStr "acme");
                           ("widgetType", JStr "match.lmtPlus") ]) |}, st)
  ∧ reply_status (providerInfo defaultConfig "acme") = 404%Z
  ∧ reply_body (providerInfo defaultConfig "acme")
    = JsonBody (JObj [ ("error", JStr "Provider Not Found");
                       ("message", JStr "Provider 'acme' is not configured");
                       ("availableProviders", JArr [JStr "sportradar"]) ]).
Proof. repeat split. Qed.

(** The service's header builder keeps the upstream [content-encoding]:
    the cache-backed path rewrites nothing and is not the transform mode of
    the dependency-free server. *)
Lemma buildResponseHeaders_keeps_encoding originalHeaders resourceType enc :
  prop "content-encoding" originalHeaders = Some enc → enc ≠ "" →
  prop "Content-Encoding" (buildResponseHeaders originalHeaders resourceType) = Some enc.
Proof.
  intros Henc Hne. unfold buildResponseHeaders. rewrite Henc. cbn [truthyString orString].
  apply String.eqb_neq in Hne. rewrite Hne. cbn [negb].
  destruct (truthyString (prop "content-type" originalHeaders));
    destruct (truthyString (prop "cache-control" originalHeaders)); reflexivity.
Qed.

(** *** Hits, misses and expiry *)

Lemma cacheSet_fetched cfg now key result ttl st :
  fetched (cacheSet cfg now key result ttl st) = fetched st.
Proof. done. Qed.

Lemma proxyWidget_miss_fetches cfg network now provider widgetType query rh st pc wc :
  prop provider (providers cfg) = Some pc →
  prop widgetType (widgetTypes pc) = Some wc →
  CacheStore.get now (widgetCacheKey provider widgetType query) (cache st) = None →
  length (fetched (snd (proxyWidget cfg network now provider widgetType query rh st)))
  = S (length (fetched st)).
Proof.
  intros Hp Hw Hmiss. unfold proxyWidget. rewrite Hp, Hw, Hmiss.
  destruct (httpClient_get _); cbn; rewrite length_app; cbn; lia.
Qed.

(** C5. Starting without a live entry for the key, a widget request that
    returns a result makes exactly one upstream request and stores the
    result; an identical request while the stored entry is within its TTL
    returns the stored result, makes no upstream request and leaves the
    state as it is; an identical request once the entry has expired makes
    a second upstream request. *)
Theorem cache_hit_then_refetch cfg network provider widgetType query rh1 t1 st0 r1 st1 :
  CacheStore.get t1 (widgetCacheKey provider widgetType query) (cache st0) = None →
  proxyWidget cfg network t1 provider widgetType query rh1 st0 = (Returned r1, st1) →
  ∃ e,
    cache st1 !! widgetCacheKey provider widgetType query = Some e
    ∧ CacheStore.entry_value e = r1
    ∧ length (fetched st1) = S (length (fetched st0))
    ∧ (∀ t2 rh2, CacheStore.expired t2 e = false →
         proxyWidget cfg network t2 provider widgetType query rh2 st1 = (Returned r1, st1))
    ∧ (∀ t3 rh3, CacheStore.expired t3 e = true →
         length (fetched (snd (proxyWidget cfg network t3 provider widgetType query rh3 st1)))
         = S (S (length (fetched st0)))).
Proof.
  intros Hcold Hfirst. unfold proxyWidget in Hfirst.
  destruct (prop provider (providers cfg)) as [pc|] eqn:Hp; [|done].
  destruct (prop widgetType (widgetTypes pc)) as [wc|] eqn:Hw; [|done].
  rewrite Hcold in Hfirst.
  destruct (httpClient_get _) as [response|err] eqn:Hget in Hfirst; [|done].
  injection Hfirst as <- <-.
  eexists. split; [apply get_set_same|].
  split; [done|].
  split; [cbn; rewrite length_app; cbn; lia|].
  split.
  - intros t2 rh2 Hlive. unfold proxyWidget. rewrite Hp, Hw.
    by erewrite get_live; [| apply get_set_same | done].
  - intros t3 rh3 Hexp.
    erewrite (proxyWidget_miss_fetches _ _ _ _ _ _ _ _ pc wc Hp Hw).
    + cbn. rewrite length_app; cbn; lia.
    + by erewrite get_expired; [| apply get_set_same | done].
Qed.

Lemma cache_hit_then_refetch_witness :
  ∃ e,
    cache (snd (proxyWidget defaultConfig Fixture.upstream_ok 1000 "sportradar"
                  "match.lmtPlus" Fixture.matchQuery Fixture.noHeaders Fixture.cold))
      !! widgetCacheKey "sportradar" "match.lmtPlus" Fixture.matchQuery = Some e
    ∧ CacheStore.entry_inserted e = 1040%Z
    ∧ CacheStore.entry_ttl e = 300%Z
    ∧ CacheStore.expired 301040 e = false
    ∧ CacheStore.expired 301041 e = true.
Proof.
  destruct (cache_hit_then_refetch defaultConfig Fixture.upstream_ok "sportradar"
              "match.lmtPlus" Fixture.matchQuery Fixture.noHeaders 1000 Fixture.cold
              _ _ eq_refl eq_refl) as (e & He & _).
  exists e. split; [exact He|].
  vm_compute in He. injection He as <-. repeat split.
Defined.

(** *** Failed fetches *)

Lemma httpClient_get_inl r response :
  httpClient_get r = inl response →
  r = NetAnswer response ∧ validateStatus (response_status response) = true.
Proof.
  destruct r as [msg|response']; cbn; [done|].
  destruct (validateStatus (response_status response')) eqn:Hv; [|done].
  intros [= ->]. done.
Qed.

Lemma proxyWidget_completes cfg network now provider widgetType query rh st :
  Completes network now (widgetCacheKey provider widgetType query) st
    (fst (proxyWidget cfg network now provider widgetType query rh st))
    (snd (proxyWidget cfg network now provider widgetType query rh st)).
Proof.
  unfold proxyWidget.
  destruct (prop provider (providers cfg)) as [pc|]; [|apply Rejected].
  destruct (prop widgetType (widgetTypes pc)) as [wc|]; [|apply Rejected].
  destruct (CacheStore.get now _ (cache st)) as [cached|] eqn:Hget; [by apply Hit|].
  destruct (httpClient_get _) as [response|err] eqn:Hfetch; cbn [fst snd].
  - by eapply Fetched.
  - by eapply FetchFailed.
Qed.

Lemma proxyAsset_completes cfg network now provider assetPath rh st :
  Completes network now (assetCacheKey provider assetPath) st
    (fst (proxyAsset cfg network now provider assetPath rh st))
    (snd (proxyAsset cfg network now provider assetPath rh st)).
Proof.
  unfold proxyAsset.
  destruct (prop provider (providers cfg)) as [pc|]; [|apply Rejected].
  destruct (CacheStore.get now _ (cache st)) as [cached|] eqn:Hget; [by apply Hit|].
  destruct (httpClient_get _) as [response|err] eqn:Hfetch; cbn [fst snd].
  - by eapply Fetched.
  - by eapply FetchFailed.
Qed.

Lemma Completes_threw network now key st e st' :
  Completes network now key st (Threw e) st' → cache st' = cache st.
Proof. by inversion 1. Qed.

Lemma Completes_failed network now key st c st' request err :
  Completes network now key st c st' →
  fetched st' = fetched st ++ [request] →
  httpClient_get (reply (network now request)) = inr err →
  (∃ e, c = Threw e) ∧ cache st' = cache st.
Proof.
  intros Hc Hlog Hfail.
  destruct Hc as [e|cached Hhit|request' err' e Hmiss Hfail'|
                  cfg request' response result ttl Hmiss Hok _ _].
  - apply (f_equal length) in Hlog. rewrite length_app in Hlog. cbn in Hlog. lia.
  - apply (f_equal length) in Hlog. rewrite length_app in Hlog. cbn in Hlog. lia.
  - split; [by eexists | done].
  - cbn in Hlog. apply app_inv_head in Hlog as [= ->]. congruence.
Qed.

Lemma Completes_written network now key st c st' :
  Completes network now key st c st' →
  cache st' ≠ cache st →
  ∃ request response result,
    c = Returned result
    ∧ fetched st' = fetched st ++ [request]
    ∧ reply (network now request) = NetAnswer response
    ∧ validateStatus (response_status response) = true
    ∧ status result = response_status response
    ∧ data result = response_data response.
Proof.
  intros Hc Hneq. destruct Hc as [e|cached Hhit|request err e Hmiss Hfail|
                                  cfg request response result ttl Hmiss Hok Hs Hd];
    try done.
  apply httpClient_get_inl in Hok as [Hreply Hvalid].
  by exists request, response, result.
Qed.

(** C8. For a widget request and for an asset request alike: when the
    upstream request that the call makes fails (a transport failure, or a
    status that [validateStatus] refuses), the call returns an error and
    leaves the cache as it is; every call that returns an error leaves the
    cache as it is; and a call that changes the cache has made one upstream
    request, answered with a status below 500, and returns the result built
    from that answer.  An entry is written only after a successful fetch. *)
Theorem cache_written_only_after_successful_fetch cfg network now provider widgetType
    assetPath query rh st :
  let widget := proxyWidget cfg network now provider widgetType query rh st in
  let asset := proxyAsset cfg network now provider assetPath rh st in
  ∀ call, call = widget ∨ call = asset →
    (∀ request err,
       fetched (snd call) = fetched st ++ [request] →
       httpClient_get (reply (network now request)) = inr err →
       (∃ e, fst call = Threw e) ∧ cache (snd call) = cache st)
    ∧ (∀ e, fst call = Threw e → cache (snd call) = cache st)
    ∧ (cache (snd call) ≠ cache st →
       ∃ request response result,
         fst call = Returned result
         ∧ fetched (snd call) = fetched st ++ [request]
         ∧ reply (network now request) = NetAnswer response
         ∧ validateStatus (response_status response) = true
         ∧ status result = response_status response
         ∧ data result = response_data response).
Proof.
  intros widget asset call Hcall.
  assert (∃ key, Completes network now key st (fst call) (snd call)) as [key Hc].
  { destruct Hcall as [->| ->]; eexists;
      [apply proxyWidget_completes | apply proxyAsset_completes]. }
  split; [|split].
  - intros request err. by apply (Completes_failed network now key).
  - intros e He. rewrite He in Hc. by apply (Completes_threw network now key st e).
  - by apply (Completes_written network now key).
Qed.

Lemma cache_written_only_after_successful_fetch_witness :
  let call := proxyWidget defaultConfig Fixture.upstream_down 1000 "sportradar"
                "match.lmtPlus" Fixture.matchQuery Fixture.noHeaders Fixture.cold in
  (∃ e, fst call = Threw e) ∧ cache (snd call) = cache Fixture.cold.
Proof.
  intros call.
  destruct (cache_written_only_after_successful_fetch defaultConfig Fixture.upstream_down
              1000 "sportradar" "match.lmtPlus" "/assets/js/a.js" Fixture.matchQuery
              Fixture.noHeaders Fixture.cold call (or_introl eq_refl)) as [Hfail _].
  eapply Hfail; reflexivity.
Defined.

(** *** Cache keys *)

Lemma append_inj_l (a x y : string) : a +:+ x = a +:+ y → x = y.
Proof. induction a as [|c a IH]; cbn; [done|]. intros [= H]. by apply IH. Qed.

Lemma widgetCacheKey_inj provider widgetType q1 q2 :
  widgetCacheKey provider widgetType q1 = widgetCacheKey provider widgetType q2 → q1 = q2.
Proof.
  unfold widgetCacheKey. intros Heq.
  do 5 apply append_inj_l in Heq.
  by apply stringify_inj in Heq as [= ->].
Qed.

(** C6, as the code has it.  A widget key is a function of the provider,
    the widget type and the query parameters in the order the request
    lists them: for one provider and widget type, equal keys mean the same
    parameters with the same values in the same order, so two requests
    that differ in one parameter value have distinct keys.  An asset key
    is a function of the provider and the asset path: equal keys mean the
    same path, and the query of an asset request plays no part. *)
Theorem cache_key_discriminates cfg network now provider widgetType rest
    (q1 q2 pre post : list (string * json)) (name : string) (v1 v2 : json)
    (path1 path2 : string) rh st :
  (widgetCacheKey provider widgetType q1 = widgetCacheKey provider widgetType q2 ↔ q1 = q2)
  ∧ (v1 ≠ v2 →
     widgetCacheKey provider widgetType (pre ++ (name, v1) :: post)
     ≠ widgetCacheKey provider widgetType (pre ++ (name, v2) :: post))
  ∧ (assetCacheKey provider path1 = assetCacheKey provider path2 ↔ path1 = path2)
  ∧ assetHandler cfg network now provider rest q1 rh st
    = assetHandler cfg network now provider rest q2 rh st.
Proof.
  split; [|split; [|split]].
  - split; [apply widgetCacheKey_inj | by intros ->].
  - intros Hv Hkey%widgetCacheKey_inj.
    apply app_inv_head in Hkey. by injection Hkey.
  - split; [|by intros ->]. unfold assetCacheKey. intros Heq.
    by do 3 apply append_inj_l in Heq.
  - reflexivity.
Qed.

Lemma cache_key_discriminates_witness :
  widgetCacheKey "sportradar" "match.lmtPlus" [("lang", JStr "en"); ("matchId", JStr "123")]
  ≠ widgetCacheKey "sportradar" "match.lmtPlus" [("lang", JStr "en"); ("matchId", JStr "124")].
Proof.
  refine (proj1 (proj2 (cache_key_discriminates defaultConfig Fixture.upstream_ok 0
            "sportradar" "match.lmtPlus" "js/a.js" [] [] [("lang", JStr "en")] []
            "matchId" (JStr "123") (JStr "124") "/a" "/b" Fixture.noHeaders Fixture.cold)) _).
  discriminate.
Defined.

(** C6, as stated, fails: the same parameters listed in another order give
    another key. *)
Lemma cache_key_not_canonical :
  [("matchId", JStr "123"); ("lang", JStr "en")]
    ≡ₚ [("lang", JStr "en"); ("matchId", JStr "123")]
  ∧ widgetCacheKey "sportradar" "match.lmtPlus" [("matchId", JStr "123"); ("lang", JStr "en")]
    ≠ widgetCacheKey "sportradar" "match.lmtPlus" [("lang", JStr "en"); ("matchId", JStr "123")].
Proof. split; [apply perm_swap | by vm_compute]. Qed.
End ServiceProperties.

(** ** Route dispatch, route by route *)

Section DispatchRoutes.
Import JsText Http Server Routing.

Lemma chars_app (a b : string) :
  String.list_ascii_of_string (a +:+ b)
  = String.list_ascii_of_string a ++ String.list_ascii_of_string b.
Proof. induction a as [|c a IH]; simpl; [done | by f_equal]. Qed.


Lemma str_startsWith_other a b p :
  str_startsWith a p = true →
  comparable (String.list_ascii_of_string a) (String.list_ascii_of_string b) = false →
  str_startsWith b p = false.
Proof.
  intros Ha Hab. destruct (str_startsWith b p) eqn:Hb; [|done].
  by rewrite (str_startsWith_comparable a b p Ha Hb) in Hab.
Qed.

Lemma str_startsWith_prefix_of a b p :
  str_startsWith a b = true → str_startsWith b p = true → str_startsWith a p = true.
Proof.
  unfold str_startsWith. rewrite !startsWith_prefix. intros [u ->] [v ->].
  exists (u ++ v). by rewrite <- (assoc_L (++)).
Qed.

Lemma prefix_not_equal a p c :
  str_startsWith a p = true → str_startsWith a c = false → String.eqb p c = false.
Proof. intros Ha Hc. destruct (String.eqb_spec p c) as [->|]; congruence. Qed.

(** Past the preflight and the static pages the dispatch is the chain of the
    six proxy routes. *)
Lemma dispatch_past_static rt req :
  String.eqb (req_method req) "OPTIONS" = false →
  Forall (fun c => String.eqb (req_pathname req) c = false) staticPaths →
  dispatch rt req
  = firstMatch [step_widget; step_licensing; step_translations; step_feed;
                step_proxy_asset; step_direct_asset] rt req.
Proof.
  intros Hm Hs. unfold staticPaths in Hs.
  repeat (apply Forall_cons in Hs as [? Hs]).
  unfold dispatch, steps. cbn [firstMatch].
  unfold step_preflight, step_health, step_demo, step_theme, step_preview, step_api.
  by repeat match goal with H : String.eqb _ _ = false |- _ => rewrite H; clear H end.
Qed.

Lemma prefix_past_static a p :
  str_startsWith a p = true →
  forallb (fun c => negb (str_startsWith a c)) staticPaths = true →
  Forall (fun c => String.eqb p c = false) staticPaths.
Proof.
  intros Ha Hall. apply Forall_forall. intros c Hc.
  apply (prefix_not_equal a); [done|].
  rewrite forallb_forall in Hall. apply negb_true_iff, Hall. by apply list_elem_of_In.
Qed.




Local Ltac past_static H :=
  rewrite dispatch_past_static;
    [| done | by apply (prefix_past_static _ _ H)].

Local Ltac not_prefix H :=
  apply (str_startsWith_other _ _ _ H); reflexivity.

(** X1. Every request that is not a preflight and whose path starts with
    [/proxy/sportradar/match.] is dispatched to the widget route, and the
    upstream address is the widget loader of the configured widget id
    followed by the query string of the request: the widget type named in
    the path plays no part.  The handler proxies it in transform mode,
    after the log line of the widget route. *)
Theorem widget_route_ignores_widget_type rt req :
  String.eqb (req_method req) "OPTIONS" = false →
  str_startsWith "/proxy/sportradar/match." (req_pathname req) = true →
  dispatch rt req
  = RWidget ("https://widgets.sir-sportradar.com/984c87dccac74331a2261fd032f80dbf/widgetloader"
               +:+ queryString req)
  ∧ ∀ e network,
      handleRequest rt e network req
      = Proxied (Logger_log e "info" "Widget proxy request"
                   ++ fst (proxyRequest rt e network
                             ("https://widgets.sir-sportradar.com/984c87dccac74331a2261fd032f80dbf/widgetloader"
                                +:+ queryString req) req true))
          (snd (proxyRequest rt e network
                  ("https://widgets.sir-sportradar.com/984c87dccac74331a2261fd032f80dbf/widgetloader"
                     +:+ queryString req) req true)).
Proof.
  intros Hm Hp.
  assert (dispatch rt req
          = RWidget ("https://widgets.sir-sportradar.com/984c87dccac74331a2261fd032f80dbf/widgetloader"
                       +:+ queryString req)) as Hd.
  { past_static Hp. cbn [firstMatch]. unfold step_widget. by rewrite Hp. }
  split; [done|]. intros e network. unfold handleRequest. rewrite Hd.
  by destruct (proxyRequest _ _ _ _ _ _).
Qed.

Lemma widget_route_ignores_widget_type_witness :
  dispatch Fixture.runtime (Fixture.get "/proxy/sportradar/match.preview")
  = dispatch Fixture.runtime (Fixture.get "/proxy/sportradar/match.lmtPlus").
Proof.
  rewrite (proj1 (widget_route_ignores_widget_type Fixture.runtime
                    (Fixture.get "/proxy/sportradar/match.preview") eq_refl eq_refl)).
  reflexivity.
Defined.





Lemma dispatch_tail_spec rt req :
  (req_pathname req = "/" ∨ req_pathname req = "/demo" → readFileSync rt DemoHtml = None) →
  (req_pathname req = "/loader/theme.css" → readFileSync rt (themeFile rt) = None) →
  (req_pathname req = "/loader/preview.html" ∨ req_pathname req = "/loader/preview" →
   readFileSync rt (previewFile rt) = None) →
  req_pathname req ≠ "/health" →
  Dispatches rt req
    (firstMatch [step_api; step_widget; step_licensing; step_translations; step_feed;
                 step_proxy_asset; step_direct_asset] rt req).
Proof.
  intros Fdemo Ftheme Fprev Hhealth. cbn [firstMatch].
  unfold step_api, step_widget, step_licensing, step_translations, step_feed,
    step_proxy_asset, step_direct_asset.
  destruct (String.eqb (req_pathname req) "/api") eqn:H1.
  { apply D_api. by apply String.eqb_eq. }
  destruct (str_startsWith "/proxy/sportradar/match." (req_pathname req)) eqn:H2.
  { by apply D_widget. }
  destruct (String.eqb (req_pathname req) ("/" +:+ config_widgetId +:+ "/licensing")) eqn:H3.
  { apply D_licensing. by apply String.eqb_eq. }
  destruct (str_startsWith "/translations/" (req_pathname req)) eqn:H4.
  { by apply D_translations. }
  destruct (str_startsWith "/api/ws-fn/" (req_pathname req)) eqn:H5.
  { cbn [orb]. apply (D_feed rt req "ws-fn"); [done | by left]. }
  destruct (str_startsWith "/api/lt-fn/" (req_pathname req)) eqn:H6.
  { cbn [orb]. apply (D_feed rt req "lt-fn"); [done | by right]. }
  cbn [orb].
  destruct (str_startsWith "/proxy/sportradar/" (req_pathname req)) eqn:H7.
  { by apply D_proxy_asset. }
  destruct (str_startsWith "/assets/" (req_pathname req)) eqn:H8.
  { apply D_direct_asset. by left. }
  destruct (str_startsWith "/js/" (req_pathname req)) eqn:H9.
  { apply D_direct_asset. right. by left. }
  destruct (str_startsWith "/css/" (req_pathname req)) eqn:H10.
  { apply D_direct_asset. right. by right. }
  cbn [orb]. apply D_not_found; try done.
  - repeat constructor; try done; by apply String.eqb_neq.
  - by repeat constructor.
Qed.

Lemma dispatch_spec rt req :
  Dispatches rt req (dispatch rt req)
  ∧ (dispatch rt req ≠ RPreflight → String.eqb (req_method req) "OPTIONS" = false).
Proof.
  unfold dispatch, steps. cbn [firstMatch].
  unfold step_preflight.
  destruct (String.eqb (req_method req) "OPTIONS") eqn:Hm.
  { split; [by apply D_preflight | done]. }
  split; [|done].
  unfold step_health.
  destruct (String.eqb (req_pathname req) "/health") eqn:H1.
  { apply D_health. by apply String.eqb_eq. }
  apply String.eqb_neq in H1.
  destruct (step_demo rt req) as [r|] eqn:Sdemo.
  { unfold step_demo in Sdemo.
    destruct (String.eqb (req_pathname req) "/" || String.eqb (req_pathname req) "/demo")
      eqn:H2; [|done].
    destruct (readFileSync rt DemoHtml) as [content|] eqn:R; [|done].
    injection Sdemo as <-. apply D_demo; [|done].
    apply orb_true_iff in H2 as [?%String.eqb_eq|?%String.eqb_eq]; auto. }
  assert (req_pathname req = "/" ∨ req_pathname req = "/demo" →
          readFileSync rt DemoHtml = None) as Fdemo.
  { intros Hp. unfold step_demo in Sdemo.
    replace (String.eqb (req_pathname req) "/" || String.eqb (req_pathname req) "/demo")
      with true in Sdemo by (destruct Hp as [->| ->]; reflexivity).
    by destruct (readFileSync rt DemoHtml). }
  destruct (step_theme rt req) as [r|] eqn:Stheme.
  { unfold step_theme in Stheme. fold (themeFile rt) in Stheme.
    destruct (String.eqb (req_pathname req) "/loader/theme.css") eqn:H2; [|done].
    destruct (readFileSync rt (themeFile rt)) as [css|] eqn:R; [|done].
    injection Stheme as <-. apply D_theme; [by apply String.eqb_eq | done]. }
  assert (req_pathname req = "/loader/theme.css" →
          readFileSync rt (themeFile rt) = None) as Ftheme.
  { intros Hp. unfold step_theme in Stheme. fold (themeFile rt) in Stheme.
    rewrite Hp in Stheme. cbn in Stheme. by destruct (readFileSync rt (themeFile rt)). }
  destruct (step_preview rt req) as [r|] eqn:Sprev.
  { unfold step_preview in Sprev. fold (previewFile rt) in Sprev.
    destruct (String.eqb (req_pathname req) "/loader/preview.html"
              || String.eqb (req_pathname req) "/loader/preview") eqn:H2; [|done].
    destruct (readFileSync rt (previewFile rt)) as [html|] eqn:R; [|done].
    injection Sprev as <-. apply D_preview; [|done].
    apply orb_true_iff in H2 as [?%String.eqb_eq|?%String.eqb_eq]; auto. }
  assert (req_pathname req = "/loader/preview.html" ∨ req_pathname req = "/loader/preview" →
          readFileSync rt (previewFile rt) = None) as Fprev.
  { intros Hp. unfold step_preview in Sprev. fold (previewFile rt) in Sprev.
    replace (String.eqb (req_pathname req) "/loader/preview.html"
             || String.eqb (req_pathname req) "/loader/preview")
      with true in Sprev by (destruct Hp as [->| ->]; reflexivity).
    by destruct (readFileSync rt (previewFile rt)). }
  by apply dispatch_tail_spec.
Qed.

(** X3. A request is answered as a CORS preflight exactly when its method
    is [OPTIONS], whatever its path: the preflight test comes first, and
    such a request is answered locally, never proxied. *)
Theorem preflight_iff_options rt e network req :
  (dispatch rt req = RPreflight ↔ req_method req = "OPTIONS")
  ∧ (req_method req = "OPTIONS" → handleRequest rt e network req = Local RPreflight).
Proof.
  assert (req_method req = "OPTIONS" → dispatch rt req = RPreflight) as Hfwd.
  { intros Hm. unfold dispatch, steps. cbn [firstMatch]. unfold step_preflight.
    by rewrite Hm. }
  split; [split; [|done] |].
  - intros Hd. destruct (dispatch_spec rt req) as [Hspec _]. rewrite Hd in Hspec.
    inversion Hspec. by apply String.eqb_eq.
  - intros Hm. unfold handleRequest. by rewrite (Hfwd Hm).
Qed.

(** X4. The requests that reach the final 404 branch are exactly those
    that are not preflights, whose path is none of [/health], [/api] and
    the licensing path, starts with none of the proxied prefixes, and, if
    it is the path of a static page, names a page whose file cannot be
    read: a static page that is missing falls through to 404. *)
Theorem not_found_iff rt req :
  dispatch rt req = RNotFound
  ↔ req_method req ≠ "OPTIONS"
    ∧ (req_pathname req = "/" ∨ req_pathname req = "/demo" → readFileSync rt DemoHtml = None)
    ∧ (req_pathname req = "/loader/theme.css" → readFileSync rt (themeFile rt) = None)
    ∧ (req_pathname req = "/loader/preview.html" ∨ req_pathname req = "/loader/preview" →
       readFileSync rt (previewFile rt) = None)
    ∧ Forall (fun c => req_pathname req ≠ c)
        ["/health"; "/api"; "/984c87dccac74331a2261fd032f80dbf/licensing"]
    ∧ Forall (fun a => str_startsWith a (req_pathname req) = false)
        ["/proxy/sportradar/"; "/translations/"; "/api/ws-fn/"; "/api/lt-fn/";
         "/assets/"; "/js/"; "/css/"].
Proof.
  split.
  - intros Hd. destruct (dispatch_spec rt req) as [Hspec Hm]. rewrite Hd in Hspec, Hm.
    split; [apply String.eqb_neq; by apply Hm|].
    by inversion Hspec.
  - intros (Hm & Fdemo & Ftheme & Fprev & Hexact & Hpre).
    apply String.eqb_neq in Hm.
    apply Forall_cons in Hexact as [?%String.eqb_neq Hexact].
    apply Forall_cons in Hexact as [?%String.eqb_neq Hexact].
    apply Forall_cons in Hexact as [?%String.eqb_neq _].
    repeat (apply Forall_cons in Hpre as [? Hpre]).
    assert (str_startsWith "/proxy/sportradar/match." (req_pathname req) = false) as Hw.
    { destruct (str_startsWith "/proxy/sportradar/match." (req_pathname req)) eqn:Hw; [|done].
      pose proof (str_startsWith_prefix_of "/proxy/sportradar/" "/proxy/sportradar/match."
                    (req_pathname req) eq_refl Hw). congruence. }
    unfold dispatch, steps. cbn [firstMatch].
    unfold step_preflight, step_health, step_api, step_widget, step_licensing,
      step_translations, step_feed, step_proxy_asset, step_direct_asset.
    assert (step_demo rt req = None) as ->.
    { unfold step_demo.
      destruct (String.eqb (req_pathname req) "/" || String.eqb (req_pathname req) "/demo")
        eqn:Hc; [|done].
      rewrite Fdemo; [done|].
      apply orb_true_iff in Hc as [?%String.eqb_eq|?%String.eqb_eq]; auto. }
    assert (step_theme rt req = None) as ->.
    { unfold step_theme. fold (themeFile rt).
      destruct (String.eqb (req_pathname req) "/loader/theme.css") eqn:Hc; [|done].
      rewrite Ftheme; [done | by apply String.eqb_eq]. }
    assert (step_preview rt req = None) as ->.
    { unfold step_preview. fold (previewFile rt).
      destruct (String.eqb (req_pathname req) "/loader/preview.html"
                || String.eqb (req_pathname req) "/loader/preview") eqn:Hc; [|done].
      rewrite Fprev; [done|].
      apply orb_true_iff in Hc as [?%String.eqb_eq|?%String.eqb_eq]; auto. }
    change ("/" +:+ config_widgetId +:+ "/licensing")
      with "/984c87dccac74331a2261fd032f80dbf/licensing".
    repeat match goal with
           | H : String.eqb _ _ = false |- _ => rewrite H; clear H
           | H : str_startsWith _ _ = false |- _ => rewrite H; clear H
           end.
    reflexivity.
Qed.

(** X5. The licensing, translation and direct asset routes proxy to the
    configured base address followed by the path of the request alone: the
    query string of the request is not forwarded on these routes.  Each of
    them is taken under the test the handler states for it. *)
Theorem stream_routes_drop_query rt req :
  req_method req ≠ "OPTIONS" →
  (∀ t, dispatch rt req = RLicensing t ∨ dispatch rt req = RTranslations t
        ∨ dispatch rt req = RDirectAsset t →
        t = "https://widgets.sir-sportradar.com" +:+ req_pathname req)
  ∧ (req_pathname req = "/984c87dccac74331a2261fd032f80dbf/licensing" →
     dispatch rt req = RLicensing ("https://widgets.sir-sportradar.com" +:+ req_pathname req))
  ∧ (str_startsWith "/translations/" (req_pathname req) = true →
     dispatch rt req = RTranslations ("https://widgets.sir-sportradar.com" +:+ req_pathname req))
  ∧ (str_startsWith "/assets/" (req_pathname req) = true
     ∨ str_startsWith "/js/" (req_pathname req) = true
     ∨ str_startsWith "/css/" (req_pathname req) = true →
     dispatch rt req = RDirectAsset ("https://widgets.sir-sportradar.com" +:+ req_pathname req)).
Proof.
  intros Hm%String.eqb_neq. split; [|split; [|split]].
  - intros t Hd. destruct (dispatch_spec rt req) as [Hspec _].
    destruct Hd as [Hd|[Hd|Hd]]; rewrite Hd in Hspec; by inversion Hspec.
  - intros Hp. unfold dispatch, steps, firstMatch.
    unfold step_preflight, step_health, step_demo, step_theme, step_preview, step_api,
      step_widget, step_licensing. rewrite Hm, Hp. reflexivity.
  - intros Hp. past_static Hp. cbn [firstMatch].
    unfold step_widget, step_licensing, step_translations.
    rewrite (str_startsWith_other _ "/proxy/sportradar/match." _ Hp) by reflexivity.
    rewrite (prefix_not_equal _ _ _ Hp) by reflexivity.
    by rewrite Hp.
  - intros Hp.
    assert (∃ a, a ∈ ["/assets/"; "/js/"; "/css/"] ∧ str_startsWith a (req_pathname req) = true)
      as (a & Ha & Hpa).
    { destruct Hp as [H|[H|H]]; eexists; (split; [|exact H]); set_solver. }
    assert (Forall (fun c => String.eqb (req_pathname req) c = false) staticPaths
            ∧ str_startsWith "/proxy/sportradar/match." (req_pathname req) = false
            ∧ String.eqb (req_pathname req) ("/" +:+ config_widgetId +:+ "/licensing") = false
            ∧ str_startsWith "/translations/" (req_pathname req) = false
            ∧ str_startsWith "/api/ws-fn/" (req_pathname req) = false
            ∧ str_startsWith "/api/lt-fn/" (req_pathname req) = false
            ∧ str_startsWith "/proxy/sportradar/" (req_pathname req) = false)
      as (Hs & H1 & H2 & H3 & H4 & H5 & H6).
    { repeat (apply elem_of_cons in Ha as [->|Ha]);
        [| | | by apply elem_of_nil in Ha];
        (split; [by apply (prefix_past_static _ _ Hpa)|]);
        repeat split;
        first [ apply (str_startsWith_other _ _ _ Hpa); reflexivity
              | apply (prefix_not_equal _ _ _ Hpa); reflexivity ]. }
    rewrite dispatch_past_static by done. cbn [firstMatch].
    unfold step_widget, step_licensing, step_translations, step_feed, step_proxy_asset,
      step_direct_asset.
    rewrite H1, H2, H3, H4, H5, H6. cbn [orb].
    destruct Hp as [->|[->| ->]]; by rewrite ?orb_true_r.
Qed.

Lemma stream_routes_drop_query_witness :
  dispatch Fixture.runtime
    {| req_method := "GET"; req_pathname := "/translations/en.json";
       req_search := Some "?v=2"; req_matchId := None; req_userAgent := None |}
  = RTranslations "https://widgets.sir-sportradar.com/translations/en.json".
Proof.
  refine (proj1 (proj2 (proj2 (stream_routes_drop_query Fixture.runtime
            {| req_method := "GET"; req_pathname := "/translations/en.json";
               req_search := Some "?v=2"; req_matchId := None; req_userAgent := None |}
            _))) eq_refl).
  discriminate.
Defined.

(** X6. The widget route is the only one that transforms: a request that
    the handler proxies and whose path does not start with
    [/proxy/sportradar/match.] is proxied in stream mode, so an upstream
    answer reaches the client with its status and its body chunks as they
    came. *)
Theorem only_widget_route_rewrites rt e network req log r :
  handleRequest rt e network req = Proxied log r →
  str_startsWith "/proxy/sportradar/match." (req_pathname req) = false →
  ∃ targetUrl,
    r = snd (proxyRequest rt e network targetUrl req false)
    ∧ ∀ proxyRes,
        network (clientRequest targetUrl req) = UpstreamResponse proxyRes →
        res_status r = statusCode proxyRes ∧ res_chunks r = msg_chunks proxyRes.
Proof.
  intros Hh Hw. unfold handleRequest in Hh.
  destruct (dispatch_spec rt req) as [Hspec _].
  destruct (dispatch rt req) as [| | | | | |t|t|t|t|p|t|] eqn:Hd; try done.
  1: { inversion Hspec. congruence. }
  all: destruct (proxyRequest rt e network t req false) as [log' r'] eqn:Hpr;
    injection Hh as _ <-; exists t; rewrite Hpr; (split; [done|]);
    intros proxyRes Hnet;
    pose proof (proxyRequest_response rt e network t req false proxyRes Hnet) as Hr;
    rewrite Hpr in Hr; cbn [snd] in Hr; by rewrite Hr.
Qed.

Lemma only_widget_route_rewrites_witness :
  ∃ targetUrl,
    snd (proxyRequest Fixture.runtime Fixture.env
           (fun _ => UpstreamResponse Fixture.mislabelled)
           "https://widgets.sir-sportradar.com/translations/en.json"
           (Fixture.get "/translations/en.json") false)
    = snd (proxyRequest Fixture.runtime Fixture.env
             (fun _ => UpstreamResponse Fixture.mislabelled) targetUrl
             (Fixture.get "/translations/en.json") false).
Proof.
  destruct (only_widget_route_rewrites Fixture.runtime Fixture.env
              (fun _ => UpstreamResponse Fixture.mislabelled)
              (Fixture.get "/translations/en.json")
              (Logger_log Fixture.env "debug" "Translation request"
                 ++ fst (proxyRequest Fixture.runtime Fixture.env
                           (fun _ => UpstreamResponse Fixture.mislabelled)
                           "https://widgets.sir-sportradar.com/translations/en.json"
                           (Fixture.get "/translations/en.json") false))
              (snd (proxyRequest Fixture.runtime Fixture.env
                      (fun _ => UpstreamResponse Fixture.mislabelled)
                      "https://widgets.sir-sportradar.com/translations/en.json"
                      (Fixture.get "/translations/en.json") false))
              eq_refl eq_refl) as (targetUrl & Hr & _).
  by exists targetUrl.
Defined.
End DispatchRoutes.

(** ** More on the rewrite and on the pipeline *)

Section ScanFacts.
Import JsText.
Context {A : Type} `{EqDecision A}.
Implicit Types p q r s t a b : list A.

Lemma includesb_Occurs q s : includesb q s = true ↔ Occurs q s.
Proof.
  induction s as [|c s IH].
  - cbn [includesb]. rewrite orb_false_r, startsWith_prefix. split.
    + intros [k Hk]. exists [], k. done.
    + intros (a & b & Hab). destruct a; [by exists b|done].
  - cbn [includesb]. rewrite orb_true_iff, IH, startsWith_prefix. split.
    + intros [[k Hk]|Ho]; [exists [], k; done | by apply (Occurs_app_r _ [c])].
    + intros (a & b & Hab). destruct a as [|d a].
      * left. by exists b.
      * right. injection Hab as -> ->. by exists a, b.
Qed.

Lemma replaceAll_length_le p r s :
  p ≠ [] → length r ≤ length p → length (replaceAll p r s) ≤ length s.
Proof.
  intros Hp Hr. induction s as [|k IH|c s Hs IH] using (scan_ind p Hp).
  - done.
  - rewrite replaceAll_match by done. rewrite !length_app. lia.
  - rewrite replaceAll_skip by done. cbn. lia.
Qed.

(** Two maps that distribute over the occurrences of two non-empty words in
    the same way, and fix the texts without occurrences, are equal. *)
Lemma distributing_maps_agree (F G : list A → list A) p1 r1 p2 r2 :
  p1 ≠ [] → p2 ≠ [] →
  (∀ a b, F (a ++ p1 ++ b) = F a ++ r1 ++ F b) →
  (∀ a b, G (a ++ p1 ++ b) = G a ++ r1 ++ G b) →
  (∀ a b, F (a ++ p2 ++ b) = F a ++ r2 ++ F b) →
  (∀ a b, G (a ++ p2 ++ b) = G a ++ r2 ++ G b) →
  (∀ t, ¬ Occurs p1 t → ¬ Occurs p2 t → F t = t) →
  (∀ t, ¬ Occurs p1 t → ¬ Occurs p2 t → G t = t) →
  ∀ t, F t = G t.
Proof using Type*.
  intros Hp1 Hp2 F1 G1 F2 G2 F0 G0 t.
  remember (length t) as n eqn:Hn. revert t Hn.
  induction n as [n IH] using lt_wf_ind. intros t ->.
  destruct (includesb p1 t) eqn:H1.
  { apply includesb_Occurs in H1 as (a & b & ->). rewrite F1, G1.
    rewrite (IH (length a)) with (t := a), (IH (length b)) with (t := b); try done;
      rewrite !length_app; destruct p1; try done; cbn; lia. }
  destruct (includesb p2 t) eqn:H2.
  { apply includesb_Occurs in H2 as (a & b & ->). rewrite F2, G2.
    rewrite (IH (length a)) with (t := a), (IH (length b)) with (t := b); try done;
      rewrite !length_app; destruct p2; try done; cbn; lia. }
  assert (¬ Occurs p1 t) by (rewrite <- includesb_Occurs; congruence).
  assert (¬ Occurs p2 t) by (rewrite <- includesb_Occurs; congruence).
  by rewrite F0, G0.
Qed.
End ScanFacts.

Section RewriteOrder.
Import JsText Server.

Lemma hosts_swapped_lt a b :
  replaceAll ltHost ltLocal (replaceAll wsHost wsLocal (a ++ ltHost ++ b))
  = replaceAll ltHost ltLocal (replaceAll wsHost wsLocal a) ++ ltLocal
    ++ replaceAll ltHost ltLocal (replaceAll wsHost wsLocal b).
Proof. rewrite replaceAll_around by done. by rewrite replaceAll_at_match. Qed.

Lemma hosts_swapped_ws a b :
  replaceAll ltHost ltLocal (replaceAll wsHost wsLocal (a ++ wsHost ++ b))
  = replaceAll ltHost ltLocal (replaceAll wsHost wsLocal a) ++ wsLocal
    ++ replaceAll ltHost ltLocal (replaceAll wsHost wsLocal b).
Proof. rewrite replaceAll_at_match by done. by rewrite replaceAll_around. Qed.

Lemma hosts_swapped t :
  replaceAll ltHost ltLocal (replaceAll wsHost wsLocal t) = rewriteWidgetScript t.
Proof.
  revert t.
  apply (distributing_maps_agree
           (fun t => replaceAll ltHost ltLocal (replaceAll wsHost wsLocal t))
           rewriteWidgetScript ltHost ltLocal wsHost wsLocal); try done.
  - apply hosts_swapped_lt.
  - apply rewriteWidgetScript_lt.
  - apply hosts_swapped_ws.
  - apply rewriteWidgetScript_ws.
  - intros u Hlt Hws. rewrite (replaceAll_absent wsHost) by done.
    by rewrite (replaceAll_absent ltHost).
  - apply rewriteWidgetScript_absent.
Qed.

Lemma field_rule_idle (x y r t host : jsstring) :
  ¬ Occurs host t → replaceAll (x ++ host ++ y) r t = t.
Proof.
  intros Hno. apply replaceAll_absent.
  - intros [_ [? _]%app_eq_nil]%app_eq_nil. apply Hno. subst host. by exists [], t.
  - intros Ho. apply Hno. eapply Occurs_trans; [|exact Ho]. by exists x, y.
Qed.

(** X7. The order of the four replacements is immaterial, and the two
    field-scoped ones are redundant: the rewrite equals the two host
    replacements alone, in either order, and the four replacements applied
    in the reverse of the source order give the same text. *)
Theorem rewrite_rule_order_immaterial (text : jsstring) :
  applyRules rewriteRules text = applyRules [(ltHost, ltLocal); (wsHost, wsLocal)] text
  ∧ applyRules rewriteRules text = applyRules [(wsHost, wsLocal); (ltHost, ltLocal)] text
  ∧ applyRules (rev rewriteRules) text = applyRules rewriteRules text.
Proof.
  change (applyRules rewriteRules text) with (rewriteWidgetScript text).
  split; [apply rewriteWidgetScript_hosts|].
  split; [symmetry; apply hosts_swapped|].
  cbn [rev app rewriteRules applyRules foldl fst snd].
  rewrite hosts_swapped, lmtField_shape, cardsField_shape.
  rewrite (field_rule_idle _ _ _ _ wsHost) by apply rewriteWidgetScript_no_ws.
  by rewrite (field_rule_idle _ _ _ _ ltHost) by apply rewriteWidgetScript_no_lt.
Qed.

(** X8. The rewrite never lengthens the script: the result is at most as
    long as the input, it is the input itself when neither feed host
    occurs, and it is strictly shorter when one occurs (each replacement is
    one code unit shorter than the host it replaces). *)
Theorem rewrite_shortens (text : jsstring) :
  length (rewriteWidgetScript text) ≤ length text
  ∧ (¬ Occurs ltHost text → ¬ Occurs wsHost text → rewriteWidgetScript text = text)
  ∧ (Occurs ltHost text ∨ Occurs wsHost text →
     length (rewriteWidgetScript text) < length text).
Proof.
  assert (∀ t, length (rewriteWidgetScript t) ≤ length t) as Hle.
  { intros t. rewrite rewriteWidgetScript_hosts.
    etrans; [apply replaceAll_length_le; [done | cbn; lia]|].
    apply replaceAll_length_le; [done | cbn; lia]. }
  split; [apply Hle|]. split; [apply rewriteWidgetScript_absent|].
  intros [(a & b & ->)|(a & b & ->)].
  - rewrite rewriteWidgetScript_lt, !length_app.
    pose proof (Hle a). pose proof (Hle b).
    assert (length ltLocal = 31 ∧ length ltHost = 32) as [-> ->] by done. lia.
  - rewrite rewriteWidgetScript_ws, !length_app.
    pose proof (Hle a). pose proof (Hle b).
    assert (length wsLocal = 31 ∧ length wsHost = 32) as [-> ->] by done. lia.
Qed.
End RewriteOrder.

Section PipelineEdges.
Import JsText Http Server.

Lemma cors_present k v :
  (k, v) ∈ corsHeaders → getHeader k (setCorsHeaders ∅) = Some (HStr v).
Proof.
  intros Hin. unfold corsHeaders in Hin.
  repeat (apply elem_of_cons in Hin as [[= -> ->]|Hin]); try reflexivity.
  by apply elem_of_nil in Hin.
Qed.

(** X9. When the upstream request fails, the answer is the same in both
    modes and on every route: status 500, the fixed CORS headers and no
    other header set by the handler (no content type, no content length),
    the JSON error body with the failure message, and only the first line
    of the logger. *)
Theorem upstream_error_response rt e network targetUrl req rewrite message :
  network (clientRequest targetUrl req) = UpstreamError message →
  let r := snd (proxyRequest rt e network targetUrl req rewrite) in
  res_status r = 500%Z
  ∧ (∀ name, getHeader name (res_headers r) = getHeader name (setCorsHeaders ∅))
  ∧ (∀ k v, (k, v) ∈ corsHeaders → getHeader k (res_headers r) = Some (HStr v))
  ∧ getHeader "content-type" (res_headers r) = None
  ∧ getHeader "content-length" (res_headers r) = None
  ∧ res_body r
    = utf8_encode (lit (Json.stringify
        (Json.JObj [("error", Json.JStr "Proxy Error"); ("message", Json.JStr message)])))
  ∧ fst (proxyRequest rt e network targetUrl req rewrite)
    = Logger_log e "info" "Proxy request initiated".
Proof.
  intros Hnet r. subst r. unfold proxyRequest. rewrite Hnet. cbn [fst snd].
  unfold onError, res_body. cbn [res_status res_headers res_chunks concat].
  rewrite (right_id_L [] (++)).
  repeat split; try reflexivity. intros k v. apply cors_present.
Qed.

Lemma upstream_error_response_witness :
  res_status (snd (proxyRequest Fixture.runtime Fixture.env
                     (fun _ => UpstreamError "connect ECONNREFUSED")
                     "https://widgets.sir-sportradar.com/translations/en.json"
                     (Fixture.get "/translations/en.json") false)) = 500%Z.
Proof.
  exact (proj1 (upstream_error_response Fixture.runtime Fixture.env
                  (fun _ => UpstreamError "connect ECONNREFUSED")
                  "https://widgets.sir-sportradar.com/translations/en.json"
                  (Fixture.get "/translations/en.json") false "connect ECONNREFUSED"
                  eq_refl)).
Defined.

(** X10. In transform mode the only upstream headers that reach the client
    are the content type (with [application/javascript] when the upstream
    sends none) and a non-empty cache control; every other header has the
    value of the fixed CORS set, so an upstream header cannot replace a
    fixed one, unlike in stream mode. *)
Theorem transform_header_policy rt e network targetUrl req proxyRes :
  network (clientRequest targetUrl req) = UpstreamResponse proxyRes →
  let r := snd (proxyRequest rt e network targetUrl req true) in
  let up := msg_headers proxyRes in
  getHeader "content-type" (res_headers r)
  = Some (orValue (prop "content-type" up) (HStr "application/javascript"))
  ∧ getHeader "cache-control" (res_headers r)
    = (if truthy (prop "cache-control" up) then prop "cache-control" up else None)
  ∧ (∀ name, toLowerCase name ≠ "content-type" → toLowerCase name ≠ "cache-control" →
             toLowerCase name ≠ "content-length" →
             getHeader name (res_headers r) = getHeader name (setCorsHeaders ∅))
  ∧ (∀ k v, (k, v) ∈ corsHeaders → getHeader k (res_headers r) = Some (HStr v)).
Proof.
  intros Hnet r up. subst r up. rewrite (proxyRequest_response _ _ _ _ _ _ _ Hnet).
  split; [|split; [|split]].
  - unfold onResponse. cbn [negb res_headers].
    rewrite getHeader_setHeader_ne by done.
    destruct (prop "cache-control" (msg_headers proxyRes)) as [cc|];
      [destruct (truthy (Some cc))|];
      rewrite ?(getHeader_setHeader_ne "Cache-Control") by done;
      by rewrite getHeader_setHeader_eq.
  - unfold onResponse. cbn [negb res_headers].
    rewrite getHeader_setHeader_ne by done.
    destruct (prop "cache-control" (msg_headers proxyRes)) as [cc|];
      [destruct (truthy (Some cc))|].
    + by rewrite getHeader_setHeader_eq.
    + by rewrite getHeader_setHeader_ne.
    + by rewrite getHeader_setHeader_ne.
  - intros name. apply onResponse_transform_headers.
  - intros k v Hin. rewrite onResponse_transform_headers.
    + by apply cors_present.
    + unfold corsHeaders in Hin.
      repeat (apply elem_of_cons in Hin as [[= -> ->]|Hin]); try done.
      by apply elem_of_nil in Hin.
    + unfold corsHeaders in Hin.
      repeat (apply elem_of_cons in Hin as [[= -> ->]|Hin]); try done.
      by apply elem_of_nil in Hin.
    + unfold corsHeaders in Hin.
      repeat (apply elem_of_cons in Hin as [[= -> ->]|Hin]); try done.
      by apply elem_of_nil in Hin.
Qed.

Lemma transform_header_policy_witness :
  getHeader "Access-Control-Allow-Origin"
    (res_headers (snd (proxyRequest Fixture.runtime Fixture.env
                         (fun _ => UpstreamResponse Fixture.mislabelled)
                         "https://widgets.sir-sportradar.com/w/widgetloader"
                         (Fixture.get "/proxy/sportradar/match.lmtPlus") true)))
  = Some (HStr "*").
Proof.
  apply (proj2 (proj2 (proj2 (transform_header_policy Fixture.runtime Fixture.env
                  (fun _ => UpstreamResponse Fixture.mislabelled)
                  "https://widgets.sir-sportradar.com/w/widgetloader"
                  (Fixture.get "/proxy/sportradar/match.lmtPlus") Fixture.mislabelled
                  eq_refl)))).
  apply list_elem_of_here.
Defined.

Lemma forwardHeader_skipped rt h k v :
  v = HUndefined ∨ headerAccepted rt k v = false → forwardHeader rt h (k, v) = h.
Proof.
  intros [->|Hno]; [done|]. unfold forwardHeader. cbn [fst snd].
  destruct v; [done | |]; by rewrite Hno.
Qed.

Lemma forwardHeaders_skipped rt up h k v :
  NoDup (map (fun kv => toLowerCase (fst kv)) up) →
  (k, v) ∈ up → v = HUndefined ∨ headerAccepted rt k v = false →
  getHeader k (forwardHeaders rt up h) = getHeader k h.
Proof.
  revert h. induction up as [|kv up IH]; intros h Hnd Hin Hskip.
  - by apply elem_of_nil in Hin.
  - simpl in Hnd. apply NoDup_cons in Hnd as [Hfresh Hnd].
    unfold forwardHeaders in *. simpl.
    apply elem_of_cons in Hin as [<-|Hin].
    + rewrite forwardHeader_skipped by done.
      by apply (forwardHeaders_other rt up h k).
    + rewrite IH by done. apply forwardHeader_other.
      intros Heq. apply Hfresh. rewrite Heq.
      apply (list_elem_of_fmap_2 (fun kv => toLowerCase (fst kv)) _ (k, v)) in Hin. done.
Qed.

(** X11. In stream mode an upstream header whose value is undefined, or
    that the response refuses, is skipped without disturbing the rest: the
    header keeps the value of the fixed CORS set (or stays absent), the
    status and the body chunks are the upstream's, and the accepted headers
    are forwarded. *)
Theorem refused_header_is_skipped rt e network targetUrl req proxyRes k v :
  network (clientRequest targetUrl req) = UpstreamResponse proxyRes →
  NoDup (map (fun kv => toLowerCase (fst kv)) (msg_headers proxyRes)) →
  (k, v) ∈ msg_headers proxyRes →
  v = HUndefined ∨ headerAccepted rt k v = false →
  let r := snd (proxyRequest rt e network targetUrl req false) in
  getHeader k (res_headers r) = getHeader k (setCorsHeaders ∅)
  ∧ res_status r = statusCode proxyRes
  ∧ res_chunks r = msg_chunks proxyRes
  ∧ (∀ k' v', (k', v') ∈ msg_headers proxyRes → v' ≠ HUndefined →
              headerAccepted rt k' v' = true →
              getHeader k' (res_headers r) = Some v').
Proof.
  intros Hnet Hnd Hin Hskip r. subst r. rewrite (proxyRequest_response _ _ _ _ _ _ _ Hnet).
  unfold onResponse. cbn [negb res_status res_chunks res_headers].
  split; [by apply (forwardHeaders_skipped rt _ _ k v)|].
  repeat split. intros k' v' Hin' Hv' Hok. by apply forwardHeaders_lookup.
Qed.

Lemma refused_header_is_skipped_witness :
  getHeader "x-frame-options"
    (res_headers (snd (proxyRequest Fixture.runtime Fixture.env
                         (fun _ => UpstreamResponse Scenario.sparse)
                         "https://widgets.sir-sportradar.com/css/a.css"
                         (Fixture.get "/css/a.css") false)))
  = Some (HStr "SAMEORIGIN").
Proof.
  rewrite (proj1 (refused_header_is_skipped Fixture.runtime Fixture.env
                    (fun _ => UpstreamResponse Scenario.sparse)
                    "https://widgets.sir-sportradar.com/css/a.css"
                    (Fixture.get "/css/a.css") Scenario.sparse
                    "x-frame-options" HUndefined eq_refl
                    ltac:(apply (bool_decide_unpack _); vm_compute; exact I)
                    ltac:(apply (bool_decide_unpack _); vm_compute; exact I)
                    (or_introl eq_refl))).
  reflexivity.
Defined.

End PipelineEdges.

(** ** The service's policies *)

Section ObjectFacts.
Import JsText.
Context {V : Type}.
Implicit Types (o : list (string * V)).

Lemma prop_setProp_eq k (v : V) o : prop k (setProp k v o) = Some v.
Proof.
  induction o as [|[k' w] o IH]; cbn.
  - by rewrite String.eqb_refl.
  - destruct (String.eqb k' k) eqn:Hk; cbn; by rewrite Hk.
Qed.

Lemma prop_setProp_ne k k' (v : V) o : k ≠ k' → prop k' (setProp k v o) = prop k' o.
Proof.
  intros Hne. induction o as [|[k0 w] o IH]; cbn.
  - by rewrite (proj2 (String.eqb_neq k k')).
  - destruct (String.eqb k0 k) eqn:Hk; cbn.
    + apply String.eqb_eq in Hk as ->. by rewrite (proj2 (String.eqb_neq k k')).
    + by rewrite IH.
Qed.

Lemma prop_None k o : prop k o = None ↔ k ∉ map fst o.
Proof.
  induction o as [|[k' w] o IH]; cbn.
  - split; [intros _; apply not_elem_of_nil | done].
  - rewrite not_elem_of_cons. destruct (String.eqb_spec k' k) as [->|Hne].
    + split; [done | intros [? _]; done].
    + rewrite IH. split; [intros ?; split; [congruence | done] | by intros [_ ?]].
Qed.
End ObjectFacts.

Lemma prop_fmap {V W : Type} (f : V → W) k (o : list (string * V)) :
  JsText.prop k (map (fun kv => (fst kv, f (snd kv))) o) = f <$> JsText.prop k o.
Proof.
  induction o as [|[k' w] o IH]; cbn; [done|]. by destruct (String.eqb k' k).
Qed.

Section ServicePolicies.
Import JsText Json ProxyService ProxyRouter.
Implicit Types (cfg : Config) (network : Network) (st : State).

(** X13. The headers the service builds for a result: no name occurs
    twice; [Cache-Control] is always present, the upstream's when it sent a
    non-empty one and else the default of the resource type (300 seconds
    for a script, 3600 for anything else); [Content-Type] and
    [Content-Encoding] are the upstream's when non-empty and absent
    otherwise; the fixed headers are present; [Content-Length] is never
    set. *)
Theorem response_headers_policy (originalHeaders : list (string * string)) resourceType :
  let headers := buildResponseHeaders originalHeaders resourceType in
  NoDup (map fst headers)
  ∧ prop "Cache-Control" headers
    = Some (if truthyString (prop "cache-control" originalHeaders)
            then orString (prop "cache-control" originalHeaders) ""
            else if String.eqb resourceType "script" then "public, max-age=300"
                 else "public, max-age=3600")
  ∧ prop "Content-Type" headers
    = (if truthyString (prop "content-type" originalHeaders)
       then prop "content-type" originalHeaders else None)
  ∧ prop "Content-Encoding" headers
    = (if truthyString (prop "content-encoding" originalHeaders)
       then prop "content-encoding" originalHeaders else None)
  ∧ prop "Access-Control-Allow-Origin" headers = Some "*"
  ∧ prop "X-Frame-Options" headers = Some "SAMEORIGIN"
  ∧ prop "X-Content-Type-Options" headers = Some "nosniff"
  ∧ prop "Content-Length" headers = None.
Proof.
  intros headers. subst headers. unfold buildResponseHeaders.
  destruct (prop "content-type" originalHeaders) as [ct|] eqn:Hct;
    destruct (prop "content-encoding" originalHeaders) as [ce|] eqn:Hce;
    destruct (prop "cache-control" originalHeaders) as [cc|] eqn:Hcc;
    cbn [truthyString orString];
    repeat match goal with
           | |- context [String.eqb ?s ""] =>
               destruct (String.eqb_spec s ""); [subst|]; cbn [negb]
           end;
    (split; [cbn; apply (bool_decide_unpack _); by vm_compute|]);
    repeat split; reflexivity.
Qed.

(** *** Extensions *)

Lemma lastSegment_plain {A} `{EqDecision A} (sep : A) (acc e : list A) :
  sep ∉ e → lastSegment sep acc e = acc ++ e.
Proof.
  revert acc. induction e as [|c e IH]; intros acc Hno; cbn.
  - by rewrite (right_id_L [] (++)).
  - apply not_elem_of_cons in Hno as [Hc He]. rewrite decide_False by done.
    rewrite IH by done. by rewrite <- (assoc_L (++)).
Qed.

Lemma lastSegment_after {A} `{EqDecision A} (sep : A) (acc a e : list A) :
  lastSegment sep acc (a ++ sep :: e) = lastSegment sep [] e.
Proof.
  revert acc. induction a as [|c a IH]; intros acc; cbn.
  - by rewrite decide_True.
  - destruct (decide (c = sep)); apply IH.
Qed.

Lemma extension_after_dot stem ext :
  "."%char ∉ String.list_ascii_of_string ext →
  extension (stem +:+ "." +:+ ext) = Http.toLowerCase ext.
Proof.
  intros Hno. unfold extension. rewrite !chars_app.
  change (String.list_ascii_of_string ".") with ["."%char]. cbn [app].
  rewrite lastSegment_after, lastSegment_plain by done. cbn [app].
  by rewrite String.string_of_list_ascii_of_string.
Qed.

Lemma extension_no_dot path :
  "."%char ∉ String.list_ascii_of_string path → extension path = Http.toLowerCase path.
Proof.
  intros Hno. unfold extension. rewrite lastSegment_plain by done. cbn [app].
  by rewrite String.string_of_list_ascii_of_string.
Qed.

Lemma isOneOf_elem x l : isOneOf x l = true ↔ x ∈ l.
Proof.
  unfold isOneOf. rewrite existsb_exists. split.
  - intros (y & Hy & ->%String.eqb_eq). by apply list_elem_of_In.
  - intros Hx. exists x. split; [by apply list_elem_of_In | apply String.eqb_refl].
Qed.

(** X14. The response type of an asset follows its extension: it is
    [arraybuffer] exactly for the six image extensions and [text]
    otherwise, and an asset fetched as [arraybuffer] has an [image/]
    content type.  The extension is what follows the last dot, in lower
    case; a path without a dot is its own extension. *)
Theorem asset_type_follows_extension (assetPath stem ext : string) :
  (getResponseType assetPath = "arraybuffer"
   ↔ extension assetPath ∈ ["png"; "jpg"; "jpeg"; "gif"; "webp"; "ico"])
  ∧ (getResponseType assetPath ≠ "arraybuffer" → getResponseType assetPath = "text")
  ∧ (getResponseType assetPath = "arraybuffer" →
     ∃ sub, getContentType assetPath = "image/" +:+ sub)
  ∧ ("."%char ∉ String.list_ascii_of_string ext →
     extension (stem +:+ "." +:+ ext) = Http.toLowerCase ext)
  ∧ ("."%char ∉ String.list_ascii_of_string assetPath →
     extension assetPath = Http.toLowerCase assetPath).
Proof.
  assert (getResponseType assetPath = "arraybuffer"
          ↔ extension assetPath ∈ ["png"; "jpg"; "jpeg"; "gif"; "webp"; "ico"]) as Hiff.
  { unfold getResponseType.
    destruct (isOneOf (extension assetPath) ["js"; "css"; "html"; "xml"; "json"]) eqn:Htext.
    - split; [done|]. intros Himg. apply isOneOf_elem in Htext. exfalso.
      revert Htext Himg. generalize (extension assetPath). intros x Htext Himg.
      repeat (apply elem_of_cons in Himg as [->|Himg]);
        try (by apply elem_of_nil in Himg);
        repeat (apply elem_of_cons in Htext as [Htext|Htext]; [discriminate|]);
        by apply elem_of_nil in Htext.
    - rewrite <- isOneOf_elem.
      by destruct (isOneOf (extension assetPath) ["png"; "jpg"; "jpeg"; "gif"; "webp"; "ico"]). }
  split; [exact Hiff|]. split; [|split; [|split]].
  - unfold getResponseType.
    destruct (isOneOf _ ["js"; "css"; "html"; "xml"; "json"]); [done|].
    by destruct (isOneOf _ ["png"; "jpg"; "jpeg"; "gif"; "webp"; "ico"]).
  - intros Himg%Hiff. unfold getContentType.
    repeat (apply elem_of_cons in Himg as [->|Himg]);
      try (by apply elem_of_nil in Himg); eexists; reflexivity.
  - apply extension_after_dot.
  - apply extension_no_dot.
Qed.

(** *** Time to live of assets *)

Lemma orNumber_nonzero a b : b ≠ 0%Z → orNumber a b ≠ 0%Z.
Proof. destruct a as [n|]; cbn; [|done]. by destruct (Z.eqb_spec n 0). Qed.

Lemma getAssetCacheTtl_nonzero (providerConfig : Provider) (assetPath : string) :
  getAssetCacheTtl providerConfig assetPath ≠ 0%Z.
Proof.
  unfold getAssetCacheTtl.
  repeat match goal with |- context [if ?b then _ else _] => destruct b end;
    by apply orNumber_nonzero.
Qed.


(** *** The headers of the upstream request *)

(** X16. The headers of the upstream request: [Referer] is always set,
    to the client's when non-empty and else to [https://kakbet.com];
    [User-Agent] and [Accept-Encoding] are the client's when non-empty and
    else the provider's; every other header is the provider's, whatever the
    client sent. *)
Theorem upstream_request_headers (providerConfig : Provider) (requestHeaders : RequestHeaders) :
  let headers := prepareHeaders providerConfig requestHeaders in
  prop "Referer" headers
  = Some (Some (orString (referer requestHeaders) "https://kakbet.com"))
  ∧ prop "User-Agent" headers
    = Some (if truthyString (userAgent requestHeaders) then userAgent requestHeaders
            else prop "User-Agent" (p_headers providerConfig))
  ∧ prop "Accept-Encoding" headers
    = (if truthyString (acceptEncoding requestHeaders)
       then Some (acceptEncoding requestHeaders)
       else Some <$> prop "Accept-Encoding" (p_headers providerConfig))
  ∧ (∀ name, name ∉ ["User-Agent"; "Referer"; "Accept-Encoding"] →
       prop name headers = Some <$> prop name (p_headers providerConfig)).
Proof.
  intros headers. subst headers. unfold prepareHeaders.
  set (ua := if truthyString (userAgent requestHeaders) then _ else _).
  set (spread := map _ (p_headers providerConfig)).
  assert (∀ name, prop name spread = Some <$> prop name (p_headers providerConfig)) as Hspread.
  { intros name. apply (prop_fmap Some). }
  destruct (truthyString (acceptEncoding requestHeaders)); repeat split;
    try (intros name Hname; rewrite !not_elem_of_cons in Hname;
         destruct Hname as (? & ? & ? & _));
    rewrite ?prop_setProp_eq;
    repeat (rewrite prop_setProp_ne by done; rewrite ?prop_setProp_eq);
    done.
Qed.

(** *** Assets: hits, misses and expiry *)

Lemma proxyAsset_miss_fetches cfg network now provider assetPath rh st pc :
  prop provider (providers cfg) = Some pc →
  CacheStore.get now (assetCacheKey provider assetPath) (cache st) = None →
  length (fetched (snd (proxyAsset cfg network now provider assetPath rh st)))
  = S (length (fetched st)).
Proof.
  intros Hp Hmiss. unfold proxyAsset. rewrite Hp, Hmiss.
  destruct (httpClient_get _); cbn; rewrite length_app; cbn; lia.
Qed.

(** X17. Assets are cached like widgets.  For a configured provider and
    without a live entry for the key, an asset request that returns a
    result makes one upstream request and stores the result under the asset
    key with the time to live of the asset, which is not 0; within that
    time an identical request returns the stored result without an upstream
    request and without a change of state; after it, an identical request
    makes a second upstream request. *)
Theorem asset_hit_then_refetch cfg network provider pc assetPath rh1 t1 st0 r1 st1 :
  prop provider (providers cfg) = Some pc →
  CacheStore.get t1 (assetCacheKey provider assetPath) (cache st0) = None →
  proxyAsset cfg network t1 provider assetPath rh1 st0 = (Returned r1, st1) →
  ∃ e,
    cache st1 !! assetCacheKey provider assetPath = Some e
    ∧ CacheStore.entry_value e = r1
    ∧ CacheStore.entry_ttl e = getAssetCacheTtl pc assetPath
    ∧ CacheStore.entry_ttl e ≠ 0%Z
    ∧ length (fetched st1) = S (length (fetched st0))
    ∧ (∀ t2 rh2, CacheStore.expired t2 e = false →
         proxyAsset cfg network t2 provider assetPath rh2 st1 = (Returned r1, st1))
    ∧ (∀ t3 rh3, CacheStore.expired t3 e = true →
         length (fetched (snd (proxyAsset cfg network t3 provider assetPath rh3 st1)))
         = S (S (length (fetched st0)))).
Proof.
  intros Hp Hcold Hfirst. unfold proxyAsset in Hfirst. rewrite Hp, Hcold in Hfirst.
  destruct (httpClient_get _) as [response|err] eqn:Hget in Hfirst; [|done].
  injection Hfirst as <- <-.
  eexists. split; [apply get_set_same|].
  split; [done|]. split; [done|].
  split; [apply getAssetCacheTtl_nonzero|].
  split; [cbn; rewrite length_app; cbn; lia|].
  split.
  - intros t2 rh2 Hlive. unfold proxyAsset. rewrite Hp.
    by erewrite get_live; [| apply get_set_same | done].
  - intros t3 rh3 Hexp.
    erewrite (proxyAsset_miss_fetches _ _ _ _ _ _ _ pc Hp).
    + cbn. rewrite length_app; cbn; lia.
    + by erewrite get_expired; [| apply get_set_same | done].
Qed.

Lemma asset_hit_then_refetch_witness :
  ∃ e,
    cache (snd (proxyAsset defaultConfig Fixture.upstream_ok 1000 "sportradar"
                  "/assets/js/chunk.1.js" Fixture.noHeaders Fixture.cold))
      !! assetCacheKey "sportradar" "/assets/js/chunk.1.js" = Some e
    ∧ CacheStore.entry_ttl e = 1800%Z.
Proof.
  destruct (asset_hit_then_refetch defaultConfig Fixture.upstream_ok "sportradar" _
              "/assets/js/chunk.1.js" Fixture.noHeaders 1000 Fixture.cold _ _
              eq_refl eq_refl eq_refl) as (e & He & _ & Httl & _).
  exists e. split; [exact He|]. rewrite Httl. reflexivity.
Defined.
End ServicePolicies.

(** ** The invariant of the cache *)

Section ServiceInvariant.
Import JsText Json ProxyService ProxyRouter Session.
Implicit Types (cfg : Config) (network : Network) (st : State).





















End ServiceInvariant.

(** ** Keys, statuses and routes *)

Section KeyFacts.
Import JsText Json ProxyService ProxyRouter.
Implicit Types (cfg : Config) (network : Network) (st : State).

(** Two texts that agree up to and after their first separator. *)
Lemma first_separator {A} (sep : A) (a a' r r' : list A) :
  sep ∉ a → sep ∉ a' → a ++ sep :: r = a' ++ sep :: r' → a = a' ∧ r = r'.
Proof.
  revert a'. induction a as [|c a IH]; intros [|c' a'] Ha Ha'; cbn.
  - by intros [= ->].
  - intros [= <- _]. by apply not_elem_of_cons in Ha' as [? _].
  - intros [= -> _]. by apply not_elem_of_cons in Ha as [? _].
  - intros [= -> Heq]. apply not_elem_of_cons in Ha as [_ Ha].
    apply not_elem_of_cons in Ha' as [_ Ha'].
    destruct (IH a' Ha Ha' Heq) as [-> ->]. done.
Qed.

Lemma colon_split (a a' r r' : string) :
  ":"%char ∉ String.list_ascii_of_string a → ":"%char ∉ String.list_ascii_of_string a' →
  a +:+ ":" +:+ r = a' +:+ ":" +:+ r' → a = a' ∧ r = r'.
Proof.
  intros Ha Ha' Heq. apply (f_equal String.list_ascii_of_string) in Heq.
  rewrite !chars_app in Heq.
  change (String.list_ascii_of_string ":") with [":"%char] in Heq. cbn [app] in Heq.
  destruct (first_separator _ _ _ _ _ Ha Ha' Heq) as [H1 H2].
  split; by apply chars_inj.
Qed.

(** X20. Widget cache keys separate requests as long as no provider name
    and no widget type contains a colon: equal keys then mean the same
    provider, the same widget type and the same query parameters. *)
Theorem widget_key_injective provider1 provider2 widgetType1 widgetType2
    (query1 query2 : list (string * json)) :
  ":"%char ∉ String.list_ascii_of_string provider1 →
  ":"%char ∉ String.list_ascii_of_string provider2 →
  ":"%char ∉ String.list_ascii_of_string widgetType1 →
  ":"%char ∉ String.list_ascii_of_string widgetType2 →
  widgetCacheKey provider1 widgetType1 query1 = widgetCacheKey provider2 widgetType2 query2 →
  provider1 = provider2 ∧ widgetType1 = widgetType2 ∧ query1 = query2.
Proof.
  intros Hp1 Hp2 Hw1 Hw2. unfold widgetCacheKey. intros Heq.
  apply append_inj_l in Heq.
  apply colon_split in Heq as [-> Heq]; [|done..].
  apply colon_split in Heq as [-> Heq]; [|done..].
  by apply stringify_inj in Heq as [= ->].
Qed.

Lemma widget_key_injective_witness :
  "sportradar" = "sportradar" ∧ "match.lmtPlus" = "match.lmtPlus"
  ∧ Fixture.matchQuery = Fixture.matchQuery.
Proof.
  apply (widget_key_injective "sportradar" "sportradar" "match.lmtPlus" "match.lmtPlus"
           Fixture.matchQuery Fixture.matchQuery);
    first [ reflexivity | apply (bool_decide_unpack _); vm_compute; exact I ].
Defined.

(** Without the condition two requests share a key. *)
Lemma widget_key_collision :
  widgetCacheKey "a:b" "c" [] = widgetCacheKey "a" "b:c" [].
Proof. reflexivity. Qed.

(** X21. Asset cache keys separate requests: the provider of a route
    contains no slash and the asset path starts with one, so equal keys
    mean the same provider and the same path; and no asset key is a widget
    key. *)
Theorem asset_key_injective provider1 provider2 rest1 rest2 widgetType
    (query : list (string * json)) :
  "/"%char ∉ String.list_ascii_of_string provider1 →
  "/"%char ∉ String.list_ascii_of_string provider2 →
  (assetCacheKey provider1 ("/" +:+ rest1) = assetCacheKey provider2 ("/" +:+ rest2) →
   provider1 = provider2 ∧ rest1 = rest2)
  ∧ assetCacheKey provider1 ("/" +:+ rest1) ≠ widgetCacheKey provider2 widgetType query.
Proof.
  intros Hp1 Hp2. split; [|done].
  unfold assetCacheKey. intros Heq. apply append_inj_l in Heq.
  apply (f_equal String.list_ascii_of_string) in Heq. rewrite !chars_app in Heq.
  change (String.list_ascii_of_string ":") with [":"%char] in Heq.
  change (String.list_ascii_of_string "/") with ["/"%char] in Heq.
  cbn [app] in Heq.
  destruct (first_separator "/"%char
              (String.list_ascii_of_string provider1 ++ [":"%char])
              (String.list_ascii_of_string provider2 ++ [":"%char])
              (String.list_ascii_of_string rest1) (String.list_ascii_of_string rest2))
    as [Hp Hr].
  - rewrite not_elem_of_app. split; [done|].
    apply not_elem_of_cons; split; [done | apply not_elem_of_nil].
  - rewrite not_elem_of_app. split; [done|].
    apply not_elem_of_cons; split; [done | apply not_elem_of_nil].
  - rewrite <- !(assoc_L (++)). exact Heq.
  - apply app_inj_tail in Hp as [Hp _]. split; by apply chars_inj.
Qed.

Lemma asset_key_injective_witness :
  assetCacheKey "sportradar" "/assets/a.js"
  ≠ widgetCacheKey "sportradar" "match.lmtPlus" Fixture.matchQuery.
Proof.
  apply (proj2 (asset_key_injective "sportradar" "sportradar" "assets/a.js" "assets/a.js"
                  "match.lmtPlus" Fixture.matchQuery
                  ltac:(apply (bool_decide_unpack _); vm_compute; exact I)
                  ltac:(apply (bool_decide_unpack _); vm_compute; exact I))).
Defined.

(** *** Upstream statuses *)

(** X22. What the widget route does with the upstream status, on a cache
    miss for a configured provider and widget type.  A status below 500,
    a 404 included, is relayed with the upstream data and the result is
    cached with the time to live of scripts; a status of 500 or more is
    answered 500 with the JSON error body and nothing is cached.  Either
    way one upstream request is made. *)
Theorem upstream_status_relayed cfg network now provider widgetType query rh st pc wc response :
  prop provider (providers cfg) = Some pc →
  prop widgetType (widgetTypes pc) = Some wc →
  CacheStore.get now (widgetCacheKey provider widgetType query) (cache st) = None →
  (∀ request, reply (network now request) = NetAnswer response) →
  let out := widgetHandler cfg network now provider widgetType query rh st in
  ((response_status response < 500)%Z →
   reply_status (fst out) = response_status response
   ∧ reply_body (fst out) = Sent (response_data response)
   ∧ ∃ e, cache (snd out) !! widgetCacheKey provider widgetType query = Some e
          ∧ status (CacheStore.entry_value e) = response_status response
          ∧ CacheStore.entry_ttl e
            = orNumber (p_cache pc ≫= scripts) (defaultTtl (cacheOptions cfg)))
  ∧ ((500 <= response_status response)%Z →
     reply_status (fst out) = 500%Z
     ∧ (∃ j, reply_body (fst out) = JsonBody j)
     ∧ cache (snd out) = cache st)
  ∧ length (fetched (snd out)) = S (length (fetched st)).
Proof.
  intros Hp Hw Hmiss Hnet out. subst out.
  unfold widgetHandler, proxyWidget. rewrite Hp, Hw, Hmiss, Hnet.
  unfold httpClient_get, validateStatus.
  destruct (Z.ltb_spec (response_status response) 500) as [Hlt|Hge]; cbn [fst snd].
  - split; [|split]; [|lia|cbn; rewrite length_app; cbn; lia].
    intros _. split; [done|]. split; [done|].
    eexists. split; [apply get_set_same|]. done.
  - split; [lia|]. split; [|cbn; rewrite length_app; cbn; lia].
    intros _. split; [done|]. split; [by eexists | done].
Qed.

Lemma upstream_status_relayed_witness :
  reply_status (fst (widgetHandler defaultConfig (Scenario.answering 404) 1000 "sportradar"
                       "match.lmtPlus" Fixture.matchQuery Fixture.noHeaders Fixture.cold))
  = 404%Z
  ∧ reply_status (fst (widgetHandler defaultConfig (Scenario.answering 503) 1000 "sportradar"
                         "match.lmtPlus" Fixture.matchQuery Fixture.noHeaders Fixture.cold))
    = 500%Z.
Proof.
  split.
  - exact (proj1 (proj1 (upstream_status_relayed defaultConfig (Scenario.answering 404) 1000
                    "sportradar" "match.lmtPlus" Fixture.matchQuery Fixture.noHeaders
                    Fixture.cold _ _ _ eq_refl eq_refl eq_refl (fun _ => eq_refl))
                    eq_refl)).
  - exact (proj1 (proj1 (proj2 (upstream_status_relayed defaultConfig
                    (Scenario.answering 503) 1000
                    "sportradar" "match.lmtPlus" Fixture.matchQuery Fixture.noHeaders
                    Fixture.cold _ _ _ eq_refl eq_refl eq_refl (fun _ => eq_refl)))
                    ltac:(discriminate))).
Defined.

(** *** Clearing the cache *)

Lemma get_flush {V} now key (m : gmap string (CacheStore.Entry V)) :
  CacheStore.get now key (CacheStore.flush m) = None.
Proof. unfold CacheStore.get, CacheStore.flush. by rewrite lookup_empty. Qed.

(** X23. Clearing the cache empties it and keeps what was fetched; the
    next widget request and the next asset request for a configured
    provider make an upstream request, whatever was cached before. *)
Theorem clearCache_forces_refetch cfg network now provider pc widgetType wc assetPath query
    rh st :
  prop provider (providers cfg) = Some pc →
  prop widgetType (widgetTypes pc) = Some wc →
  getCacheStats (clearCache st) = 0
  ∧ fetched (clearCache st) = fetched st
  ∧ length (fetched (snd (proxyWidget cfg network now provider widgetType query rh
                            (clearCache st)))) = S (length (fetched st))
  ∧ length (fetched (snd (proxyAsset cfg network now provider assetPath rh
                            (clearCache st)))) = S (length (fetched st)).
Proof.
  intros Hp Hw. split; [done|]. split; [done|]. split.
  - erewrite proxyWidget_miss_fetches; [done | done | done | apply get_flush].
  - unfold proxyAsset. rewrite Hp. cbn [clearCache cache]. rewrite get_flush.
    destruct (httpClient_get _); cbn; rewrite length_app; cbn; lia.
Qed.

Lemma clearCache_forces_refetch_witness :
  getCacheStats
    (clearCache (snd (proxyWidget defaultConfig Fixture.upstream_ok 1000 "sportradar"
                        "match.lmtPlus" Fixture.matchQuery Fixture.noHeaders Fixture.cold)))
  = 0.
Proof.
  exact (proj1 (clearCache_forces_refetch defaultConfig Fixture.upstream_ok 2000 "sportradar"
                  _ "match.lmtPlus" _ "/assets/a.js" Fixture.matchQuery Fixture.noHeaders
                  (snd (proxyWidget defaultConfig Fixture.upstream_ok 1000 "sportradar"
                          "match.lmtPlus" Fixture.matchQuery Fixture.noHeaders Fixture.cold))
                  eq_refl eq_refl)).
Defined.

(** *** The two asset routes *)

End KeyFacts.

(** ** The preview page *)

Section RegexFacts.
Import JsText Http Server Routing Pages.
Implicit Types (s t u before r : jsstring) (m : jsstring → option nat).

(** *** The scan *)

Lemma regexReplace_scan_fuel m r n1 n2 before s :
  length s ≤ n1 → length s ≤ n2 →
  regexReplace_scan m r n1 before s = regexReplace_scan m r n2 before s.
Proof.
  revert n2 before s. induction n1 as [|n1 IH]; intros n2 before s H1 H2.
  - destruct s; [|cbn in H1; lia]. by destruct n2.
  - destruct n2 as [|n2]; [destruct s; [done | cbn in H2; lia]|].
    destruct s as [|c s']; [done|]. cbn [regexReplace_scan].
    destruct (m (c :: s')) as [[|len]|].
    + f_equal. apply IH; cbn in *; lia.
    + f_equal. apply IH; cbn [drop] in *; rewrite length_drop; cbn in *; lia.
    + f_equal. apply IH; cbn in *; lia.
Qed.


Lemma scanFrom_nil m r before : scanFrom m r before [] = [].
Proof. done. Qed.

Lemma scanFrom_match m r before c s' len :
  m (c :: s') = Some (S len) →
  scanFrom m r before (c :: s')
  = getSubstitution (take (S len) (c :: s')) before (drop (S len) (c :: s')) r
    ++ scanFrom m r (before ++ take (S len) (c :: s')) (drop (S len) (c :: s')).
Proof.
  intros Hm. unfold scanFrom. cbn [length regexReplace_scan]. rewrite Hm. f_equal.
  apply regexReplace_scan_fuel; [|done]. cbn [drop]. rewrite length_drop. lia.
Qed.


Lemma scanFrom_skip m r before c s' :
  m (c :: s') = None ∨ m (c :: s') = Some 0 →
  scanFrom m r before (c :: s') = c :: scanFrom m r (before ++ [c]) s'.
Proof.
  intros Hm. unfold scanFrom. cbn [length regexReplace_scan].
  by destruct Hm as [-> | ->].
Qed.


(** A replacement without a dollar sign stands for itself. *)
Lemma getSubstitution_plain matched before after r :
  36%N ∉ r → getSubstitution matched before after r = r.
Proof.
  induction r as [|c r IH]; [done|]. intros [Hc Hr]%not_elem_of_cons.
  cbn [getSubstitution]. destruct (N.eqb_spec c 36) as [->|_]; [done|].
  by rewrite IH.
Qed.

(** *** Spans *)

Lemma span_le P s : span P s ≤ length s.
Proof. induction s as [|c s IH]; cbn; [lia|]. destruct (P c); cbn; lia. Qed.

Lemma span_app_stop P u c x : P c = false → span P (u ++ c :: x) = span P u.
Proof.
  intros Hc. induction u as [|d u IH]; cbn; [by rewrite Hc|].
  destruct (P d); by rewrite ?IH.
Qed.

Lemma span_all P u : Forall (fun c => P c = true) u → span P u = length u.
Proof. induction 1 as [|c u Hc _ IH]; cbn; [done|]. by rewrite Hc, IH. Qed.

Lemma span_app_all P u x :
  Forall (fun c => P c = true) u → span P (u ++ x) = length u + span P x.
Proof. induction 1 as [|c u Hc _ IH]; cbn; [done|]. by rewrite Hc, IH. Qed.

Lemma startsWith_length {A} `{EqDecision A} (p s : list A) :
  startsWith p s = true → length p ≤ length s.
Proof. intros [k ->]%startsWith_prefix. rewrite length_app. lia. Qed.

(** A pattern that does not contain a unit cannot see past it. *)
Lemma startsWith_stop {A} `{EqDecision A} (p u : list A) c x :
  c ∉ p → startsWith p (u ++ c :: x) = startsWith p u.
Proof.
  revert u. induction p as [|a p IH]; intros u Hc; [done|].
  apply not_elem_of_cons in Hc as [Hne Hc].
  destruct u as [|b u]; cbn.
  - by rewrite decide_False.
  - destruct (decide (a = b)); [by apply IH | done].
Qed.

Lemma regexReplace_scan_before m r n b1 b2 s :
  36%N ∉ r → regexReplace_scan m r n b1 s = regexReplace_scan m r n b2 s.
Proof.
  intros Hr. revert b1 b2 s. induction n as [|n IH]; intros b1 b2 s; [done|].
  destruct s as [|c s']; [done|]. cbn [regexReplace_scan].
  destruct (m (c :: s')) as [[|len]|].
  - f_equal. apply IH.
  - rewrite !getSubstitution_plain by done. f_equal. apply IH.
  - f_equal. apply IH.
Qed.

Lemma scanFrom_before m r b1 b2 s : 36%N ∉ r → scanFrom m r b1 s = scanFrom m r b2 s.
Proof. apply regexReplace_scan_before. Qed.

(** *** The match id expression *)

Lemma matchMatchId_head s n : matchMatchId s = Some n → ∃ s', s = 109%N :: s'.
Proof.
  destruct s as [|c s0]; [done|]. cbn [matchMatchId].
  destruct (N.eqb_spec c 109) as [->|]; [by eexists | done].
Qed.

Lemma matchMatchId_other c s : c ≠ 109%N → matchMatchId (c :: s) = None.
Proof.
  intros Hc. destruct (matchMatchId (c :: s)) as [n|] eqn:Hm; [|done].
  apply matchMatchId_head in Hm as [s' [= -> _]]. done.
Qed.

(** The expression cannot see past the next [m]. *)
Lemma matchMatchId_blind c u x :
  109%N ∉ u → matchMatchId (c :: u ++ 109%N :: x) = matchMatchId (c :: u).
Proof.
  intros Hu. cbn [matchMatchId].
  rewrite (startsWith_stop (lit "atchId") u 109%N x)
    by (apply (bool_decide_unpack _); by vm_compute).
  destruct (startsWith (lit "atchId") u) eqn:Hlit; [|by rewrite !andb_false_r].
  destruct (c =? 109)%N; [cbn [andb]|done].
  apply startsWith_length in Hlit. change (length (lit "atchId")) with 6 in Hlit.
  rewrite drop_app_le by done.
  set (r1 := drop 6 u).
  assert (109%N ∉ r1) as Hr1.
  { intros Hin. apply Hu. eapply elem_of_suffix; [exact Hin | apply suffix_drop]. }
  rewrite (span_app_stop isSpace r1 109%N x) by done.
  pose proof (span_le isSpace r1) as Hw1. rewrite drop_app_le by done.
  destruct (drop (span isSpace r1) r1) as [|colon r2] eqn:Hr2; cbn [app]; [done|].
  destruct (colon =? 58)%N; [|done].
  assert (109%N ∉ r2) as Hnr2.
  { intros Hin. apply Hr1. eapply elem_of_suffix; [|apply (suffix_drop _ (span isSpace r1))].
    rewrite Hr2. by right. }
  rewrite (span_app_stop isSpace r2 109%N x) by done.
  pose proof (span_le isSpace r2) as Hw2. rewrite drop_app_le by done.
  by rewrite (span_app_stop isDigit _ 109%N x).
Qed.

(** After a match comes no digit, and the match lies within the text. *)
Lemma drop_span_stop P s : span P (drop (span P s) s) = 0.
Proof.
  induction s as [|c s IH]; cbn; [done|].
  destruct (P c) eqn:Hc; cbn; [done | by rewrite Hc].
Qed.

Lemma matchMatchId_shape s n :
  matchMatchId s = Some n →
  0 < n ∧ n ≤ length s ∧ span isDigit (drop n s) = 0.
Proof.
  destruct s as [|c s0]; [done|]. cbn [matchMatchId].
  destruct ((c =? 109)%N && startsWith (lit "atchId") s0) eqn:Hhead; [|done].
  apply andb_true_iff in Hhead as [_ Hlit%startsWith_length].
  change (length (lit "atchId")) with 6 in Hlit.
  set (r1 := drop 6 s0). set (w1 := span isSpace r1).
  destruct (drop w1 r1) as [|colon r2] eqn:Hr2; [done|].
  destruct (colon =? 58)%N; [|done].
  set (w2 := span isSpace r2). set (d := span isDigit (drop w2 r2)).
  destruct (0 <? d) eqn:Hd; [|done]. intros [= <-].
  apply Nat.ltb_lt in Hd.
  assert (drop (w1 + 1 + w2 + d) r1 = drop d (drop w2 r2)) as Hdrop.
  { rewrite <- !drop_drop. fold w1. rewrite Hr2. done. }
  assert (length r1 = length s0 - 6) as Hlen1 by (unfold r1; by rewrite length_drop).
  assert (w1 + 1 + w2 + d ≤ length r1) as Hle.
  { pose proof (span_le isDigit (drop w2 r2)) as H1. fold d in H1.
    rewrite length_drop in H1.
    apply (f_equal length) in Hr2. rewrite length_drop in Hr2. cbn in Hr2. lia. }
  split; [lia|]. split; [cbn; lia|].
  change (span isDigit (drop (6 + (w1 + 1 + w2 + d)) s0) = 0).
  rewrite <- drop_drop. fold r1. rewrite Hdrop. apply drop_span_stop.
Qed.

(** The field that the replacement writes matches as a whole when no digit
    follows it. *)
Lemma matchMatchId_field (digits t : jsstring) :
  digits ≠ [] → Forall (fun c => isDigit c = true) digits → span isDigit t = 0 →
  matchMatchId (lit "matchId:" ++ digits ++ t) = Some (length (lit "matchId:" ++ digits)).
Proof.
  intros Hne Hd Ht. change (lit "matchId:" ++ digits ++ t)
    with (109%N :: lit "atchId" ++ 58%N :: digits ++ t).
  cbn [matchMatchId]. rewrite N.eqb_refl, startsWith_app. cbn [andb].
  rewrite drop_app_length'; [|done].
  change (span isSpace (58%N :: digits ++ t)) with 0. cbn [drop].
  rewrite N.eqb_refl.
  assert (span isSpace (digits ++ t) = 0) as ->.
  { destruct digits as [|c digits]; [done|]. cbn. apply Forall_cons in Hd as [Hc _].
    unfold isDigit in Hc. apply andb_true_iff in Hc as [H1%N.leb_le H2%N.leb_le].
    unfold isSpace.
    repeat match goal with
           | |- context [(?a <=? ?b)%N] => destruct (N.leb_spec a b); try lia
           | |- context [(?a =? ?b)%N] => destruct (N.eqb_spec a b); try lia
           end; done. }
  change (drop 0 (digits ++ t)) with (digits ++ t). rewrite span_app_all, Ht by done.
  destruct digits as [|c digits]; [done|]. cbn [length]. rewrite length_app. cbn. f_equal. lia.
Qed.




(** *** The replacement of the match id, for an id made of digits *)

Section Digits.
Variable digits : jsstring.
Hypothesis digits_ne : digits ≠ [].
Hypothesis digits_ok : Forall (fun c => isDigit c = true) digits.

Let field : jsstring := lit "matchId:" ++ digits.
Let F (s : jsstring) : jsstring := scanFrom matchMatchId field [] s.

Lemma isDigit_range c : isDigit c = true → (48 ≤ c ≤ 57)%N.
Proof. unfold isDigit. intros [?%N.leb_le ?%N.leb_le]%andb_true_iff. lia. Qed.

Lemma field_tail : Forall (fun c => c ≠ 109%N) (tail field).
Proof using digits_ok.
  unfold field. change (tail (lit "matchId:" ++ digits)) with (lit "atchId:" ++ digits).
  apply Forall_app. split.
  - apply (bool_decide_unpack _). by vm_compute.
  - eapply Forall_impl; [exact digits_ok|]. intros c Hc%isDigit_range. lia.
Qed.

Lemma field_plain : 36%N ∉ field.
Proof using digits_ok.
  unfold field. rewrite not_elem_of_app. split.
  - apply (bool_decide_unpack _). by vm_compute.
  - intros Hin. rewrite Forall_forall in digits_ok.
    apply digits_ok, isDigit_range in Hin. lia.
Qed.

Lemma F_match s n : matchMatchId s = Some n → F s = field ++ F (drop n s).
Proof using digits_ok.
  intros Hm. pose proof (matchMatchId_shape _ _ Hm) as (Hpos & _ & _).
  destruct n as [|len]; [lia|]. destruct s as [|c s']; [done|].
  unfold F. rewrite (scanFrom_match _ _ _ _ _ _ Hm).
  rewrite getSubstitution_plain by apply field_plain. f_equal.
  apply scanFrom_before, field_plain.
Qed.

Lemma F_skip c s : matchMatchId (c :: s) = None → F (c :: s) = c :: F s.
Proof using digits_ok.
  intros Hm. unfold F. rewrite scanFrom_skip by by left. f_equal.
  apply scanFrom_before, field_plain.
Qed.

Lemma F_prefix u t : 109%N ∉ u → F (u ++ t) = u ++ F t.
Proof using digits_ok.
  induction u as [|c u IH]; [done|]. intros [Hc Hu]%not_elem_of_cons.
  cbn [app]. rewrite F_skip by (apply matchMatchId_other; congruence).
  by rewrite IH.
Qed.

Lemma F_head x : ∃ y, F (109%N :: x) = 109%N :: y.
Proof using digits_ok.
  destruct (matchMatchId (109%N :: x)) as [n|] eqn:Hm.
  - rewrite (F_match _ _ Hm). by eexists.
  - rewrite F_skip by done. by eexists.
Qed.

Lemma F_no_digit t : span isDigit t = 0 → span isDigit (F t) = 0.
Proof using digits_ok.
  destruct t as [|c t]; [done|]. cbn [span].
  destruct (isDigit c) eqn:Hc; [done|]. intros _.
  destruct (matchMatchId (c :: t)) as [n|] eqn:Hm.
  - by rewrite (F_match _ _ Hm).
  - rewrite F_skip by done. cbn. by rewrite Hc.
Qed.

Lemma split_at_m s :
  ∃ u rest, s = u ++ rest ∧ (109%N ∉ u) ∧ (rest = [] ∨ ∃ x, rest = 109%N :: x).
Proof.
  induction s as [|c s (u & rest & -> & Hu & Hrest)].
  - exists [], []. split; [done|]. split; [apply not_elem_of_nil | by left].
  - destruct (decide (c = 109%N)) as [->|Hc].
    + exists [], (109%N :: u ++ rest). split; [done|].
      split; [apply not_elem_of_nil | right; by eexists].
    + exists (c :: u), rest. split; [done|]. split; [|done].
      apply not_elem_of_cons. split; [congruence | done].
Qed.

(** The rewrite does not change what the expression sees from a position
    on. *)
Lemma F_blind c s : matchMatchId (c :: F s) = matchMatchId (c :: s).
Proof using digits_ok.
  destruct (split_at_m s) as (u & rest & -> & Hu & [->|[x ->]]).
  - by rewrite F_prefix.
  - rewrite F_prefix by done. destruct (F_head x) as [y ->].
    by rewrite !matchMatchId_blind.
Qed.

Lemma F_settled s : settled field (F s).
Proof using digits_ne digits_ok.
  remember (length s) as k eqn:Hk. revert s Hk.
  induction k as [k IH] using lt_wf_ind. intros s ->.
  destruct s as [|c s'].
  { intros a b n Hab. symmetry in Hab. apply app_eq_nil in Hab as [_ ->]. done. }
  destruct (matchMatchId (c :: s')) as [n|] eqn:Hm.
  - pose proof (matchMatchId_shape _ _ Hm) as (Hpos & Hle & Hnext).
    rewrite (F_match _ _ Hm). set (t := drop n (c :: s')) in *.
    assert (settled field (F t)) as IHt.
    { apply (IH (length t)); [|done]. unfold t. rewrite length_drop. cbn in *. lia. }
    intros a b j Hab Hb.
    apply app_eq_inv in Hab as [(l & Ha & Hl)|(l & Ha & Hl)].
    + (* the position lies in the field *)
      destruct a as [|a0 a].
      * change ([] ++ l) with l in Ha. subst l. subst b.
        unfold field in Hb |- *. rewrite <- (assoc_L (++)) in Hb.
        rewrite matchMatchId_field in Hb; [|done..|by apply F_no_digit].
        assert (j = length (lit "matchId:" ++ digits)) as -> by congruence.
        by rewrite take_app_length.
      * destruct l as [|l0 l].
        { change ([] ++ F t) with (F t) in Hl. subst b. by apply (IHt [] (F t) j). }
        exfalso. pose proof field_tail as Htail. rewrite Ha in Htail.
        change (tail ((a0 :: a) ++ l0 :: l)) with (a ++ l0 :: l) in Htail.
        apply Forall_app in Htail as [_ [Hl0 _]%Forall_cons].
        subst b. change ((l0 :: l) ++ F t) with (l0 :: l ++ F t) in Hb.
        by rewrite matchMatchId_other in Hb.
    + (* the position lies after the field *)
      by apply (IHt l b j).
  - rewrite F_skip by done. intros a b j Hab Hb.
    destruct a as [|a0 a].
    + cbn in Hab. subst b. rewrite F_blind in Hb. congruence.
    + injection Hab as <- Hab. eapply (IH (length s')); [cbn; lia | done | exact Hab | exact Hb].
Qed.

Lemma settled_suffix out a b : out = a ++ b → settled field out → settled field b.
Proof. intros -> Hs a' b' n ->. apply (Hs (a ++ a')). by rewrite (assoc_L (++)). Qed.

Lemma settled_fixed out : settled field out → F out = out.
Proof using digits_ok.
  remember (length out) as k eqn:Hk. revert out Hk.
  induction k as [k IH] using lt_wf_ind. intros out -> Hs.
  destruct out as [|c o']; [done|].
  destruct (matchMatchId (c :: o')) as [n|] eqn:Hm.
  - pose proof (matchMatchId_shape _ _ Hm) as (Hpos & Hle & _).
    rewrite (F_match _ _ Hm). rewrite <- (Hs [] (c :: o') n eq_refl Hm).
    rewrite (IH (length (drop n (c :: o')))); [apply take_drop | | done |].
    + rewrite length_drop. cbn in *. lia.
    + apply (settled_suffix (c :: o') (take n (c :: o'))); [by rewrite take_drop | done].
  - rewrite F_skip by done. f_equal.
    apply (IH (length o')); [cbn; lia | done |].
    by apply (settled_suffix (c :: o') [c]).
Qed.
End Digits.
End RegexFacts.

Section PageProperties.
Import JsText Http Server Routing Pages.




(** X26. The match ids of the preview page.  For a requested match id
    made of digits, every text of the served page that the match id
    expression matches is the field [matchId:<id>] with the requested id,
    and replacing the match ids once more changes nothing. *)
Theorem preview_match_ids_settled (matchId : string) (html : jsstring) :
  matchId ≠ "" → Forall (fun c => isDigit c = true) (lit matchId) →
  settled (matchIdField matchId) (previewBody matchId html)
  ∧ regexReplace matchMatchId (matchIdField matchId) (previewBody matchId html)
    = previewBody matchId html.
Proof.
  intros Hne Hd.
  assert (lit matchId ≠ []) as Hne' by (by destruct matchId).
  assert (settled (matchIdField matchId) (previewBody matchId html)) as Hs.
  { unfold previewBody. by apply F_settled. }
  split; [exact Hs|]. by apply (settled_fixed (lit matchId)).
Qed.

Lemma preview_match_ids_settled_witness :
  regexReplace matchMatchId (matchIdField "123")
    (previewBody "123" (lit "SIR('addWidget',{matchId : 7})"))
  = previewBody "123" (lit "SIR('addWidget',{matchId : 7})").
Proof.
  apply (preview_match_ids_settled "123" (lit "SIR('addWidget',{matchId : 7})")).
  - discriminate.
  - apply (bool_decide_unpack _). vm_compute. exact I.
Defined.
End PageProperties.

(** ** What the server writes *)

Section ServeProperties.
Import JsText Http Server Routing Pages.

Lemma respondLocal_fixed rt timestamp req route resp :
  respondLocal rt timestamp req route = Some resp → fixedHeaders resp.
Proof.
  intros Hr k v Hin. unfold corsHeaders in Hin.
  destruct route; cbn [respondLocal] in Hr; try done; injection Hr as <-;
    repeat (apply elem_of_cons in Hin as [[= -> ->]|Hin]);
    try (by apply elem_of_nil in Hin); reflexivity.
Qed.

Lemma proxied_fixed rt e network targetUrl req rewrite :
  fixedHeaders (snd (proxyRequest rt e network targetUrl req rewrite))
  ∨ (∃ proxyRes,
       network (clientRequest targetUrl req) = UpstreamResponse proxyRes
       ∧ rewrite = false
       ∧ snd (proxyRequest rt e network targetUrl req rewrite) = onResponse rt false proxyRes).
Proof.
  unfold proxyRequest.
  destruct (network (clientRequest targetUrl req)) as [message|proxyRes] eqn:Hnet;
    cbn [snd].
  - left. intros k v. apply cors_present.
  - destruct rewrite; [left | right; by exists proxyRes].
    intros k v Hin. rewrite onResponse_transform_headers; [by apply cors_present|..];
      unfold corsHeaders in Hin;
      repeat (apply elem_of_cons in Hin as [[= -> ->]|Hin]);
      try (by apply elem_of_nil in Hin); done.
Qed.

(** X27. Every response the server writes carries the seven fixed
    headers with their fixed values, on the local routes, on the
    transformed widget route and on upstream failures alike; the one
    exception is an upstream answer relayed in stream mode, whose own
    headers are forwarded over the fixed ones. *)
Theorem fixed_headers_on_every_response rt e network timestamp req resp :
  serve rt e network timestamp req = Some resp →
  (∀ k v, (k, v) ∈ corsHeaders → getHeader k (res_headers resp) = Some (HStr v))
  ∨ (∃ targetUrl proxyRes,
       network (clientRequest targetUrl req) = UpstreamResponse proxyRes
       ∧ resp = onResponse rt false proxyRes).
Proof.
  unfold serve, handleRequest.
  destruct (dispatch rt req) as [| | | | | |t|t|t|t|p|t|] eqn:Hd;
    try (intros Hr; left; by apply (respondLocal_fixed _ _ _ _ _ Hr));
    try done.
  all: match goal with
       | |- context [proxyRequest ?rt' ?e' ?n' ?t' ?req' ?b] =>
           pose proof (proxied_fixed rt' e' n' t' req' b) as Hp;
           destruct (proxyRequest rt' e' n' t' req' b) as [log r]; cbn [snd] in Hp;
           intros [= <-];
           destruct Hp as [Hp|(proxyRes & Hnet & _ & ->)];
           [by left | right; by exists t', proxyRes]
       end.
Qed.

Lemma fixed_headers_on_every_response_witness :
  ∃ resp,
    serve Fixture.runtime Fixture.env (fun _ => UpstreamError "connect ECONNREFUSED")
      "2025-01-01T00:00:00.000Z" (Fixture.get "/nowhere") = Some resp
    ∧ res_status resp = 404%Z
    ∧ getHeader "X-Content-Type-Options" (res_headers resp) = Some (HStr "nosniff").
Proof.
  eexists. split; [reflexivity|]. split; [reflexivity|].
  destruct (fixed_headers_on_every_response Fixture.runtime Fixture.env
              (fun _ => UpstreamError "connect ECONNREFUSED")
              "2025-01-01T00:00:00.000Z" (Fixture.get "/nowhere") _ eq_refl)
    as [Hfixed|(targetUrl & proxyRes & Hnet & _)]; [|discriminate].
  apply Hfixed. apply (bool_decide_unpack _). vm_compute. exact I.
Defined.

Lemma dispatch_theme rt req css :
  req_method req ≠ "OPTIONS" → req_pathname req = "/loader/theme.css" →
  readFileSync rt (themeFile rt) = Some css →
  dispatch rt req = RThemeCss css.
Proof.
  intros Hm%String.eqb_neq Hp Hread. unfold dispatch, steps. cbn [firstMatch].
  unfold step_preflight, step_health, step_demo, step_theme. fold (themeFile rt).
  rewrite Hm, Hp, Hread. reflexivity.
Qed.

Lemma dispatch_preview rt req html :
  req_method req ≠ "OPTIONS" →
  req_pathname req = "/loader/preview.html" ∨ req_pathname req = "/loader/preview" →
  readFileSync rt (previewFile rt) = Some html →
  dispatch rt req = RPreview html (orString (req_matchId req) "61939220").
Proof.
  intros Hm%String.eqb_neq Hp Hread. unfold dispatch, steps. cbn [firstMatch].
  unfold step_preflight, step_health, step_demo, step_theme, step_preview.
  fold (previewFile rt). rewrite Hm, Hread. by destruct Hp as [-> | ->].
Qed.

(** X28. The two loader pages.  A request for [/loader/theme.css] whose
    file can be read is answered 200 with the bytes of the file as they
    are, the type [text/css] and the length of the file as content length.
    A request for [/loader/preview] or [/loader/preview.html] whose file
    can be read is answered 200 with the rewritten page, for the match id
    of the query or [61939220] without one, as [text/html]; the handler
    sets no content length for it. *)
Theorem static_pages_served rt e network timestamp req (file : list byte) :
  req_method req ≠ "OPTIONS" →
  (req_pathname req = "/loader/theme.css" →
   readFileSync rt (themeFile rt) = Some file →
   ∃ resp, serve rt e network timestamp req = Some resp
     ∧ res_status resp = 200%Z
     ∧ res_body resp = file
     ∧ getHeader "content-type" (res_headers resp) = Some (HStr "text/css")
     ∧ getHeader "content-length" (res_headers resp) = Some (HStr (pretty (length file))))
  ∧ (req_pathname req = "/loader/preview.html" ∨ req_pathname req = "/loader/preview" →
     readFileSync rt (previewFile rt) = Some file →
     ∃ resp, serve rt e network timestamp req = Some resp
       ∧ res_status resp = 200%Z
       ∧ res_body resp
         = utf8_encode (previewBody (orString (req_matchId req) "61939220")
                          (bufferToString rt file))
       ∧ getHeader "content-type" (res_headers resp) = Some (HStr "text/html")
       ∧ getHeader "content-length" (res_headers resp) = None).
Proof.
  intros Hm. split.
  - intros Hp Hread. unfold serve, handleRequest. rewrite (dispatch_theme rt req file) by done.
    eexists. split; [reflexivity|]. unfold res_body. cbn [respondLocal writeHead res_chunks concat].
    rewrite (right_id_L [] (++)). repeat split.
  - intros Hp Hread. unfold serve, handleRequest.
    rewrite (dispatch_preview rt req file) by done.
    eexists. split; [reflexivity|]. unfold res_body. cbn [respondLocal writeHead res_chunks concat].
    rewrite (right_id_L [] (++)). repeat split.
Qed.

Lemma static_pages_served_witness :
  ∃ resp,
    serve Scenario.pages Fixture.env (fun _ => UpstreamError "connect ECONNREFUSED")
      "2025-01-01T00:00:00.000Z" (Fixture.get "/loader/theme.css") = Some resp
    ∧ res_body resp = Fixture.ascii_bytes "a{}".
Proof.
  destruct (proj1 (static_pages_served Scenario.pages Fixture.env
                     (fun _ => UpstreamError "connect ECONNREFUSED")
                     "2025-01-01T00:00:00.000Z" (Fixture.get "/loader/theme.css")
                     (Fixture.ascii_bytes "a{}") ltac:(discriminate)) eq_refl eq_refl)
    as (resp & Hserve & _ & Hbody & _).
  by exists resp.
Defined.
End ServeProperties.

(** ** The fallback configuration *)

Section FallbackConfig.
Import JsText Json ProxyService ProxyRouter.

(** X29. Under the fallback configuration, which names no widget id, a
    widget request that misses the cache is fetched from
    [https://widgets.sir-sportradar.com/undefined/widgetloader], for either
    widget type: the placeholder of the path is replaced by the text of the
    missing value.  The request carries the query parameters, asks for
    text and accepts every type. *)
Theorem fallback_widget_address (network : Network) now widgetType query rh st :
  widgetType = "match.lmtPlus" ∨ widgetType = "match.preview" →
  CacheStore.get now (widgetCacheKey "sportradar" widgetType query) (cache st) = None →
  ∃ request,
    fetched (snd (proxyWidget defaultConfig network now "sportradar" widgetType query rh st))
    = fetched st ++ [request]
    ∧ fetch_url request = "https://widgets.sir-sportradar.com/undefined/widgetloader"
    ∧ fetch_params request = query
    ∧ fetch_responseType request = "text"
    ∧ prop "Accept" (fetch_headers request) = Some (Some "*/*").
Proof.
  intros Hw Hmiss.
  destruct Hw as [-> | ->]; unfold proxyWidget;
    cbn -[widgetCacheKey prepareHeaders CacheStore.get httpClient_get buildResponseHeaders
          cacheSet recordFetch];
    rewrite Hmiss;
    destruct (httpClient_get _); cbn [snd cacheSet recordFetch fetched];
    eexists; (split; [reflexivity|]);
    cbn [fetch_url fetch_params fetch_responseType fetch_headers];
    repeat split; unfold prepareHeaders; by destruct (truthyString (acceptEncoding rh)).
Qed.

Lemma fallback_widget_address_witness :
  ∃ request,
    fetched (snd (proxyWidget defaultConfig Fixture.upstream_ok 1000 "sportradar"
                    "match.preview" Fixture.matchQuery Fixture.noHeaders Fixture.cold))
    = [request]
    ∧ fetch_url request = "https://widgets.sir-sportradar.com/undefined/widgetloader".
Proof.
  destruct (fallback_widget_address Fixture.upstream_ok 1000 "match.preview"
              Fixture.matchQuery Fixture.noHeaders Fixture.cold
              (or_intror eq_refl) eq_refl) as (request & Hlog & Hurl & _).
  by exists request.
Defined.
End FallbackConfig.
